(** * Software FIFO buffers (fifo.c / fifo.h): a shallow embedding

    The C sources implement four ring buffers over caller-supplied storage:
    [fifo_uint8_*], [fifo_uint16_*], [fifo_uint32_*] and the [fifo_common_*]
    variant whose entry size is chosen at run time.  Every function is
    embedded below under its C name.

    Modelling conventions.
    - Memory is one flat, byte-addressed map from addresses to byte values.
      A pointer is the address it holds ([Z]); [NULL] is address [0].
    - A pointer [T *p] is kept as a byte address, so [p + n] on a
      [uint16_t *] is [p + 2 * n], and [p - q] is the byte distance divided
      by [sizeof(T)].
    - A descriptor ([fifo_*_TD]) is a record; the pointer to it is an
      [option]: [None] is the [NULL] descriptor pointer.  Descriptors do not
      live in the byte memory (they are assumed not to alias any buffer).
    - [uint16_t] fields and the [uint16_t] parameter [m] are integers whose
      assignments wrap modulo 2^16 ([u16]); intermediate sums and
      differences are done in [int]/[ptrdiff_t], which is wide enough for
      all 16-bit operands and is therefore plain [Z] arithmetic.  The
      products of two [uint16_t] values that the common variant computes are
      done in [int] as well and are written in [Z]: the two agree while the
      product stays below 2^31 (beyond it the C product overflows), and the
      theorems that depend on the value of such a product assume this bound.
      C division [/] truncates: [Z.quot].
    - Multi-byte objects are stored little-endian.
    - Every function returns the C status code together with the descriptor
      and the memory it leaves behind. *)

From Stdlib Require Import ZArith List Bool Lia.
Import ListNotations.
Local Open Scope Z_scope.

(** ** Memory *)

Definition mem := Z -> Z.

Definition u16 (x : Z) : Z := x mod 65536.

(** [memcpy(dst, src, n)]: the [n] bytes at [src] are copied to [dst].  The
    source bytes are read from the memory as it was before the call.  C leaves
    overlapping copies undefined, so this agrees with C for a source and a
    destination that do not overlap; the theorems about the data a copy moves
    take their sources and destinations outside the storage, which the other
    end of the copy lies in.  A byte count [n <= 0] copies nothing; the
    C code casts the count to [size_t], and every count computed from a
    well-formed descriptor is non-negative. *)
Definition memcpy (ram : mem) (dst src n : Z) : mem :=
  fun a => if (dst <=? a) && (a <? dst + n) then ram (src + (a - dst)) else ram a.

(** [memset(dst, c, n)]. *)
Definition memset (ram : mem) (dst c n : Z) : mem :=
  fun a => if (dst <=? a) && (a <? dst + n) then c mod 256 else ram a.

(** Store of the [w] low bytes of [v] at [p], least significant first. *)
Fixpoint store_le (w : nat) (ram : mem) (p v : Z) : mem :=
  match w with
  | O => ram
  | S w' => store_le w' (fun a => if a =? p then v mod 256 else ram a) (p + 1) (v / 256)
  end.

(** Load of a [w]-byte little-endian object at [p]. *)
Fixpoint load_le (w : nat) (ram : mem) (p : Z) : Z :=
  match w with
  | O => 0
  | S w' => ram p + 256 * load_le w' ram (p + 1)
  end.

(** The bytes [ram p], ..., [ram (p + n - 1)]. *)
Fixpoint read_bytes (ram : mem) (p : Z) (n : nat) : list Z :=
  match n with
  | O => []
  | S n' => ram p :: read_bytes ram (p + 1) n'
  end.

(** [n] consecutive [w]-byte objects starting at [p]. *)
Fixpoint read_objs (w : nat) (ram : mem) (p : Z) (n : nat) : list Z :=
  match n with
  | O => []
  | S n' => load_le w ram p :: read_objs w ram (p + Z.of_nat w) n'
  end.

(** A caller's array of [w]-byte objects [vs] written at [p]. *)
Fixpoint write_objs (w : nat) (ram : mem) (p : Z) (vs : list Z) : mem :=
  match vs with
  | [] => ram
  | v :: vs' => write_objs w (store_le w ram p v) (p + Z.of_nat w) vs'
  end.

(** ** uint8_t FIFO buffer *)

Module Uint8.

Record fifo_uint8_TD := mk {
  buffer : Z;
  head_ptr : Z;
  tail_ptr : Z;
  limit_ptr : Z;
  max_size : Z;
  free_size : Z
}.

Definition set_head_ptr (f : fifo_uint8_TD) (p : Z) :=
  mk (buffer f) p (tail_ptr f) (limit_ptr f) (max_size f) (free_size f).
Definition set_tail_ptr (f : fifo_uint8_TD) (p : Z) :=
  mk (buffer f) (head_ptr f) p (limit_ptr f) (max_size f) (free_size f).
Definition set_free_size (f : fifo_uint8_TD) (n : Z) :=
  mk (buffer f) (head_ptr f) (tail_ptr f) (limit_ptr f) (max_size f) n.

Definition result : Type := Z * option fifo_uint8_TD * mem.

Definition fifo_uint8_clear (fifo : option fifo_uint8_TD) (ram : mem) : result :=
  match fifo with
  | None => (-1, None, ram)
  | Some f =>
      let ram := memset ram (buffer f) 0 (max_size f) in
      let f := set_head_ptr f (buffer f) in
      let f := set_tail_ptr f (buffer f) in
      let f := set_free_size f (max_size f) in
      (0, Some f, ram)
  end.

Definition fifo_uint8_pop (fifo : option fifo_uint8_TD) (val : Z) (ram : mem) : result :=
  match fifo with
  | None => (-1, None, ram)
  | Some f =>
      if val =? 0 then (-2, Some f, ram)
      else if free_size f =? max_size f then (-3, Some f, ram)
      else
        let ram := store_le 1 ram val (load_le 1 ram (head_ptr f)) in
        let f := set_head_ptr f (head_ptr f + 1) in
        let f := set_free_size f (u16 (free_size f + 1)) in
        let f := if limit_ptr f <=? head_ptr f then set_head_ptr f (buffer f) else f in
        (0, Some f, ram)
  end.

Definition fifo_uint8_pop_mul (fifo : option fifo_uint8_TD) (pop_buffer m : Z) (ram : mem)
  : result :=
  match fifo with
  | None => (-1, None, ram)
  | Some f =>
      if pop_buffer =? 0 then (-2, Some f, ram)
      else if m =? 0 then (-3, Some f, ram)
      else if max_size f - free_size f <? m then (-4, Some f, ram)
      else
        let f := set_free_size f (u16 (free_size f + m)) in
        let limit := head_ptr f + m in
        let '(f, pop_buffer, m, ram) :=
          if limit_ptr f <=? limit then
            let ram := memcpy ram pop_buffer (head_ptr f) (limit_ptr f - head_ptr f) in
            let pop_buffer := pop_buffer + (limit_ptr f - head_ptr f) in
            let m := u16 (m - (limit_ptr f - head_ptr f)) in
            let f := set_head_ptr f (buffer f) in
            (f, pop_buffer, m, ram)
          else (f, pop_buffer, m, ram) in
        let ram := memcpy ram pop_buffer (head_ptr f) m in
        let f := set_head_ptr f (head_ptr f + m) in
        (0, Some f, ram)
  end.

Definition fifo_uint8_push (fifo : option fifo_uint8_TD) (val : Z) (ram : mem) : result :=
  match fifo with
  | None => (-1, None, ram)
  | Some f =>
      if free_size f =? 0 then (-2, Some f, ram)
      else
        let ram := store_le 1 ram (tail_ptr f) val in
        let f := set_tail_ptr f (tail_ptr f + 1) in
        let f := set_free_size f (u16 (free_size f - 1)) in
        let f := if limit_ptr f <=? tail_ptr f then set_tail_ptr f (buffer f) else f in
        (0, Some f, ram)
  end.

Definition fifo_uint8_push_mul (fifo : option fifo_uint8_TD) (push_buffer m : Z) (ram : mem)
  : result :=
  match fifo with
  | None => (-1, None, ram)
  | Some f =>
      if push_buffer =? 0 then (-2, Some f, ram)
      else if m =? 0 then (-3, Some f, ram)
      else if free_size f <? m then (-4, Some f, ram)
      else
        let f := set_free_size f (u16 (free_size f - m)) in
        let limit := tail_ptr f + m in
        let '(f, push_buffer, m, ram) :=
          if limit_ptr f <=? limit then
            let ram := memcpy ram (tail_ptr f) push_buffer (limit_ptr f - tail_ptr f) in
            let push_buffer := push_buffer + (limit_ptr f - tail_ptr f) in
            let m := u16 (m - (limit_ptr f - tail_ptr f)) in
            let f := set_tail_ptr f (buffer f) in
            (f, push_buffer, m, ram)
          else (f, push_buffer, m, ram) in
        let ram := memcpy ram (tail_ptr f) push_buffer m in
        let f := set_tail_ptr f (tail_ptr f + m) in
        (0, Some f, ram)
  end.

Definition fifo_uint8_init (fifo : option fifo_uint8_TD) (buffer size : Z)
    (clear_flag : bool) (ram : mem) : result :=
  match fifo with
  | None => (-1, None, ram)
  | Some f =>
      if buffer =? 0 then (-2, Some f, ram)
      else if size =? 0 then (-3, Some f, ram)
      else
        let f := mk buffer buffer buffer (buffer + size) size size in
        let ram := if clear_flag then memset ram buffer 0 size else ram in
        (0, Some f, ram)
  end.

End Uint8.

(** ** uint16_t FIFO buffer

    The descriptor's pointers are [uint16_t *]: one element is 2 bytes. *)

Module Uint16.

Record fifo_uint16_TD := mk {
  buffer : Z;
  head_ptr : Z;
  tail_ptr : Z;
  limit_ptr : Z;
  max_size : Z;
  free_size : Z
}.

Definition set_head_ptr (f : fifo_uint16_TD) (p : Z) :=
  mk (buffer f) p (tail_ptr f) (limit_ptr f) (max_size f) (free_size f).
Definition set_tail_ptr (f : fifo_uint16_TD) (p : Z) :=
  mk (buffer f) (head_ptr f) p (limit_ptr f) (max_size f) (free_size f).
Definition set_free_size (f : fifo_uint16_TD) (n : Z) :=
  mk (buffer f) (head_ptr f) (tail_ptr f) (limit_ptr f) (max_size f) n.

Definition result : Type := Z * option fifo_uint16_TD * mem.

(** Arithmetic on [uint16_t *]. *)
Definition ptr_add (p n : Z) : Z := p + 2 * n.
Definition ptr_diff (p q : Z) : Z := (p - q) ÷ 2.

Definition fifo_uint16_clear (fifo : option fifo_uint16_TD) (ram : mem) : result :=
  match fifo with
  | None => (-1, None, ram)
  | Some f =>
      let ram := memset ram (buffer f) 0 (max_size f) in
      let f := set_head_ptr f (buffer f) in
      let f := set_tail_ptr f (buffer f) in
      let f := set_free_size f (max_size f) in
      (0, Some f, ram)
  end.

Definition fifo_uint16_pop (fifo : option fifo_uint16_TD) (val : Z) (ram : mem) : result :=
  match fifo with
  | None => (-1, None, ram)
  | Some f =>
      if val =? 0 then (-2, Some f, ram)
      else if free_size f =? max_size f then (-3, Some f, ram)
      else
        let ram := store_le 2 ram val (load_le 2 ram (head_ptr f)) in
        let f := set_head_ptr f (ptr_add (head_ptr f) 1) in
        let f := set_free_size f (u16 (free_size f + 1)) in
        let f := if limit_ptr f <=? head_ptr f then set_head_ptr f (buffer f) else f in
        (0, Some f, ram)
  end.

Definition fifo_uint16_pop_mul (fifo : option fifo_uint16_TD) (pop_buffer m : Z) (ram : mem)
  : result :=
  match fifo with
  | None => (-1, None, ram)
  | Some f =>
      if pop_buffer =? 0 then (-2, Some f, ram)
      else if m =? 0 then (-3, Some f, ram)
      else if max_size f <? m then (-4, Some f, ram)
      else
        let f := set_free_size f (u16 (free_size f + m)) in
        let limit := ptr_add (head_ptr f) m in
        let '(f, pop_buffer, m, ram) :=
          if limit_ptr f <=? limit then
            let ram :=
              memcpy ram pop_buffer (head_ptr f) (ptr_diff (limit_ptr f) (head_ptr f)) in
            let pop_buffer :=
              ptr_add pop_buffer (ptr_diff (limit_ptr f) (head_ptr f) ÷ 2) in
            let m := u16 (m - ptr_diff (limit_ptr f) (head_ptr f) ÷ 2) in
            let f := set_head_ptr f (buffer f) in
            (f, pop_buffer, m, ram)
          else (f, pop_buffer, m, ram) in
        let ram := memcpy ram pop_buffer (head_ptr f) (m * 2) in
        let f := set_head_ptr f (ptr_add (head_ptr f) m) in
        (0, Some f, ram)
  end.

Definition fifo_uint16_push (fifo : option fifo_uint16_TD) (val : Z) (ram : mem) : result :=
  match fifo with
  | None => (-1, None, ram)
  | Some f =>
      if free_size f =? 0 then (-2, Some f, ram)
      else
        let ram := store_le 2 ram (tail_ptr f) val in
        let f := set_tail_ptr f (ptr_add (tail_ptr f) 1) in
        let f := set_free_size f (u16 (free_size f - 1)) in
        let f := if limit_ptr f <=? tail_ptr f then set_tail_ptr f (buffer f) else f in
        (0, Some f, ram)
  end.

Definition fifo_uint16_push_mul (fifo : option fifo_uint16_TD) (push_buffer m : Z)
    (ram : mem) : result :=
  match fifo with
  | None => (-1, None, ram)
  | Some f =>
      if push_buffer =? 0 then (-2, Some f, ram)
      else if m =? 0 then (-3, Some f, ram)
      else if free_size f <? m then (-4, Some f, ram)
      else
        let f := set_free_size f (u16 (free_size f - m)) in
        let limit := ptr_add (tail_ptr f) m in
        let '(f, push_buffer, m, ram) :=
          if limit_ptr f <=? limit then
            let ram :=
              memcpy ram (tail_ptr f) push_buffer (ptr_diff (limit_ptr f) (tail_ptr f)) in
            let push_buffer :=
              ptr_add push_buffer (ptr_diff (limit_ptr f) (tail_ptr f) ÷ 2) in
            let m := u16 (m - ptr_diff (limit_ptr f) (tail_ptr f) ÷ 2) in
            let f := set_tail_ptr f (buffer f) in
            (f, push_buffer, m, ram)
          else (f, push_buffer, m, ram) in
        let ram := memcpy ram (tail_ptr f) push_buffer (m * 2) in
        let f := set_tail_ptr f (ptr_add (tail_ptr f) m) in
        (0, Some f, ram)
  end.

Definition fifo_uint16_init (fifo : option fifo_uint16_TD) (buffer size : Z)
    (clear_flag : bool) (ram : mem) : result :=
  match fifo with
  | None => (-1, None, ram)
  | Some f =>
      if buffer =? 0 then (-2, Some f, ram)
      else if size =? 0 then (-3, Some f, ram)
      else
        let f := mk buffer buffer buffer (ptr_add buffer size) size size in
        let ram := if clear_flag then memset ram buffer 0 size else ram in
        (0, Some f, ram)
  end.

End Uint16.

(** ** uint32_t FIFO buffer

    The descriptor's pointers are [uint32_t *]: one element is 4 bytes. *)

Module Uint32.

Record fifo_uint32_TD := mk {
  buffer : Z;
  head_ptr : Z;
  tail_ptr : Z;
  limit_ptr : Z;
  max_size : Z;
  free_size : Z
}.

Definition set_head_ptr (f : fifo_uint32_TD) (p : Z) :=
  mk (buffer f) p (tail_ptr f) (limit_ptr f) (max_size f) (free_size f).
Definition set_tail_ptr (f : fifo_uint32_TD) (p : Z) :=
  mk (buffer f) (head_ptr f) p (limit_ptr f) (max_size f) (free_size f).
Definition set_free_size (f : fifo_uint32_TD) (n : Z) :=
  mk (buffer f) (head_ptr f) (tail_ptr f) (limit_ptr f) (max_size f) n.

Definition result : Type := Z * option fifo_uint32_TD * mem.

(** Arithmetic on [uint32_t *]. *)
Definition ptr_add (p n : Z) : Z := p + 4 * n.
Definition ptr_diff (p q : Z) : Z := (p - q) ÷ 4.

Definition fifo_uint32_clear (fifo : option fifo_uint32_TD) (ram : mem) : result :=
  match fifo with
  | None => (-1, None, ram)
  | Some f =>
      let ram := memset ram (buffer f) 0 (max_size f) in
      let f := set_head_ptr f (buffer f) in
      let f := set_tail_ptr f (buffer f) in
      let f := set_free_size f (max_size f) in
      (0, Some f, ram)
  end.

Definition fifo_uint32_pop (fifo : option fifo_uint32_TD) (val : Z) (ram : mem) : result :=
  match fifo with
  | None => (-1, None, ram)
  | Some f =>
      if val =? 0 then (-2, Some f, ram)
      else if free_size f =? max_size f then (-3, Some f, ram)
      else
        let ram := store_le 4 ram val (load_le 4 ram (head_ptr f)) in
        let f := set_head_ptr f (ptr_add (head_ptr f) 1) in
        let f := set_free_size f (u16 (free_size f + 1)) in
        let f := if limit_ptr f <=? head_ptr f then set_head_ptr f (buffer f) else f in
        (0, Some f, ram)
  end.

Definition fifo_uint32_pop_mul (fifo : option fifo_uint32_TD) (pop_buffer m : Z) (ram : mem)
  : result :=
  match fifo with
  | None => (-1, None, ram)
  | Some f =>
      if pop_buffer =? 0 then (-2, Some f, ram)
      else if m =? 0 then (-3, Some f, ram)
      else if max_size f <? m then (-4, Some f, ram)
      else
        let f := set_free_size f (u16 (free_size f + m)) in
        let limit := ptr_add (head_ptr f) m in
        let '(f, pop_buffer, m, ram) :=
          if limit_ptr f <=? limit then
            let ram :=
              memcpy ram pop_buffer (head_ptr f) (ptr_diff (limit_ptr f) (head_ptr f)) in
            let pop_buffer :=
              ptr_add pop_buffer (ptr_diff (limit_ptr f) (head_ptr f) ÷ 4) in
            let m := u16 (m - ptr_diff (limit_ptr f) (head_ptr f) ÷ 4) in
            let f := set_head_ptr f (buffer f) in
            (f, pop_buffer, m, ram)
          else (f, pop_buffer, m, ram) in
        let ram := memcpy ram pop_buffer (head_ptr f) (m * 4) in
        let f := set_head_ptr f (ptr_add (head_ptr f) m) in
        (0, Some f, ram)
  end.

Definition fifo_uint32_push (fifo : option fifo_uint32_TD) (val : Z) (ram : mem) : result :=
  match fifo with
  | None => (-1, None, ram)
  | Some f =>
      if free_size f =? 0 then (-2, Some f, ram)
      else
        let ram := store_le 4 ram (tail_ptr f) val in
        let f := set_tail_ptr f (ptr_add (tail_ptr f) 1) in
        let f := set_free_size f (u16 (free_size f - 1)) in
        let f := if limit_ptr f <=? tail_ptr f then set_tail_ptr f (buffer f) else f in
        (0, Some f, ram)
  end.

Definition fifo_uint32_push_mul (fifo : option fifo_uint32_TD) (push_buffer m : Z)
    (ram : mem) : result :=
  match fifo with
  | None => (-1, None, ram)
  | Some f =>
      if push_buffer =? 0 then (-2, Some f, ram)
      else if m =? 0 then (-3, Some f, ram)
      else if free_size f <? m then (-4, Some f, ram)
      else
        let f := set_free_size f (u16 (free_size f - m)) in
        let limit := ptr_add (tail_ptr f) m in
        let '(f, push_buffer, m, ram) :=
          if limit_ptr f <=? limit then
            let ram :=
              memcpy ram (tail_ptr f) push_buffer (ptr_diff (limit_ptr f) (tail_ptr f)) in
            let push_buffer :=
              ptr_add push_buffer (ptr_diff (limit_ptr f) (tail_ptr f) ÷ 4) in
            let m := u16 (m - ptr_diff (limit_ptr f) (tail_ptr f) ÷ 4) in
            let f := set_tail_ptr f (buffer f) in
            (f, push_buffer, m, ram)
          else (f, push_buffer, m, ram) in
        let ram := memcpy ram (tail_ptr f) push_buffer (m * 4) in
        let f := set_tail_ptr f (ptr_add (tail_ptr f) m) in
        (0, Some f, ram)
  end.

Definition fifo_uint32_init (fifo : option fifo_uint32_TD) (buffer size : Z)
    (clear_flag : bool) (ram : mem) : result :=
  match fifo with
  | None => (-1, None, ram)
  | Some f =>
      if buffer =? 0 then (-2, Some f, ram)
      else if size =? 0 then (-3, Some f, ram)
      else
        let f := mk buffer buffer buffer (ptr_add buffer size) size size in
        let ram := if clear_flag then memset ram buffer 0 size else ram in
        (0, Some f, ram)
  end.

End Uint32.

(** ** common FIFO buffer

    The pointers are [void *]; the code casts them to [uint8_t *] before any
    arithmetic, so all offsets below are byte offsets.  The products
    [entry_size * size], [max_size * entry_size] and [m * entry_size] are
    computed in [int] from two [uint16_t] operands; they are defined in C as
    long as they stay below 2^31, and in this range the products in [Z] below
    are the ones the code computes.  With [entry_size * max_size < 2^31] and
    [m <= max_size] all of them are in range. *)

Module Common.

Record fifo_common_TD := mk {
  buffer : Z;
  head_ptr : Z;
  tail_ptr : Z;
  limit_ptr : Z;
  entry_size : Z;
  max_size : Z;
  free_size : Z
}.

Definition set_head_ptr (f : fifo_common_TD) (p : Z) :=
  mk (buffer f) p (tail_ptr f) (limit_ptr f) (entry_size f) (max_size f) (free_size f).
Definition set_tail_ptr (f : fifo_common_TD) (p : Z) :=
  mk (buffer f) (head_ptr f) p (limit_ptr f) (entry_size f) (max_size f) (free_size f).
Definition set_free_size (f : fifo_common_TD) (n : Z) :=
  mk (buffer f) (head_ptr f) (tail_ptr f) (limit_ptr f) (entry_size f) (max_size f) n.

Definition result : Type := Z * option fifo_common_TD * mem.

Definition fifo_common_clear (fifo : option fifo_common_TD) (ram : mem) : result :=
  match fifo with
  | None => (-1, None, ram)
  | Some f =>
      let ram := memset ram (buffer f) 0 (max_size f * entry_size f) in
      let f := set_head_ptr f (buffer f) in
      let f := set_tail_ptr f (buffer f) in
      let f := set_free_size f (max_size f) in
      (0, Some f, ram)
  end.

Definition fifo_common_pop (fifo : option fifo_common_TD) (val_buffer : Z) (ram : mem)
  : result :=
  match fifo with
  | None => (-1, None, ram)
  | Some f =>
      if val_buffer =? 0 then (-2, Some f, ram)
      else if free_size f =? max_size f then (-3, Some f, ram)
      else
        let ram :=
          if negb (val_buffer =? 0) then memcpy ram val_buffer (head_ptr f) (entry_size f)
          else ram in
        let f := set_head_ptr f (head_ptr f + entry_size f) in
        let f := set_free_size f (u16 (free_size f + 1)) in
        let f := if limit_ptr f <=? head_ptr f then set_head_ptr f (buffer f) else f in
        (0, Some f, ram)
  end.

Definition fifo_common_pop_mul (fifo : option fifo_common_TD) (pop_buffer m : Z) (ram : mem)
  : result :=
  match fifo with
  | None => (-1, None, ram)
  | Some f =>
      if pop_buffer =? 0 then (-2, Some f, ram)
      else if m =? 0 then (-3, Some f, ram)
      else if max_size f <? m then (-4, Some f, ram)
      else
        let f := set_free_size f (u16 (free_size f + m)) in
        let limit := head_ptr f + m * entry_size f in
        let '(f, pop_buffer, m, ram) :=
          if limit_ptr f <=? limit then
            let ram :=
              memcpy ram pop_buffer (head_ptr f)
                     ((limit_ptr f - head_ptr f) * entry_size f) in
            let pop_buffer := pop_buffer + (limit_ptr f - head_ptr f) * entry_size f in
            let m := u16 (m - (limit_ptr f - head_ptr f)) in
            let f := set_head_ptr f (buffer f) in
            (f, pop_buffer, m, ram)
          else (f, pop_buffer, m, ram) in
        let ram := memcpy ram pop_buffer (head_ptr f) (m * entry_size f) in
        let f := set_head_ptr f (head_ptr f + m * entry_size f) in
        (0, Some f, ram)
  end.

Definition fifo_common_push (fifo : option fifo_common_TD) (val_buffer : Z) (ram : mem)
  : result :=
  match fifo with
  | None => (-1, None, ram)
  | Some f =>
      if val_buffer =? 0 then (-2, Some f, ram)
      else if free_size f =? 0 then (-3, Some f, ram)
      else
        let ram := memcpy ram (tail_ptr f) val_buffer (entry_size f) in
        let f := set_tail_ptr f (tail_ptr f + entry_size f) in
        let f := set_free_size f (u16 (free_size f - 1)) in
        let f := if limit_ptr f <=? tail_ptr f then set_tail_ptr f (buffer f) else f in
        (0, Some f, ram)
  end.

Definition fifo_common_push_mul (fifo : option fifo_common_TD) (push_buffer m : Z)
    (ram : mem) : result :=
  match fifo with
  | None => (-1, None, ram)
  | Some f =>
      if push_buffer =? 0 then (-2, Some f, ram)
      else if m =? 0 then (-3, Some f, ram)
      else if free_size f <? m then (-4, Some f, ram)
      else
        let f := set_free_size f (u16 (free_size f - m)) in
        let limit := tail_ptr f + m * entry_size f in
        let '(f, push_buffer, m, ram) :=
          if limit_ptr f <=? limit then
            let ram :=
              memcpy ram (tail_ptr f) push_buffer
                     ((limit_ptr f - tail_ptr f) * entry_size f) in
            let push_buffer := push_buffer + (limit_ptr f - tail_ptr f) * entry_size f in
            let m := u16 (m - (limit_ptr f - tail_ptr f) ÷ entry_size f) in
            let f := set_tail_ptr f (buffer f) in
            (f, push_buffer, m, ram)
          else (f, push_buffer, m, ram) in
        let ram := memcpy ram (tail_ptr f) push_buffer (m * entry_size f) in
        let f := set_tail_ptr f (tail_ptr f + m * entry_size f) in
        (0, Some f, ram)
  end.

Definition fifo_common_init (fifo : option fifo_common_TD) (buffer size entry_size : Z)
    (clear_flag : bool) (ram : mem) : result :=
  match fifo with
  | None => (-1, None, ram)
  | Some f =>
      if buffer =? 0 then (-2, Some f, ram)
      else if size =? 0 then (-3, Some f, ram)
      else if entry_size =? 0 then (-4, Some f, ram)
      else
        let f := mk buffer buffer buffer (buffer + entry_size * size) entry_size size size in
        let ram := if clear_flag then memset ram buffer 0 (size * entry_size) else ram in
        (0, Some f, ram)
  end.

End Common.

(** ** Callers

    The six entry points of a variant share one calling convention, so the
    variants are collected as instances of one interface, and client code
    (sequences of calls) is written once against it. *)

Record fifo_api (F : Type) := Api {
  api_clear : option F -> mem -> Z * option F * mem;
  api_pop : option F -> Z -> mem -> Z * option F * mem;
  api_pop_mul : option F -> Z -> Z -> mem -> Z * option F * mem;
  api_push : option F -> Z -> mem -> Z * option F * mem;
  api_push_mul : option F -> Z -> Z -> mem -> Z * option F * mem;
  api_max_size : F -> Z;
  api_free_size : F -> Z
}.

Arguments Api {F}.
Arguments api_clear {F}.
Arguments api_pop {F}.
Arguments api_pop_mul {F}.
Arguments api_push {F}.
Arguments api_push_mul {F}.
Arguments api_max_size {F}.
Arguments api_free_size {F}.

Definition uint8_api : fifo_api Uint8.fifo_uint8_TD :=
  Api Uint8.fifo_uint8_clear Uint8.fifo_uint8_pop Uint8.fifo_uint8_pop_mul
      Uint8.fifo_uint8_push Uint8.fifo_uint8_push_mul Uint8.max_size Uint8.free_size.

Definition uint16_api : fifo_api Uint16.fifo_uint16_TD :=
  Api Uint16.fifo_uint16_clear Uint16.fifo_uint16_pop Uint16.fifo_uint16_pop_mul
      Uint16.fifo_uint16_push Uint16.fifo_uint16_push_mul Uint16.max_size Uint16.free_size.

Definition uint32_api : fifo_api Uint32.fifo_uint32_TD :=
  Api Uint32.fifo_uint32_clear Uint32.fifo_uint32_pop Uint32.fifo_uint32_pop_mul
      Uint32.fifo_uint32_push Uint32.fifo_uint32_push_mul Uint32.max_size Uint32.free_size.

Definition common_api : fifo_api Common.fifo_common_TD :=
  Api Common.fifo_common_clear Common.fifo_common_pop Common.fifo_common_pop_mul
      Common.fifo_common_push Common.fifo_common_push_mul Common.max_size Common.free_size.

(** One call of the interface after initialisation.  The argument of [Push]
    is the value for the typed variants and the value buffer's address for
    the common variant. *)
Inductive call :=
| Clear
| Pop (val : Z)
| PopMul (pop_buffer m : Z)
| Push (val : Z)
| PushMul (push_buffer m : Z).

(** The counts of the bulk calls are [uint16_t] values. *)
Definition call_fits (c : call) : Prop :=
  match c with
  | PopMul _ m | PushMul _ m => 0 <= m < 65536
  | _ => True
  end.

Section Clients.
Context {F : Type} (api : fifo_api F).

Definition run_call (c : call) (fifo : option F) (ram : mem) : Z * option F * mem :=
  match c with
  | Clear => api_clear api fifo ram
  | Pop val => api_pop api fifo val ram
  | PopMul pop_buffer m => api_pop_mul api fifo pop_buffer m ram
  | Push val => api_push api fifo val ram
  | PushMul push_buffer m => api_push_mul api fifo push_buffer m ram
  end.

(** A sequence of calls, whatever they return; the statuses are collected. *)
Fixpoint run_calls (cs : list call) (fifo : option F) (ram : mem)
  : list Z * option F * mem :=
  match cs with
  | [] => ([], fifo, ram)
  | c :: cs' =>
      let '(rc, fifo, ram) := run_call c fifo ram in
      let '(rcs, fifo, ram) := run_calls cs' fifo ram in
      (rc :: rcs, fifo, ram)
  end.

(** [k] single pops into the same variable at [val]; the caller reads the
    variable with [read] after each call. *)
Fixpoint pop_each {A : Type} (read : mem -> Z -> A) (k : nat) (val : Z)
    (fifo : option F) (ram : mem) : list (Z * A) * option F * mem :=
  match k with
  | O => ([], fifo, ram)
  | S k' =>
      let '(rc, fifo, ram) := api_pop api fifo val ram in
      let v := read ram val in
      let '(rs, fifo, ram) := pop_each read k' val fifo ram in
      ((rc, v) :: rs, fifo, ram)
  end.

(** The occupancy the descriptor accounts for. *)
Definition occupied_count (f : F) : Z := api_max_size api f - api_free_size api f.

(** The capacity invariant of the data model. *)
Definition free_size_in_range (fifo : option F) : Prop :=
  match fifo with
  | None => True
  | Some f => 0 <= api_free_size api f <= api_max_size api f
  end.
End Clients.

(** Single pushes of the values [vals], in order. *)
Definition push_each {F : Type} (api : fifo_api F) (vals : list Z) :=
  run_calls api (map Push vals).

(** ** Vocabulary of the statements *)

(** The address of slot [j] of a ring of [cap] slots of [w] bytes at [b];
    the position after the last slot is the first one again. *)
Definition slot (w b cap j : Z) : Z := if cap <=? j then b else b + w * j.

(** Blocks of [s] bytes copied one after the other to [p], [p + s], ...
    from the addresses [srcs]. *)
Fixpoint copy_blocks (s : Z) (ram : mem) (p : Z) (srcs : list Z) : mem :=
  match srcs with
  | [] => ram
  | src :: srcs' => copy_blocks s (memcpy ram p src s) (p + s) srcs'
  end.

(** The caller's view of an entry of the common variant: its bytes. *)
Definition read_entry (s : Z) (ram : mem) (p : Z) : list Z :=
  read_bytes ram p (Z.to_nat s).

(** ** Concrete descriptors, memories and scenarios *)

(** A memory whose bytes are all [0xAA]. *)
Definition ram_aa : mem := fun _ => 170.

(** Descriptors before initialisation. *)
Definition d8 : Uint8.fifo_uint8_TD := Uint8.mk 0 0 0 0 0 0.
Definition d16 : Uint16.fifo_uint16_TD := Uint16.mk 0 0 0 0 0 0.
Definition d_common : Common.fifo_common_TD := Common.mk 0 0 0 0 0 0 0.

(** Full and empty buffers of capacity 4 at address 100. *)
Definition full8 : Uint8.fifo_uint8_TD := Uint8.mk 100 101 101 104 4 0.
Definition empty8 : Uint8.fifo_uint8_TD := Uint8.mk 100 101 101 104 4 4.
Definition empty16 : Uint16.fifo_uint16_TD := Uint16.mk 100 102 102 108 4 4.
Definition full_common : Common.fifo_common_TD := Common.mk 100 103 103 112 3 4 0.
Definition empty_common : Common.fifo_common_TD := Common.mk 100 103 103 112 3 4 4.

(** The scenario of the specification: a byte buffer of capacity 4 at [buf],
    a variable at [val] for the single pop and a 4-byte array at
    [pop_buffer] for the bulk pop.  The result collects the nine statuses,
    the value popped by the single pop and the [free_size] after it, the
    content of slot 0 after the wrapping push, the array filled by the bulk
    pop, and the final [free_size] and [max_size]. *)
Definition capacity4_scenario (d : Uint8.fifo_uint8_TD) (clear_flag : bool)
    (buf val pop_buffer : Z) (ram : mem) :=
  let '(r0, f, ram) := Uint8.fifo_uint8_init (Some d) buf 4 clear_flag ram in
  let '(r1, f, ram) := Uint8.fifo_uint8_push f 1 ram in
  let '(r2, f, ram) := Uint8.fifo_uint8_push f 2 ram in
  let '(r3, f, ram) := Uint8.fifo_uint8_push f 3 ram in
  let '(r4, f, ram) := Uint8.fifo_uint8_push f 4 ram in
  let '(r5, f, ram) := Uint8.fifo_uint8_push f 5 ram in
  let '(r6, f6, ram) := Uint8.fifo_uint8_pop f val ram in
  let popped := load_le 1 ram val in
  let '(r7, f, ram) := Uint8.fifo_uint8_push f6 5 ram in
  let slot0 := load_le 1 ram buf in
  let '(r8, f8, ram) := Uint8.fifo_uint8_pop_mul f pop_buffer 4 ram in
  ([r0; r1; r2; r3; r4; r5; r6; r7; r8],
   popped, option_map Uint8.free_size f6, slot0,
   read_bytes ram pop_buffer 4,
   option_map Uint8.free_size f8, option_map Uint8.max_size f8).

(** A [uint16_t] buffer of capacity 4 at address 100 (bytes 100 .. 107),
    initialised with the clear flag in a memory whose bytes are all [0xAA]. *)
Definition fresh16 : Uint16.result :=
  Uint16.fifo_uint16_init (Some d16) 100 4 true ram_aa.

(** The same buffer after three pushes and three pops: it is empty again,
    and head and tail are at the last slot (address 106). *)
Definition last_slot16 : Uint16.result :=
  let '(_, f, ram) := fresh16 in
  let '(_, f, ram) :=
    run_calls uint16_api [Push 1; Push 2; Push 3; Pop 200; Pop 200; Pop 200] f ram in
  (0, f, ram).

(** The same for the common variant with 2-byte entries; the pushed entries
    are read from a 6-byte array at address 300. *)
Definition last_slot_common : Common.result :=
  let '(_, f, ram) := Common.fifo_common_init (Some d_common) 100 4 2 true ram_aa in
  let ram := write_objs 2 ram 300 [1; 2; 3] in
  let '(_, f, ram) :=
    run_calls common_api [Push 300; Push 302; Push 304; Pop 200; Pop 200; Pop 200] f ram in
  (0, f, ram).

(** ** The queue a descriptor denotes *)

(** Every cell of the memory holds a byte. *)
Definition byte_mem (ram : mem) : Prop := forall a, 0 <= ram a < 256.

(** A slot index one lap past the last slot is brought back. *)
Definition wrap (cap x : Z) : Z := if cap <=? x then x - cap else x.

(** The [n] elements found, by [read], in the slots [hi], [hi + 1], ... of a
    ring of [cap] slots of [w] bytes at [b]. *)
Definition ring {A : Type} (read : mem -> Z -> A) (w b cap hi : Z) (n : nat) (ram : mem)
  : list A :=
  map (fun i => read ram (b + w * wrap cap (hi + Z.of_nat i))) (seq 0 n).

(** The elements a buffer holds, oldest first: [cap - fr] elements from the
    head slot [hi] on. *)
Definition queue {A : Type} (read : mem -> Z -> A) (w b cap hi fr : Z) (ram : mem)
  : list A :=
  ring read w b cap hi (Z.to_nat (cap - fr)) ram.

(** The descriptor fields of a well-formed buffer at [b] with [cap] slots of
    [w] bytes, head at slot [hi] and [fr] free slots: the tail is
    [cap - fr] slots after the head. *)
Definition ring_desc {F : Type} (mkF : Z -> Z -> Z -> Z -> Z -> Z -> F) (w b cap hi fr : Z)
  : F :=
  mkF b (b + w * hi) (b + w * wrap cap (hi + (cap - fr))) (b + w * cap) cap fr.

Definition ring_ok (cap hi fr : Z) : Prop :=
  0 < cap < 65536 /\ 0 <= hi < cap /\ 0 <= fr <= cap.

(** The constructor of the common descriptor with the entry size fixed. *)
Definition common_mk (s : Z) (b h t l mx fr : Z) : Common.fifo_common_TD :=
  Common.mk b h t l s mx fr.

(** ** The reference: a bounded queue

    [queue_call] is what a call does to a queue of at most [cap] elements:
    the status, the queue afterwards and the elements delivered.  [full] is
    the status a push returns on a full queue ([-2] for the typed variants,
    [-3] for the common one), [elem ram x] the element a push argument
    denotes and [elems ram p n] the [n] elements of the array at [p]. *)
Definition queue_call {A : Type} (cap full : Z) (elem : mem -> Z -> A)
    (elems : mem -> Z -> nat -> list A) (c : call) (q : list A) (ram : mem)
  : Z * list A * list A :=
  match c with
  | Clear => (0, [], [])
  | Pop val =>
      if val =? 0 then (-2, q, [])
      else match q with
           | [] => (-3, q, [])
           | e :: q' => (0, q', [e])
           end
  | PopMul pop_buffer m =>
      if pop_buffer =? 0 then (-2, q, [])
      else if m =? 0 then (-3, q, [])
      else if Z.of_nat (length q) <? m then (-4, q, [])
      else (0, skipn (Z.to_nat m) q, firstn (Z.to_nat m) q)
  | Push x =>
      if Z.of_nat (length q) =? cap then (full, q, [])
      else (0, q ++ [elem ram x], [])
  | PushMul push_buffer m =>
      if push_buffer =? 0 then (-2, q, [])
      else if m =? 0 then (-3, q, [])
      else if cap - Z.of_nat (length q) <? m then (-4, q, [])
      else (0, q ++ elems ram push_buffer (Z.to_nat m), [])
  end.

(** What the caller finds at the destination of a pop after the call. *)
Definition delivered {A : Type} (read : mem -> Z -> A) (elems : mem -> Z -> nat -> list A)
    (c : call) (ram : mem) : list A :=
  match c with
  | Pop val => [read ram val]
  | PopMul pop_buffer m => elems ram pop_buffer (Z.to_nat m)
  | _ => []
  end.

(** The pointer arguments of a call are null or point outside the storage,
    a push argument is acceptable ([arg_ok]), and the counts are [uint16_t]
    values. *)
Definition call_valid (arg_ok : Z -> Prop) (w b cap : Z) (c : call) : Prop :=
  match c with
  | Clear => True
  | Push x => arg_ok x
  | Pop val => val = 0 \/ val + w <= b \/ b + w * cap <= val
  | PopMul p m | PushMul p m =>
      0 <= m < 65536 /\ (p = 0 \/ p + w * m <= b \/ b + w * cap <= p)
  end.

Definition single_call (c : call) : Prop :=
  match c with
  | Clear | Pop _ | Push _ => True
  | PopMul _ _ | PushMul _ _ => False
  end.

(** The calls [cs] made on [fifo] return, one after the other, the statuses
    the reference returns on the queue [q], and deliver the same elements. *)
Fixpoint refines {F A : Type} (api : fifo_api F) (cap full : Z) (read : mem -> Z -> A)
    (elem : mem -> Z -> A) (elems : mem -> Z -> nat -> list A)
    (cs : list call) (fifo : option F) (ram : mem) (q : list A) : Prop :=
  match cs with
  | [] => True
  | c :: cs' =>
      let '(rc, fifo', ram') := run_call api c fifo ram in
      let '(rc_q, q', outs) := queue_call cap full elem elems c q ram in
      rc = rc_q /\
      (rc = 0 -> delivered read elems c ram' = outs) /\
      refines api cap full read elem elems cs' fifo' ram' q'
  end.

(** One call from a well-formed descriptor agrees with the reference on the
    queue the descriptor denotes, and leaves a well-formed descriptor that
    denotes the reference's queue. *)
Definition refines_call {F A : Type} (api : fifo_api F)
    (mkF : Z -> Z -> Z -> Z -> Z -> Z -> F) (w b cap full : Z) (read : mem -> Z -> A)
    (elem : mem -> Z -> A) (elems : mem -> Z -> nat -> list A) (mem_ok : mem -> Prop)
    (c : call) : Prop :=
  forall hi fr ram,
    ring_ok cap hi fr -> mem_ok ram ->
    let '(rc, fifo', ram') := run_call api c (Some (ring_desc mkF w b cap hi fr)) ram in
    let '(rc_q, q', outs) :=
      queue_call cap full elem elems c (queue read w b cap hi fr ram) ram in
    rc = rc_q /\
    (rc = 0 -> delivered read elems c ram' = outs) /\
    mem_ok ram' /\
    exists hi' fr',
      ring_ok cap hi' fr' /\
      fifo' = Some (ring_desc mkF w b cap hi' fr') /\
      queue read w b cap hi' fr' ram' = q'.
(** * Verification *)

(** ** Status codes

    The C functions return [0] on success and a small negative code on
    failure.  In the vocabulary of the specification: [-1] and [-2] of a bulk
    transfer (and [-1] .. [-4] of an initialisation) are InvalidArgument,
    [-3] of a bulk transfer is ZeroLength, [-4] of [push_mul] is
    InsufficientSpace and of [pop_mul] InsufficientData; a full buffer is
    reported as [-2] by the typed [push] and as [-3] by [fifo_common_push];
    an empty buffer as [-3] by every [pop]. *)

Ltac case_guards :=
  repeat match goal with
         | |- context [if ?b then _ else _] => destruct b eqn:?
         | H : context [if ?b then _ else _] |- _ => destruct b eqn:?
         end.

Ltac zify_guards :=
  repeat match goal with
         | H : (_ =? _) = true |- _ => apply Z.eqb_eq in H
         | H : (_ =? _) = false |- _ => apply Z.eqb_neq in H
         | H : (_ <? _) = true |- _ => apply Z.ltb_lt in H
         | H : (_ <? _) = false |- _ => apply Z.ltb_ge in H
         | H : (_ <=? _) = true |- _ => apply Z.leb_le in H
         | H : (_ <=? _) = false |- _ => apply Z.leb_gt in H
         end.


Ltac zlia := unfold u16 in *; Z.to_euclidean_division_equations; lia.

(** ** Memory lemmas *)

Lemma store_le_out : forall w ram p v a,
    a < p \/ p + Z.of_nat w <= a -> store_le w ram p v a = ram a.
Proof.
  induction w as [|w IH]; intros ram p v a Ha; [reflexivity|].
  cbn [store_le]. rewrite IH by lia.
  destruct (Z.eqb_spec a p); [lia | reflexivity].
Qed.

Lemma load_le_ext : forall w r1 r2 p,
    (forall a, p <= a < p + Z.of_nat w -> r1 a = r2 a) ->
    load_le w r1 p = load_le w r2 p.
Proof.
  induction w as [|w IH]; intros r1 r2 p H; [reflexivity|].
  cbn [load_le]. rewrite (H p) by lia.
  rewrite (IH r1 r2 (p + 1)); [reflexivity|].
  intros a Ha. apply H. lia.
Qed.

Lemma load_store_le : forall w ram p v,
    load_le w (store_le w ram p v) p = v mod 256 ^ Z.of_nat w.
Proof.
  induction w as [|w IH]; intros ram p v.
  - cbn. now rewrite Z.mod_1_r.
  - cbn [load_le store_le]. rewrite IH.
    rewrite store_le_out by lia.
    rewrite Z.eqb_refl.
    rewrite Nat2Z.inj_succ, Z.pow_succ_r by lia.
    rewrite Z.rem_mul_r by lia. reflexivity.
Qed.

Lemma write_objs_below : forall w vs ram p a,
    a < p -> write_objs w ram p vs a = ram a.
Proof.
  induction vs as [|v vs IH]; intros ram p a Ha; [reflexivity|].
  cbn [write_objs]. rewrite IH by lia. apply store_le_out. lia.
Qed.

Lemma read_write_objs : forall w vs ram p i,
    (i < length vs)%nat ->
    Forall (fun v => 0 <= v < 256 ^ Z.of_nat w) vs ->
    load_le w (write_objs w ram p vs) (p + Z.of_nat w * Z.of_nat i) = nth i vs 0.
Proof.
  induction vs as [|v vs IH]; intros ram p i Hi Hvs; [inversion Hi|].
  inversion Hvs as [|? ? Hv Hvs']; subst.
  cbn [write_objs]. destruct i as [|i].
  - replace (p + Z.of_nat w * Z.of_nat 0) with p by lia.
    rewrite (load_le_ext w _ (store_le w ram p v)).
    + rewrite load_store_le. cbn [nth]. apply Z.mod_small. assumption.
    + intros a Ha. apply write_objs_below. lia.
  - cbn [nth]. cbn [length] in Hi.
    replace (p + Z.of_nat w * Z.of_nat (S i))
      with (p + Z.of_nat w + Z.of_nat w * Z.of_nat i) by lia.
    apply IH; [lia | assumption].
Qed.

Lemma memcpy_in : forall ram dst src n a,
    dst <= a < dst + n -> memcpy ram dst src n a = ram (src + (a - dst)).
Proof.
  intros ram dst src n a Ha. unfold memcpy.
  destruct (Z.leb_spec dst a); destruct (Z.ltb_spec a (dst + n)); try lia. reflexivity.
Qed.

Lemma memcpy_out : forall ram dst src n a,
    a < dst \/ dst + n <= a -> memcpy ram dst src n a = ram a.
Proof.
  intros ram dst src n a Ha. unfold memcpy.
  destruct (Z.leb_spec dst a); destruct (Z.ltb_spec a (dst + n)); try lia; reflexivity.
Qed.

Lemma memset_in : forall ram dst c n a,
    dst <= a < dst + n -> memset ram dst c n a = c mod 256.
Proof.
  intros ram dst c n a Ha. unfold memset.
  destruct (Z.leb_spec dst a); destruct (Z.ltb_spec a (dst + n)); try lia. reflexivity.
Qed.

Lemma memset_out : forall ram dst c n a,
    a < dst \/ dst + n <= a -> memset ram dst c n a = ram a.
Proof.
  intros ram dst c n a Ha. unfold memset.
  destruct (Z.leb_spec dst a); destruct (Z.ltb_spec a (dst + n)); try lia; reflexivity.
Qed.

Lemma read_bytes_ext : forall n r1 r2 p q,
    (forall k, 0 <= k < Z.of_nat n -> r1 (p + k) = r2 (q + k)) ->
    read_bytes r1 p n = read_bytes r2 q n.
Proof.
  induction n as [|n IH]; intros r1 r2 p q H; [reflexivity|].
  cbn [read_bytes]. f_equal.
  - specialize (H 0 ltac:(lia)). now rewrite !Z.add_0_r in H.
  - apply IH. intros k Hk. specialize (H (1 + k) ltac:(lia)).
    now rewrite !Z.add_assoc in H.
Qed.

(** ** Single steps

    What a successful [push] and a successful [pop] do to the descriptor and
    to the memory, written on an explicit descriptor. *)

Ltac unfold_single :=
  cbv beta iota delta
    [Uint8.fifo_uint8_push Uint8.fifo_uint8_pop
     Uint8.set_head_ptr Uint8.set_tail_ptr Uint8.set_free_size
     Uint8.buffer Uint8.head_ptr Uint8.tail_ptr Uint8.limit_ptr
     Uint8.max_size Uint8.free_size
     Uint16.fifo_uint16_push Uint16.fifo_uint16_pop Uint16.ptr_add
     Uint16.set_head_ptr Uint16.set_tail_ptr Uint16.set_free_size
     Uint16.buffer Uint16.head_ptr Uint16.tail_ptr Uint16.limit_ptr
     Uint16.max_size Uint16.free_size
     Uint32.fifo_uint32_push Uint32.fifo_uint32_pop Uint32.ptr_add
     Uint32.set_head_ptr Uint32.set_tail_ptr Uint32.set_free_size
     Uint32.buffer Uint32.head_ptr Uint32.tail_ptr Uint32.limit_ptr
     Uint32.max_size Uint32.free_size
     Common.fifo_common_push Common.fifo_common_pop
     Common.set_head_ptr Common.set_tail_ptr Common.set_free_size
     Common.buffer Common.head_ptr Common.tail_ptr Common.limit_ptr
     Common.entry_size Common.max_size Common.free_size].

Ltac single_step_tac :=
  intros; unfold_single;
  repeat match goal with
         | |- context [?a =? ?b] =>
             destruct (Z.eqb_spec a b); [exfalso; lia|]
         end;
  cbv beta iota delta [negb];
  unfold u16; rewrite Z.mod_small by lia;
  rewrite ?Z.mul_1_r;
  match goal with
  | |- context [?a <=? ?b] => destruct (a <=? b); reflexivity
  end.

Lemma uint8_push_some : forall b h t l mx fr v ram,
    0 < fr < 65536 ->
    Uint8.fifo_uint8_push (Some (Uint8.mk b h t l mx fr)) v ram =
    (0, Some (Uint8.mk b h (if l <=? t + 1 then b else t + 1) l mx (fr - 1)),
     store_le 1 ram t v).
Proof. single_step_tac. Qed.

Lemma uint8_pop_some : forall b h t l mx fr val ram,
    val <> 0 -> fr <> mx -> 0 <= fr < 65535 ->
    Uint8.fifo_uint8_pop (Some (Uint8.mk b h t l mx fr)) val ram =
    (0, Some (Uint8.mk b (if l <=? h + 1 then b else h + 1) t l mx (fr + 1)),
     store_le 1 ram val (load_le 1 ram h)).
Proof. single_step_tac. Qed.

Lemma uint16_push_some : forall b h t l mx fr v ram,
    0 < fr < 65536 ->
    Uint16.fifo_uint16_push (Some (Uint16.mk b h t l mx fr)) v ram =
    (0, Some (Uint16.mk b h (if l <=? t + 2 then b else t + 2) l mx (fr - 1)),
     store_le 2 ram t v).
Proof. single_step_tac. Qed.

Lemma uint16_pop_some : forall b h t l mx fr val ram,
    val <> 0 -> fr <> mx -> 0 <= fr < 65535 ->
    Uint16.fifo_uint16_pop (Some (Uint16.mk b h t l mx fr)) val ram =
    (0, Some (Uint16.mk b (if l <=? h + 2 then b else h + 2) t l mx (fr + 1)),
     store_le 2 ram val (load_le 2 ram h)).
Proof. single_step_tac. Qed.

Lemma uint32_push_some : forall b h t l mx fr v ram,
    0 < fr < 65536 ->
    Uint32.fifo_uint32_push (Some (Uint32.mk b h t l mx fr)) v ram =
    (0, Some (Uint32.mk b h (if l <=? t + 4 then b else t + 4) l mx (fr - 1)),
     store_le 4 ram t v).
Proof. single_step_tac. Qed.

Lemma uint32_pop_some : forall b h t l mx fr val ram,
    val <> 0 -> fr <> mx -> 0 <= fr < 65535 ->
    Uint32.fifo_uint32_pop (Some (Uint32.mk b h t l mx fr)) val ram =
    (0, Some (Uint32.mk b (if l <=? h + 4 then b else h + 4) t l mx (fr + 1)),
     store_le 4 ram val (load_le 4 ram h)).
Proof. single_step_tac. Qed.

Lemma common_push_some : forall b h t l s mx fr val_buffer ram,
    val_buffer <> 0 -> 0 < fr < 65536 ->
    Common.fifo_common_push (Some (Common.mk b h t l s mx fr)) val_buffer ram =
    (0, Some (Common.mk b h (if l <=? t + s then b else t + s) l s mx (fr - 1)),
     memcpy ram t val_buffer s).
Proof. single_step_tac. Qed.

Lemma common_pop_some : forall b h t l s mx fr val_buffer ram,
    val_buffer <> 0 -> fr <> mx -> 0 <= fr < 65535 ->
    Common.fifo_common_pop (Some (Common.mk b h t l s mx fr)) val_buffer ram =
    (0, Some (Common.mk b (if l <=? h + s then b else h + s) t l s mx (fr + 1)),
     memcpy ram val_buffer h s).
Proof. single_step_tac. Qed.

(** A successful bulk transfer of the byte variant, on an explicit
    descriptor: one copy, or two when the run reaches the storage end. *)
Lemma uint8_push_mul_some : forall b h t l mx fr push_buffer m ram,
    push_buffer <> 0 -> 0 < m <= fr -> fr < 65536 -> t < l ->
    Uint8.fifo_uint8_push_mul (Some (Uint8.mk b h t l mx fr)) push_buffer m ram =
    (0,
     Some (Uint8.mk b h (if l <=? t + m then b + (m - (l - t)) else t + m) l mx (fr - m)),
     if l <=? t + m
     then memcpy (memcpy ram t push_buffer (l - t)) b (push_buffer + (l - t)) (m - (l - t))
     else memcpy ram t push_buffer m).
Proof.
  intros b h t l mx fr push_buffer m ram Hpb Hm Hfr Htl.
  cbv beta iota zeta delta
    [Uint8.fifo_uint8_push_mul Uint8.set_head_ptr Uint8.set_tail_ptr Uint8.set_free_size
     Uint8.buffer Uint8.head_ptr Uint8.tail_ptr Uint8.limit_ptr
     Uint8.max_size Uint8.free_size].
  destruct (Z.eqb_spec push_buffer 0); [contradiction|].
  destruct (Z.eqb_spec m 0); [lia|].
  destruct (Z.ltb_spec fr m); [lia|].
  replace (u16 (fr - m)) with (fr - m) by zlia.
  destruct (Z.leb_spec l (t + m)); cbv beta iota zeta.
  - replace (u16 (m - (l - t))) with (m - (l - t)) by zlia. reflexivity.
  - reflexivity.
Qed.

Lemma uint8_pop_mul_some : forall b h t l mx fr pop_buffer m ram,
    pop_buffer <> 0 -> 0 < m <= mx - fr -> 0 <= fr -> mx < 65536 -> h < l ->
    Uint8.fifo_uint8_pop_mul (Some (Uint8.mk b h t l mx fr)) pop_buffer m ram =
    (0,
     Some (Uint8.mk b (if l <=? h + m then b + (m - (l - h)) else h + m) t l mx (fr + m)),
     if l <=? h + m
     then memcpy (memcpy ram pop_buffer h (l - h)) (pop_buffer + (l - h)) b (m - (l - h))
     else memcpy ram pop_buffer h m).
Proof.
  intros b h t l mx fr pop_buffer m ram Hpb Hm Hfr Hmx Hhl.
  cbv beta iota zeta delta
    [Uint8.fifo_uint8_pop_mul Uint8.set_head_ptr Uint8.set_tail_ptr Uint8.set_free_size
     Uint8.buffer Uint8.head_ptr Uint8.tail_ptr Uint8.limit_ptr
     Uint8.max_size Uint8.free_size].
  destruct (Z.eqb_spec pop_buffer 0); [contradiction|].
  destruct (Z.eqb_spec m 0); [lia|].
  destruct (Z.ltb_spec (mx - fr) m); [lia|].
  replace (u16 (fr + m)) with (fr + m) by zlia.
  destruct (Z.leb_spec l (h + m)); cbv beta iota zeta.
  - replace (u16 (m - (l - h))) with (m - (l - h)) by zlia. reflexivity.
  - reflexivity.
Qed.

(** ** Full and empty buffers *)

(** C5. A push on a full buffer ([free_size = 0]) returns the buffer-full
    status and a pop on an empty buffer ([free_size = max_size]) returns the
    buffer-empty status; in both cases the descriptor (head, tail,
    free_size) and the whole memory, hence the storage, are returned as they
    were.  This holds for the four variants; the pointer arguments that the
    functions check first are taken to be non-null. *)
Theorem full_empty_boundary :
  (forall f val ram,
      Uint8.free_size f = 0 ->
      Uint8.fifo_uint8_push (Some f) val ram = (-2, Some f, ram)) /\
  (forall f val ram,
      val <> 0 -> Uint8.free_size f = Uint8.max_size f ->
      Uint8.fifo_uint8_pop (Some f) val ram = (-3, Some f, ram)) /\
  (forall f val ram,
      Uint16.free_size f = 0 ->
      Uint16.fifo_uint16_push (Some f) val ram = (-2, Some f, ram)) /\
  (forall f val ram,
      val <> 0 -> Uint16.free_size f = Uint16.max_size f ->
      Uint16.fifo_uint16_pop (Some f) val ram = (-3, Some f, ram)) /\
  (forall f val ram,
      Uint32.free_size f = 0 ->
      Uint32.fifo_uint32_push (Some f) val ram = (-2, Some f, ram)) /\
  (forall f val ram,
      val <> 0 -> Uint32.free_size f = Uint32.max_size f ->
      Uint32.fifo_uint32_pop (Some f) val ram = (-3, Some f, ram)) /\
  (forall f val_buffer ram,
      val_buffer <> 0 -> Common.free_size f = 0 ->
      Common.fifo_common_push (Some f) val_buffer ram = (-3, Some f, ram)) /\
  (forall f val_buffer ram,
      val_buffer <> 0 -> Common.free_size f = Common.max_size f ->
      Common.fifo_common_pop (Some f) val_buffer ram = (-3, Some f, ram)).
Proof.
  repeat split; intros;
    unfold Uint8.fifo_uint8_push, Uint8.fifo_uint8_pop,
           Uint16.fifo_uint16_push, Uint16.fifo_uint16_pop,
           Uint32.fifo_uint32_push, Uint32.fifo_uint32_pop,
           Common.fifo_common_push, Common.fifo_common_pop;
    repeat match goal with
           | H : ?x <> 0 |- context [?x =? 0] =>
               destruct (Z.eqb_spec x 0); [contradiction|]
           | H : ?x = ?y |- context [?x =? ?y] => rewrite (proj2 (Z.eqb_eq x y) H)
           end;
    reflexivity.
Qed.

Lemma full_empty_boundary_witness :
  Uint8.fifo_uint8_push (Some full8) 9 ram_aa = (-2, Some full8, ram_aa) /\
  Uint8.fifo_uint8_pop (Some empty8) 200 ram_aa = (-3, Some empty8, ram_aa) /\
  Common.fifo_common_push (Some full_common) 200 ram_aa = (-3, Some full_common, ram_aa) /\
  Common.fifo_common_pop (Some empty_common) 200 ram_aa = (-3, Some empty_common, ram_aa).
Proof.
  destruct full_empty_boundary as (H1 & H2 & _ & _ & _ & _ & H7 & H8).
  split; [apply H1; reflexivity|].
  split; [apply H2; [discriminate | reflexivity]|].
  split; [apply H7; [discriminate | reflexivity]|].
  apply H8; [discriminate | reflexivity].
Defined.

(** ** Argument checks of the bulk transfers *)

Ltac unfold_bulk :=
  unfold Uint8.fifo_uint8_push_mul, Uint8.fifo_uint8_pop_mul,
         Uint16.fifo_uint16_push_mul, Uint16.fifo_uint16_pop_mul,
         Uint32.fifo_uint32_push_mul, Uint32.fifo_uint32_pop_mul,
         Common.fifo_common_push_mul, Common.fifo_common_pop_mul in *.

(** A failed bulk transfer hands back the descriptor and the memory it was
    given. *)
Ltac failed_bulk_tac :=
  intros; unfold_bulk;
  match goal with
  | H : match ?fifo with Some _ => _ | None => _ end = _ |- _ => destruct fifo
  end;
  case_guards;
  match goal with
  | H : _ = (_, _, _) |- _ => inversion H; subst
  end;
  solve [ split; reflexivity | exfalso; auto ].

(** C10. Whenever [push_mul] or [pop_mul] returns a nonzero status, the
    descriptor (head, tail, free_size) and the memory (hence the storage
    contents) are exactly what they were before the call: every check is made
    before the first assignment.  This holds for the four variants. *)
Theorem bulk_error_leaves_state :
  (forall fifo push_buffer m ram rc fifo' ram',
      Uint8.fifo_uint8_push_mul fifo push_buffer m ram = (rc, fifo', ram') ->
      rc <> 0 -> fifo' = fifo /\ ram' = ram) /\
  (forall fifo pop_buffer m ram rc fifo' ram',
      Uint8.fifo_uint8_pop_mul fifo pop_buffer m ram = (rc, fifo', ram') ->
      rc <> 0 -> fifo' = fifo /\ ram' = ram) /\
  (forall fifo push_buffer m ram rc fifo' ram',
      Uint16.fifo_uint16_push_mul fifo push_buffer m ram = (rc, fifo', ram') ->
      rc <> 0 -> fifo' = fifo /\ ram' = ram) /\
  (forall fifo pop_buffer m ram rc fifo' ram',
      Uint16.fifo_uint16_pop_mul fifo pop_buffer m ram = (rc, fifo', ram') ->
      rc <> 0 -> fifo' = fifo /\ ram' = ram) /\
  (forall fifo push_buffer m ram rc fifo' ram',
      Uint32.fifo_uint32_push_mul fifo push_buffer m ram = (rc, fifo', ram') ->
      rc <> 0 -> fifo' = fifo /\ ram' = ram) /\
  (forall fifo pop_buffer m ram rc fifo' ram',
      Uint32.fifo_uint32_pop_mul fifo pop_buffer m ram = (rc, fifo', ram') ->
      rc <> 0 -> fifo' = fifo /\ ram' = ram) /\
  (forall fifo push_buffer m ram rc fifo' ram',
      Common.fifo_common_push_mul fifo push_buffer m ram = (rc, fifo', ram') ->
      rc <> 0 -> fifo' = fifo /\ ram' = ram) /\
  (forall fifo pop_buffer m ram rc fifo' ram',
      Common.fifo_common_pop_mul fifo pop_buffer m ram = (rc, fifo', ram') ->
      rc <> 0 -> fifo' = fifo /\ ram' = ram).
Proof.
  split; [failed_bulk_tac|].
  split; [failed_bulk_tac|].
  split; [failed_bulk_tac|].
  split; [failed_bulk_tac|].
  split; [failed_bulk_tac|].
  split; [failed_bulk_tac|].
  split; [failed_bulk_tac|].
  failed_bulk_tac.
Qed.

Ltac push_mul_checks_tac :=
  intros; unfold_bulk; case_guards;
  match goal with
  | H : _ = (_, _, _) |- _ => inversion H; subst; clear H
  end;
  zify_guards;
  repeat split; intros; try lia; try discriminate;
  eexists; (split; [reflexivity|]); cbn; unfold u16;
  rewrite Z.mod_small; lia.

(** C7. [push_mul] of every variant returns [-1] for a null descriptor and
    [-2] for a null source (InvalidArgument); with both non-null it returns
    [-3] (ZeroLength) exactly when [m = 0] and [-4] (InsufficientSpace)
    exactly when [m > free_size]; it succeeds in all remaining cases, and
    then the descriptor's [free_size] has been decreased by exactly [m].  In
    the embedding, as in the C text, that assignment is the first step after
    the checks, before any copy. *)
Theorem push_mul_checks :
  (forall push_buffer m ram,
      Uint8.fifo_uint8_push_mul None push_buffer m ram = (-1, None, ram)) /\
  (forall f m ram,
      Uint8.fifo_uint8_push_mul (Some f) 0 m ram = (-2, Some f, ram)) /\
  (forall f push_buffer m ram rc fifo' ram',
      push_buffer <> 0 -> 0 <= m < 65536 -> 0 <= Uint8.free_size f < 65536 ->
      Uint8.fifo_uint8_push_mul (Some f) push_buffer m ram = (rc, fifo', ram') ->
      (rc = -3 <-> m = 0) /\
      (rc = -4 <-> Uint8.free_size f < m) /\
      (rc = 0 <-> 0 < m <= Uint8.free_size f) /\
      (rc = 0 ->
       exists f', fifo' = Some f' /\ Uint8.free_size f' = Uint8.free_size f - m)) /\
  (forall push_buffer m ram,
      Uint16.fifo_uint16_push_mul None push_buffer m ram = (-1, None, ram)) /\
  (forall f m ram,
      Uint16.fifo_uint16_push_mul (Some f) 0 m ram = (-2, Some f, ram)) /\
  (forall f push_buffer m ram rc fifo' ram',
      push_buffer <> 0 -> 0 <= m < 65536 -> 0 <= Uint16.free_size f < 65536 ->
      Uint16.fifo_uint16_push_mul (Some f) push_buffer m ram = (rc, fifo', ram') ->
      (rc = -3 <-> m = 0) /\
      (rc = -4 <-> Uint16.free_size f < m) /\
      (rc = 0 <-> 0 < m <= Uint16.free_size f) /\
      (rc = 0 ->
       exists f', fifo' = Some f' /\ Uint16.free_size f' = Uint16.free_size f - m)) /\
  (forall push_buffer m ram,
      Uint32.fifo_uint32_push_mul None push_buffer m ram = (-1, None, ram)) /\
  (forall f m ram,
      Uint32.fifo_uint32_push_mul (Some f) 0 m ram = (-2, Some f, ram)) /\
  (forall f push_buffer m ram rc fifo' ram',
      push_buffer <> 0 -> 0 <= m < 65536 -> 0 <= Uint32.free_size f < 65536 ->
      Uint32.fifo_uint32_push_mul (Some f) push_buffer m ram = (rc, fifo', ram') ->
      (rc = -3 <-> m = 0) /\
      (rc = -4 <-> Uint32.free_size f < m) /\
      (rc = 0 <-> 0 < m <= Uint32.free_size f) /\
      (rc = 0 ->
       exists f', fifo' = Some f' /\ Uint32.free_size f' = Uint32.free_size f - m)) /\
  (forall push_buffer m ram,
      Common.fifo_common_push_mul None push_buffer m ram = (-1, None, ram)) /\
  (forall f m ram,
      Common.fifo_common_push_mul (Some f) 0 m ram = (-2, Some f, ram)) /\
  (forall f push_buffer m ram rc fifo' ram',
      push_buffer <> 0 -> 0 <= m < 65536 -> 0 <= Common.free_size f < 65536 ->
      Common.fifo_common_push_mul (Some f) push_buffer m ram = (rc, fifo', ram') ->
      (rc = -3 <-> m = 0) /\
      (rc = -4 <-> Common.free_size f < m) /\
      (rc = 0 <-> 0 < m <= Common.free_size f) /\
      (rc = 0 ->
       exists f', fifo' = Some f' /\ Common.free_size f' = Common.free_size f - m)).
Proof.
  repeat match goal with |- _ /\ _ => split end;
    try (intros; reflexivity); push_mul_checks_tac.
Qed.

Lemma push_mul_checks_witness :
  exists f', snd (fst (Uint16.fifo_uint16_push_mul (Some empty16) 300 3 ram_aa)) = Some f' /\
             Uint16.free_size f' = 4 - 3.
Proof.
  destruct push_mul_checks as (_ & _ & _ & _ & _ & H & _).
  destruct (Uint16.fifo_uint16_push_mul (Some empty16) 300 3 ram_aa)
    as [[rc fifo'] ram'] eqn:E.
  assert (Hrc : rc = 0) by (vm_compute in E; inversion E; reflexivity).
  destruct (H empty16 300 3 ram_aa rc fifo' ram') as (_ & _ & _ & Hf); try assumption.
  - discriminate.
  - lia.
  - cbn. lia.
  - destruct (Hf Hrc) as (f' & Hf' & Hfree). exists f'. split; assumption.
Defined.

Lemma bulk_error_leaves_state_witness :
  snd (fst (Uint16.fifo_uint16_pop_mul (Some empty16) 300 5 ram_aa)) = Some empty16 /\
  snd (Uint16.fifo_uint16_pop_mul (Some empty16) 300 5 ram_aa) = ram_aa.
Proof.
  destruct bulk_error_leaves_state as (_ & _ & _ & H & _).
  destruct (Uint16.fifo_uint16_pop_mul (Some empty16) 300 5 ram_aa)
    as [[rc fifo'] ram'] eqn:E.
  assert (Hrc : rc = -4) by (vm_compute in E; inversion E; reflexivity).
  apply (H (Some empty16) 300 5 ram_aa rc fifo' ram' E).
  rewrite Hrc. discriminate.
Defined.

(** ** The capacity-4 scenario *)

Lemma uint8_push_full : forall f val ram,
    Uint8.free_size f = 0 ->
    Uint8.fifo_uint8_push (Some f) val ram = (-2, Some f, ram).
Proof.
  intros f val ram H. unfold Uint8.fifo_uint8_push. rewrite H. reflexivity.
Qed.

Lemma store_byte_same : forall ram p v a, a = p -> store_le 1 ram p v a = v mod 256.
Proof. intros ram p v a ->. cbn [store_le]. now rewrite Z.eqb_refl. Qed.

Ltac decide_leb :=
  match goal with
  | |- context [?a <=? ?b] =>
      first [ rewrite (proj2 (Z.leb_le a b)) by lia
            | rewrite (proj2 (Z.leb_gt a b)) by lia ]
  end.

Ltac read_mem :=
  repeat first [ rewrite store_byte_same by lia
               | rewrite store_le_out by (cbn; lia)
               | rewrite memcpy_in by lia
               | rewrite memcpy_out by lia ].

(** C6. On a freshly initialised byte buffer of capacity 4: the pushes of
    1, 2, 3, 4 return 0 and a fifth push returns -2 (buffer full); a pop then
    returns 0, delivers 1 and leaves [free_size = 1]; the push of 5 returns 0
    and writes slot 0 of the storage; a bulk pop of 4 returns 0, delivers
    2, 3, 4, 5 in that order and leaves [free_size = max_size = 4]. *)
Theorem capacity4_scenario_ok :
  forall d clear_flag buf val pop_buffer ram,
    buf <> 0 -> val <> 0 -> pop_buffer <> 0 ->
    val < buf \/ buf + 4 <= val ->
    pop_buffer + 4 <= buf \/ buf + 4 <= pop_buffer ->
    capacity4_scenario d clear_flag buf val pop_buffer ram =
    ([0; 0; 0; 0; 0; -2; 0; 0; 0], 1, Some 1, 5, [2; 3; 4; 5], Some 4, Some 4).
Proof.
  intros d clear_flag buf val pop_buffer ram Hbuf Hval Hpop Hv Hp.
  unfold capacity4_scenario, Uint8.fifo_uint8_init.
  destruct (Z.eqb_spec buf 0); [contradiction|].
  change (4 =? 0) with false. cbv beta iota zeta.
  do 4 (rewrite uint8_push_some by lia; decide_leb; cbv beta iota zeta).
  rewrite uint8_push_full by reflexivity. cbv beta iota zeta.
  rewrite uint8_pop_some by lia. decide_leb. cbv beta iota zeta.
  rewrite uint8_push_some by lia. decide_leb. cbv beta iota zeta.
  rewrite uint8_pop_mul_some by lia. decide_leb. cbv beta iota zeta.
  cbn [load_le read_bytes option_map Uint8.free_size Uint8.max_size].
  read_mem. reflexivity.
Qed.

Lemma capacity4_scenario_ok_witness :
  capacity4_scenario d8 true 100 200 300 ram_aa =
  ([0; 0; 0; 0; 0; -2; 0; 0; 0], 1, Some 1, 5, [2; 3; 4; 5], Some 4, Some 4).
Proof.
  apply capacity4_scenario_ok; lia.
Defined.

(** ** FIFO order of single pushes and pops *)

Lemma slot_next : forall w b cap j,
    0 < w -> 0 <= j < cap ->
    (if b + w * cap <=? slot w b cap j + w then b else slot w b cap j + w) =
    slot w b cap (j + 1).
Proof.
  intros w b cap j Hw Hj. unfold slot.
  destruct (Z.leb_spec cap j); [lia|].
  destruct (Z.leb_spec cap (j + 1)); destruct (Z.leb_spec (b + w * cap) (b + w * j + w));
    try nia.
Qed.

Lemma slot_0 : forall w b cap, 0 < cap -> slot w b cap 0 = b.
Proof.
  intros w b cap Hcap. unfold slot.
  destruct (Z.leb_spec cap 0); [lia|]. lia.
Qed.

Section TypedOrder.
Context {F : Type} (api : fifo_api F).
Variable mkF : Z -> Z -> Z -> Z -> Z -> Z -> F.
Variable w : nat.
Hypothesis w_pos : (0 < w)%nat.

Hypothesis push_some : forall b h t l mx fr v ram,
    0 < fr < 65536 ->
    api_push api (Some (mkF b h t l mx fr)) v ram =
    (0, Some (mkF b h (if l <=? t + Z.of_nat w then b else t + Z.of_nat w) l mx (fr - 1)),
     store_le w ram t v).

Hypothesis pop_some : forall b h t l mx fr val ram,
    val <> 0 -> fr <> mx -> 0 <= fr < 65535 ->
    api_pop api (Some (mkF b h t l mx fr)) val ram =
    (0, Some (mkF b (if l <=? h + Z.of_nat w then b else h + Z.of_nat w) t l mx (fr + 1)),
     store_le w ram val (load_le w ram h)).

(** Pushing into the free slots [j], [j+1], ... up to the storage end. *)
Lemma push_each_run : forall es b h cap j fr ram,
    0 <= j -> j + Z.of_nat (length es) <= cap ->
    Z.of_nat (length es) <= fr -> fr < 65536 ->
    push_each api es
      (Some (mkF b h (slot (Z.of_nat w) b cap j) (b + Z.of_nat w * cap) cap fr)) ram =
    (map (fun _ => 0) es,
     Some (mkF b h (slot (Z.of_nat w) b cap (j + Z.of_nat (length es)))
               (b + Z.of_nat w * cap) cap (fr - Z.of_nat (length es))),
     write_objs w ram (b + Z.of_nat w * j) es).
Proof.
  unfold push_each.
  induction es as [|e es IH]; intros b h cap j fr ram Hj Hlen Hfr Hfr'.
  - cbn. rewrite Z.add_0_r, Z.sub_0_r. reflexivity.
  - cbn [length] in Hlen, Hfr. cbn [map run_calls run_call write_objs].
    rewrite push_some by lia.
    rewrite slot_next by lia.
    rewrite IH by lia.
    replace (j + 1 + Z.of_nat (length es)) with (j + Z.of_nat (length (e :: es)))
      by (cbn [length]; lia).
    replace (fr - 1 - Z.of_nat (length es)) with (fr - Z.of_nat (length (e :: es)))
      by (cbn [length]; lia).
    replace (b + Z.of_nat w * (j + 1)) with (b + Z.of_nat w * j + Z.of_nat w) by lia.
    assert (Hs : slot (Z.of_nat w) b cap j = b + Z.of_nat w * j)
      by (unfold slot; destruct (Z.leb_spec cap j); [lia | reflexivity]).
    rewrite Hs. reflexivity.
Qed.

(** Popping [k] occupied slots starting at slot [j], into a variable
    outside the storage. *)
Lemma pop_each_run : forall k es b t cap j fr val ram,
    (k <= length es)%nat ->
    0 <= j -> j + Z.of_nat k <= cap -> 0 <= fr -> fr + Z.of_nat k <= cap ->
    cap < 65536 -> val <> 0 ->
    val + Z.of_nat w <= b \/ b + Z.of_nat w * cap <= val ->
    Forall (fun e => 0 <= e < 256 ^ Z.of_nat w) es ->
    (forall i, (i < k)%nat ->
               load_le w ram (b + Z.of_nat w * (j + Z.of_nat i)) = nth i es 0) ->
    fst (fst (pop_each api (load_le w) k val
                (Some (mkF b (slot (Z.of_nat w) b cap j) t (b + Z.of_nat w * cap) cap fr))
                ram)) =
    map (fun e => (0, e)) (firstn k es).
Proof.
  induction k as [|k IH]; intros es b t cap j fr val ram Hk Hj Hjk Hfr Hfrk Hcap Hval Hout
                                 Hes Hmem; [reflexivity|].
  destruct es as [|e es]; [inversion Hk|].
  cbn [length] in Hk. inversion Hes as [|? ? He Hes']; subst.
  cbn [pop_each firstn map].
  rewrite pop_some by lia.
  rewrite slot_next by lia.
  specialize (IH es b t cap (j + 1) (fr + 1) val
                 (store_le w ram val (load_le w ram (slot (Z.of_nat w) b cap j)))).
  destruct (pop_each api (load_le w) k val _ _) as [[rs fifo'] ram'].
  cbn [fst] in *. f_equal.
  - f_equal. rewrite load_store_le.
    unfold slot. destruct (Z.leb_spec cap j); [lia|].
    specialize (Hmem O ltac:(lia)). cbn [nth] in Hmem.
    replace (b + Z.of_nat w * (j + Z.of_nat 0)) with (b + Z.of_nat w * j) in Hmem by lia.
    rewrite Hmem. apply Z.mod_small. assumption.
  - apply IH; try lia; try assumption.
    intros i Hi. specialize (Hmem (S i) ltac:(lia)). cbn [nth] in Hmem.
    replace (b + Z.of_nat w * (j + 1 + Z.of_nat i))
      with (b + Z.of_nat w * (j + Z.of_nat (S i))) by lia.
    rewrite <- Hmem. apply load_le_ext.
    intros a Ha. apply store_le_out. nia.
Qed.

(** Push [es] into an empty buffer whose head and tail are at the storage
    start, then pop [k] of them. *)
Lemma push_then_pop : forall es k b cap val ram,
    b <> 0 -> 0 < cap < 65536 -> Z.of_nat (length es) <= cap ->
    Forall (fun e => 0 <= e < 256 ^ Z.of_nat w) es ->
    (k <= length es)%nat -> val <> 0 ->
    val + Z.of_nat w <= b \/ b + Z.of_nat w * cap <= val ->
    let '(rcs, f1, ram1) :=
      push_each api es (Some (mkF b b b (b + Z.of_nat w * cap) cap cap)) ram in
    let '(pops, _, _) := pop_each api (load_le w) k val f1 ram1 in
    rcs = map (fun _ => 0) es /\ pops = map (fun e => (0, e)) (firstn k es).
Proof.
  intros es k b cap val ram Hb Hcap Hlen Hes Hk Hval Hout.
  pose proof (push_each_run es b b cap 0 cap ram ltac:(lia) ltac:(lia) ltac:(lia)
                ltac:(lia)) as Hpush.
  rewrite slot_0, Z.mul_0_r, Z.add_0_r, Z.add_0_l in Hpush by lia.
  rewrite Hpush.
  pose proof (pop_each_run k es b
                (slot (Z.of_nat w) b cap (Z.of_nat (length es))) cap 0
                (cap - Z.of_nat (length es)) val
                (write_objs w ram b es)) as Hpop.
  rewrite slot_0 in Hpop by lia.
  destruct (pop_each api (load_le w) k val _ _) as [[pops fifo'] ram'].
  cbn [fst] in Hpop. split; [reflexivity|].
  apply Hpop; try lia; try assumption.
  intros i Hi. rewrite Z.add_0_l. apply read_write_objs; [lia | assumption].
Qed.
End TypedOrder.

Lemma copy_blocks_below : forall s srcs ram p a,
    0 <= s -> a < p -> copy_blocks s ram p srcs a = ram a.
Proof.
  induction srcs as [|src srcs IH]; intros ram p a Hs Ha; [reflexivity|].
  cbn [copy_blocks]. rewrite IH by lia. apply memcpy_out. lia.
Qed.

Lemma read_copy_blocks : forall s srcs ram p i k,
    0 < s -> (i < length srcs)%nat -> 0 <= k < s ->
    Forall (fun src => src + s <= p \/ p + s * Z.of_nat (length srcs) <= src) srcs ->
    copy_blocks s ram p srcs (p + s * Z.of_nat i + k) = ram (nth i srcs 0 + k).
Proof.
  induction srcs as [|src srcs IH]; intros ram p i k Hs Hi Hk Hsrcs; [inversion Hi|].
  inversion Hsrcs as [|? ? Hsrc Hsrcs']; subst.
  cbn [length] in *. cbn [copy_blocks]. destruct i as [|i].
  - rewrite copy_blocks_below by lia.
    rewrite memcpy_in by lia. cbn [nth]. f_equal. lia.
  - cbn [nth].
    replace (p + s * Z.of_nat (S i) + k) with (p + s + s * Z.of_nat i + k) by lia.
    rewrite IH; try lia.
    + apply memcpy_out.
      rewrite Forall_forall in Hsrcs'.
      assert (Hin : In (nth i srcs 0) srcs) by (apply nth_In; lia).
      specialize (Hsrcs' _ Hin). cbn beta in Hsrcs'. nia.
    + eapply Forall_impl; [|exact Hsrcs']. cbn beta. intros a Ha. nia.
Qed.

(** The common variant: pushes into the free slots [j], [j+1], ... *)
Lemma common_push_each_run : forall srcs b h cap s j fr ram,
    0 < s -> Forall (fun src => src <> 0) srcs ->
    0 <= j -> j + Z.of_nat (length srcs) <= cap ->
    Z.of_nat (length srcs) <= fr -> fr < 65536 ->
    push_each common_api srcs
      (Some (Common.mk b h (slot s b cap j) (b + s * cap) s cap fr)) ram =
    (map (fun _ => 0) srcs,
     Some (Common.mk b h (slot s b cap (j + Z.of_nat (length srcs)))
                     (b + s * cap) s cap (fr - Z.of_nat (length srcs))),
     copy_blocks s ram (b + s * j) srcs).
Proof.
  unfold push_each.
  induction srcs as [|src srcs IH]; intros b h cap s j fr ram Hs Hnz Hj Hlen Hfr Hfr'.
  - cbn. rewrite Z.add_0_r, Z.sub_0_r. reflexivity.
  - cbn [length] in Hlen, Hfr. inversion Hnz as [|? ? Hsrc Hnz']; subst.
    cbn [map run_calls run_call copy_blocks common_api api_push].
    rewrite common_push_some by lia.
    rewrite slot_next by lia.
    rewrite IH by (try assumption; lia).
    replace (j + 1 + Z.of_nat (length srcs)) with (j + Z.of_nat (length (src :: srcs)))
      by (cbn [length]; lia).
    replace (fr - 1 - Z.of_nat (length srcs)) with (fr - Z.of_nat (length (src :: srcs)))
      by (cbn [length]; lia).
    replace (b + s * (j + 1)) with (b + s * j + s) by lia.
    assert (Hsl : slot s b cap j = b + s * j)
      by (unfold slot; destruct (Z.leb_spec cap j); [lia | reflexivity]).
    rewrite Hsl. reflexivity.
Qed.

(** The common variant: [k] pops starting at slot [j]. *)
Lemma common_pop_each_run : forall k (es : list (list Z)) b t cap s j fr val ram,
    0 < s -> (k <= length es)%nat ->
    0 <= j -> j + Z.of_nat k <= cap -> 0 <= fr -> fr + Z.of_nat k <= cap ->
    cap < 65536 -> val <> 0 ->
    val + s <= b \/ b + s * cap <= val ->
    (forall i, (i < k)%nat ->
               read_entry s ram (b + s * (j + Z.of_nat i)) = nth i es []) ->
    fst (fst (pop_each common_api (read_entry s) k val
                (Some (Common.mk b (slot s b cap j) t (b + s * cap) s cap fr)) ram)) =
    map (fun e => (0, e)) (firstn k es).
Proof.
  induction k as [|k IH]; intros es b t cap s j fr val ram Hs Hk Hj Hjk Hfr Hfrk Hcap Hval
                                 Hout Hmem; [reflexivity|].
  destruct es as [|e es]; [inversion Hk|].
  cbn [length] in Hk.
  cbn [pop_each firstn map common_api api_pop].
  rewrite common_pop_some by lia.
  rewrite slot_next by lia.
  specialize (IH es b t cap s (j + 1) (fr + 1) val
                 (memcpy ram val (slot s b cap j) s)).
  destruct (pop_each common_api (read_entry s) k val _ _) as [[rs fifo'] ram'].
  cbn [fst] in *. f_equal.
  - f_equal. specialize (Hmem O ltac:(lia)). cbn [nth] in Hmem. rewrite <- Hmem.
    unfold read_entry. apply read_bytes_ext. intros i Hi.
    rewrite memcpy_in by lia.
    unfold slot. destruct (Z.leb_spec cap j); [lia|]. f_equal. lia.
  - apply IH; try lia.
    intros i Hi. specialize (Hmem (S i) ltac:(lia)). cbn [nth] in Hmem.
    rewrite <- Hmem. unfold read_entry.
    replace (b + s * (j + 1 + Z.of_nat i)) with (b + s * (j + Z.of_nat (S i))) by lia.
    apply read_bytes_ext. intros a Ha. apply memcpy_out. nia.
Qed.

Ltac order_finish Hrun :=
  match type of Hrun with
  | context [push_each ?api ?es ?f ?r] =>
      destruct (push_each api es f r) as [[rcs f1] ram1]
  end;
  match type of Hrun with
  | context [pop_each ?api ?rd ?k ?val ?f ?r] =>
      destruct (pop_each api rd k val f r) as [[pops ?] ?]
  end;
  destruct Hrun as [Hrcs Hpops]; repeat split; assumption.

(** C4. FIFO order.  A buffer is initialised with capacity [cap] (with or
    without clearing), the [n <= cap] elements [es] are pushed one by one and
    then [k <= n] elements are popped one by one into a variable outside the
    storage: the initialisation and every push return 0, every pop returns 0,
    and the popped values are the first [k] elements of [es] in order.  For
    the common variant the elements are the entries found at the source
    addresses [srcs], which lie outside the storage, and the storage size in
    bytes [s * cap] stays below 2^31, the range in which the product that the
    initialisation computes in [int] is defined.  Proved for the four
    variants. *)
Theorem fifo_order :
  (forall d buf cap clear_flag ram es k val,
      buf <> 0 -> 0 < cap < 65536 -> Z.of_nat (length es) <= cap ->
      Forall (fun e => 0 <= e < 256) es ->
      (k <= length es)%nat -> val <> 0 ->
      val + 1 <= buf \/ buf + 1 * cap <= val ->
      let '(r0, f0, ram0) := Uint8.fifo_uint8_init (Some d) buf cap clear_flag ram in
      let '(rcs, f1, ram1) := push_each uint8_api es f0 ram0 in
      let '(pops, _, _) := pop_each uint8_api (load_le 1) k val f1 ram1 in
      r0 = 0 /\ rcs = map (fun _ => 0) es /\
      pops = map (fun e => (0, e)) (firstn k es)) /\
  (forall d buf cap clear_flag ram es k val,
      buf <> 0 -> 0 < cap < 65536 -> Z.of_nat (length es) <= cap ->
      Forall (fun e => 0 <= e < 65536) es ->
      (k <= length es)%nat -> val <> 0 ->
      val + 2 <= buf \/ buf + 2 * cap <= val ->
      let '(r0, f0, ram0) := Uint16.fifo_uint16_init (Some d) buf cap clear_flag ram in
      let '(rcs, f1, ram1) := push_each uint16_api es f0 ram0 in
      let '(pops, _, _) := pop_each uint16_api (load_le 2) k val f1 ram1 in
      r0 = 0 /\ rcs = map (fun _ => 0) es /\
      pops = map (fun e => (0, e)) (firstn k es)) /\
  (forall d buf cap clear_flag ram es k val,
      buf <> 0 -> 0 < cap < 65536 -> Z.of_nat (length es) <= cap ->
      Forall (fun e => 0 <= e < 4294967296) es ->
      (k <= length es)%nat -> val <> 0 ->
      val + 4 <= buf \/ buf + 4 * cap <= val ->
      let '(r0, f0, ram0) := Uint32.fifo_uint32_init (Some d) buf cap clear_flag ram in
      let '(rcs, f1, ram1) := push_each uint32_api es f0 ram0 in
      let '(pops, _, _) := pop_each uint32_api (load_le 4) k val f1 ram1 in
      r0 = 0 /\ rcs = map (fun _ => 0) es /\
      pops = map (fun e => (0, e)) (firstn k es)) /\
  (forall d buf cap s clear_flag ram srcs k val,
      buf <> 0 -> 0 < cap < 65536 -> 0 < s < 65536 ->
      s * cap < 2147483648 ->
      Z.of_nat (length srcs) <= cap ->
      Forall (fun src => src <> 0 /\ (src + s <= buf \/ buf + s * cap <= src)) srcs ->
      (k <= length srcs)%nat -> val <> 0 ->
      val + s <= buf \/ buf + s * cap <= val ->
      let '(r0, f0, ram0) := Common.fifo_common_init (Some d) buf cap s clear_flag ram in
      let '(rcs, f1, ram1) := push_each common_api srcs f0 ram0 in
      let '(pops, _, _) := pop_each common_api (read_entry s) k val f1 ram1 in
      r0 = 0 /\ rcs = map (fun _ => 0) srcs /\
      pops = map (fun src => (0, read_entry s ram src)) (firstn k srcs)).
Proof.
  split; [|split; [|split]].
  - intros d buf cap clear_flag ram es k val Hbuf Hcap Hlen Hes Hk Hval Hout.
    unfold Uint8.fifo_uint8_init.
    destruct (Z.eqb_spec buf 0); [contradiction|].
    destruct (Z.eqb_spec cap 0); [lia|].
    pose proof (push_then_pop uint8_api Uint8.mk 1 ltac:(lia)
                  uint8_push_some uint8_pop_some es k buf cap val
                  (if clear_flag then memset ram buf 0 cap else ram)
                  Hbuf Hcap Hlen Hes Hk Hval Hout) as Hrun.
    change (Z.of_nat 1) with 1 in Hrun. rewrite Z.mul_1_l in Hrun.
    order_finish Hrun.
  - intros d buf cap clear_flag ram es k val Hbuf Hcap Hlen Hes Hk Hval Hout.
    unfold Uint16.fifo_uint16_init, Uint16.ptr_add.
    destruct (Z.eqb_spec buf 0); [contradiction|].
    destruct (Z.eqb_spec cap 0); [lia|].
    pose proof (push_then_pop uint16_api Uint16.mk 2 ltac:(lia)
                  uint16_push_some uint16_pop_some es k buf cap val
                  (if clear_flag then memset ram buf 0 cap else ram)
                  Hbuf Hcap Hlen Hes Hk Hval Hout) as Hrun.
    change (Z.of_nat 2) with 2 in Hrun.
    order_finish Hrun.
  - intros d buf cap clear_flag ram es k val Hbuf Hcap Hlen Hes Hk Hval Hout.
    unfold Uint32.fifo_uint32_init, Uint32.ptr_add.
    destruct (Z.eqb_spec buf 0); [contradiction|].
    destruct (Z.eqb_spec cap 0); [lia|].
    pose proof (push_then_pop uint32_api Uint32.mk 4 ltac:(lia)
                  uint32_push_some uint32_pop_some es k buf cap val
                  (if clear_flag then memset ram buf 0 cap else ram)
                  Hbuf Hcap Hlen Hes Hk Hval Hout) as Hrun.
    change (Z.of_nat 4) with 4 in Hrun.
    order_finish Hrun.
  - intros d buf cap s clear_flag ram srcs k val Hbuf Hcap Hs Hint Hlen Hsrcs Hk Hval Hout.
    unfold Common.fifo_common_init.
    destruct (Z.eqb_spec buf 0); [contradiction|].
    destruct (Z.eqb_spec cap 0); [lia|].
    destruct (Z.eqb_spec s 0); [lia|].
    set (ram0 := if clear_flag then memset ram buf 0 (cap * s) else ram).
    assert (Hram0 : forall a, a < buf \/ buf + s * cap <= a -> ram0 a = ram a).
    { intros a Ha. unfold ram0. destruct clear_flag; [|reflexivity].
      apply memset_out. lia. }
    pose proof (common_push_each_run srcs buf buf cap s 0 cap ram0) as Hpush.
    rewrite slot_0, Z.mul_0_r, Z.add_0_r, Z.add_0_l in Hpush by lia.
    rewrite Hpush; try lia;
      [|eapply Forall_impl; [|exact Hsrcs]; cbn beta; intros a Ha; tauto].
    pose proof (common_pop_each_run k (map (read_entry s ram) srcs) buf
                  (slot s buf cap (Z.of_nat (length srcs))) cap s 0
                  (cap - Z.of_nat (length srcs)) val
                  (copy_blocks s ram0 buf srcs)) as Hpop.
    rewrite slot_0 in Hpop by lia.
    destruct (pop_each common_api (read_entry s) k val _ _) as [[pops fifo'] ram'].
    cbn [fst] in Hpop. split; [reflexivity|]. split; [reflexivity|].
    rewrite Hpop; try lia.
    + rewrite firstn_map, map_map. reflexivity.
    + rewrite length_map. assumption.
    + intros i Hi. rewrite Z.add_0_l.
      rewrite (nth_indep _ [] (read_entry s ram 0)) by (rewrite length_map; lia).
      rewrite (map_nth (read_entry s ram)).
      assert (Hin : In (nth i srcs 0) srcs) by (apply nth_In; lia).
      rewrite Forall_forall in Hsrcs. pose proof (Hsrcs _ Hin) as [_ Hsrc].
      unfold read_entry. apply read_bytes_ext. intros a Ha.
      rewrite read_copy_blocks; try lia.
      * apply Hram0. lia.
      * apply Forall_forall. intros x Hx. destruct (Hsrcs x Hx) as [_ Hx']. nia.
Qed.

Lemma fifo_order_witness :
  (let '(r0, f0, ram0) := Uint16.fifo_uint16_init (Some d16) 100 4 true ram_aa in
   let '(rcs, f1, ram1) := push_each uint16_api [1000; 2000; 3000] f0 ram0 in
   let '(pops, _, _) := pop_each uint16_api (load_le 2) 2 200 f1 ram1 in
   r0 = 0 /\ rcs = [0; 0; 0] /\ pops = [(0, 1000); (0, 2000)]) /\
  (let ram := write_objs 3 ram_aa 300 [0x010203; 0x040506] in
   let '(r0, f0, ram0) := Common.fifo_common_init (Some d_common) 100 4 3 false ram in
   let '(rcs, f1, ram1) := push_each common_api [300; 303] f0 ram0 in
   let '(pops, _, _) := pop_each common_api (read_entry 3) 2 200 f1 ram1 in
   r0 = 0 /\ rcs = [0; 0] /\ pops = [(0, [3; 2; 1]); (0, [6; 5; 4])]).
Proof.
  destruct fifo_order as (_ & H16 & _ & Hc).
  split.
  - apply (H16 d16 100 4 true ram_aa [1000; 2000; 3000] 2%nat 200);
      try (cbn; lia).
    repeat (apply Forall_cons; [lia|]). apply Forall_nil.
  - apply (Hc d_common 100 4 3 false (write_objs 3 ram_aa 300 [0x010203; 0x040506])
              [300; 303] 2%nat 200); try (cbn; lia).
    repeat (apply Forall_cons; [lia|]). apply Forall_nil.
Defined.

(** ** Bulk push of the byte variant against single pushes *)

Lemma run_calls_app : forall {F : Type} (api : fifo_api F) cs1 cs2 fifo ram,
    run_calls api (cs1 ++ cs2) fifo ram =
    let '(rcs1, f1, ram1) := run_calls api cs1 fifo ram in
    let '(rcs2, f2, ram2) := run_calls api cs2 f1 ram1 in
    (rcs1 ++ rcs2, f2, ram2).
Proof.
  intros F api. induction cs1 as [|c cs1 IH]; intros cs2 fifo ram.
  - cbn. destruct (run_calls api cs2 fifo ram) as [[? ?] ?]. reflexivity.
  - cbn [app run_calls].
    destruct (run_call api c fifo ram) as [[rc f1] ram1].
    rewrite IH.
    destruct (run_calls api cs1 f1 ram1) as [[rcs1 f2] ram2].
    destruct (run_calls api cs2 f2 ram2) as [[rcs2 f3] ram3].
    reflexivity.
Qed.

Lemma read_bytes_app : forall n1 n2 ram p,
    read_bytes ram p (n1 + n2) =
    read_bytes ram p n1 ++ read_bytes ram (p + Z.of_nat n1) n2.
Proof.
  induction n1 as [|n1 IH]; intros n2 ram p.
  - cbn. now rewrite Z.add_0_r.
  - cbn [Nat.add read_bytes app]. rewrite IH. do 3 f_equal. lia.
Qed.

Lemma read_bytes_length : forall n ram p, length (read_bytes ram p n) = n.
Proof.
  induction n as [|n IH]; intros ram p; [reflexivity|].
  cbn [read_bytes length]. now rewrite IH.
Qed.

(** Writing the bytes found at [q] one by one is a [memcpy] from [q]. *)
Lemma write_read_bytes : forall n ram ram0 p q a,
    (forall x, 0 <= ram0 x < 256) ->
    write_objs 1 ram p (read_bytes ram0 q n) a =
    if (p <=? a) && (a <? p + Z.of_nat n) then ram0 (q + (a - p)) else ram a.
Proof.
  induction n as [|n IH]; intros ram ram0 p q a Hbytes.
  - cbn [read_bytes write_objs].
    destruct (Z.leb_spec p a); destruct (Z.ltb_spec a (p + Z.of_nat 0));
      try lia; reflexivity.
  - cbn [read_bytes write_objs]. rewrite IH by assumption.
    change (Z.of_nat 1) with 1.
    destruct (Z.leb_spec (p + 1) a); destruct (Z.ltb_spec a (p + 1 + Z.of_nat n));
      destruct (Z.leb_spec p a); destruct (Z.ltb_spec a (p + Z.of_nat (S n)));
      cbn [andb]; try lia;
      first [ f_equal; lia
            | rewrite store_byte_same by lia;
              rewrite Z.mod_small by apply Hbytes; f_equal; lia
            | apply store_le_out; lia ].
Qed.

(** Single byte pushes from slot [j], written with plain addresses. *)
Lemma uint8_push_each_run : forall es b h cap j fr ram,
    0 <= j < cap -> j + Z.of_nat (length es) <= cap ->
    Z.of_nat (length es) <= fr -> fr < 65536 ->
    push_each uint8_api es (Some (Uint8.mk b h (b + j) (b + cap) cap fr)) ram =
    (map (fun _ => 0) es,
     Some (Uint8.mk b h
             (if cap <=? j + Z.of_nat (length es) then b else b + (j + Z.of_nat (length es)))
             (b + cap) cap (fr - Z.of_nat (length es))),
     write_objs 1 ram (b + j) es).
Proof.
  intros es b h cap j fr ram Hj Hlen Hfr Hfr'.
  pose proof (push_each_run uint8_api Uint8.mk 1 ltac:(lia) uint8_push_some
                es b h cap j fr ram ltac:(lia) Hlen Hfr Hfr') as H.
  unfold slot in H. change (Z.of_nat 1) with 1 in H.
  rewrite !Z.mul_1_l in H.
  destruct (Z.leb_spec cap j); [lia|].
  exact H.
Qed.

(** Bulk split exactness for the byte variant: from any well-formed
    descriptor, [fifo_uint8_push_mul] of [m <= free_size] bytes read at
    [push_buffer] (outside the storage) returns the descriptor that [m]
    single pushes of the same bytes return, and a memory that agrees with
    theirs at every address, whether or not the run crosses the storage
    end. *)
Lemma uint8_push_mul_as_single_pushes : forall b h cap j fr push_buffer m ram,
    0 < cap < 65536 -> 0 <= j < cap -> 0 < m <= fr -> fr <= cap ->
    push_buffer <> 0 -> push_buffer + m <= b \/ b + cap <= push_buffer ->
    (forall x, 0 <= ram x < 256) ->
    let f := Some (Uint8.mk b h (b + j) (b + cap) cap fr) in
    let '(rc, f_bulk, ram_bulk) := Uint8.fifo_uint8_push_mul f push_buffer m ram in
    let '(rcs, f_single, ram_single) :=
      push_each uint8_api (read_bytes ram push_buffer (Z.to_nat m)) f ram in
    rc = 0 /\ Forall (eq 0) rcs /\ f_bulk = f_single /\
    forall a, ram_bulk a = ram_single a.
Proof.
  intros b h cap j fr push_buffer m ram Hcap Hj Hm Hfr Hpb Hsrc Hbytes f. subst f.
  rewrite uint8_push_mul_some by lia.
  assert (Hzero : forall (l : list Z), Forall (eq 0) (map (fun _ => 0) l)).
  { intros l. apply Forall_forall. intros x Hx. apply in_map_iff in Hx.
    destruct Hx as (? & ? & ?). congruence. }
  destruct (Z.leb_spec (b + cap) (b + j + m)) as [Hwrap | Hfit].
  - (* the run reaches the storage end: two copies *)
    set (n1 := Z.to_nat (cap - j)). set (n2 := Z.to_nat (m - (cap - j))).
    replace (Z.to_nat m) with (n1 + n2)%nat by lia.
    rewrite read_bytes_app. unfold push_each. rewrite map_app, run_calls_app.
    pose proof (uint8_push_each_run (read_bytes ram push_buffer n1) b h cap j fr ram) as H1.
    rewrite read_bytes_length in H1. unfold push_each in H1.
    rewrite H1 by lia. clear H1.
    destruct (Z.leb_spec cap (j + Z.of_nat n1)); [|lia].
    pose proof (uint8_push_each_run
                  (read_bytes ram (push_buffer + Z.of_nat n1) n2) b h cap 0
                  (fr - Z.of_nat n1)
                  (write_objs 1 ram (b + j) (read_bytes ram push_buffer n1))) as H2.
    rewrite read_bytes_length, Z.add_0_r in H2. unfold push_each in H2.
    rewrite H2 by lia. clear H2.
    split; [reflexivity|]. split; [rewrite <- map_app; apply Hzero|]. split.
    + do 2 f_equal; [|lia].
      destruct (Z.leb_spec cap (0 + Z.of_nat n2)); lia.
    + intros a. rewrite !write_read_bytes by assumption.
      unfold memcpy.
      repeat match goal with
             | |- context [?x <=? ?y] => destruct (Z.leb_spec x y)
             | |- context [?x <? ?y] => destruct (Z.ltb_spec x y)
             end; cbn [andb]; try lia; try (f_equal; lia).
  - (* the run fits: one copy *)
    pose proof (uint8_push_each_run (read_bytes ram push_buffer (Z.to_nat m))
                  b h cap j fr ram) as H1.
    rewrite read_bytes_length in H1. rewrite H1 by lia. clear H1.
    split; [reflexivity|]. split; [apply Hzero|]. split.
    + do 2 f_equal; [|lia].
      destruct (Z.leb_spec cap (j + Z.of_nat (Z.to_nat m))); lia.
    + intros a. rewrite write_read_bytes by assumption.
      unfold memcpy.
      repeat match goal with
             | |- context [?x <=? ?y] => destruct (Z.leb_spec x y)
             | |- context [?x <? ?y] => destruct (Z.ltb_spec x y)
             end; cbn [andb]; try lia; try (f_equal; lia).
Qed.

(** * Where the code departs from the specification *)

(** ** Bulk push across the storage end (16-bit, 32-bit and common variants) *)

(** C1 (fails on the code).  A [uint16_t] buffer of capacity 4 is empty
    with head and tail at its last slot; the array [0x1111, 0x2222] is pushed.
    Two single pushes put [0x1111] into slot 3 and [0x2222] into slot 0 and
    leave the tail at slot 1 (address 102).  [fifo_uint16_push_mul] returns 0
    as well, but copies one byte into slot 3, then both elements to slots 0
    and 1, and leaves the tail at slot 2 (address 104): the pointer
    difference [limit_ptr - tail_ptr] counts elements and is used as a byte
    count and then halved. *)
Theorem push_mul_uint16_split_differs :
  let '(_, f, ram) := last_slot16 in
  let ram := write_objs 2 ram 300 [0x1111; 0x2222] in
  let '(rc, f_bulk, ram_bulk) := Uint16.fifo_uint16_push_mul f 300 2 ram in
  let '(rcs, f_single, ram_single) := push_each uint16_api (read_objs 2 ram 300 2) f ram in
  option_map Uint16.tail_ptr f = Some 106 /\
  option_map Uint16.free_size f = Some 4 /\
  rc = 0 /\ rcs = [0; 0] /\
  read_objs 2 ram_single 100 4 = [0x2222; 2; 3; 0x1111] /\
  read_objs 2 ram_bulk 100 4 = [0x1111; 0x2222; 3; 0xAA11] /\
  option_map Uint16.tail_ptr f_single = Some 102 /\
  option_map Uint16.tail_ptr f_bulk = Some 104.
Proof. vm_compute. repeat split. Qed.

(** The common variant with 2-byte entries, in the same situation, pushing
    the first two entries of the array [0x1111, 0x2222, 0x3333]:
    [fifo_common_push_mul] multiplies the byte distance to the storage end by
    the entry size, so it copies 4 bytes where 2 are left and writes past the
    storage (bytes 108 and 109), and then stores the third entry of the
    array, which was not to be pushed, into slot 0. *)
Lemma push_mul_common_split_differs :
  let '(_, f, ram) := last_slot_common in
  let ram := write_objs 2 ram 300 [0x1111; 0x2222; 0x3333] in
  let '(rc, f_bulk, ram_bulk) := Common.fifo_common_push_mul f 300 2 ram in
  let '(rcs, f_single, ram_single) := push_each common_api [300; 302] f ram in
  rc = 0 /\ rcs = [0; 0] /\
  read_objs 2 ram_single 100 5 = [0x2222; 2; 3; 0x1111; 0xAAAA] /\
  read_objs 2 ram_bulk 100 5 = [0x3333; 2; 3; 0x1111; 0x2222].
Proof. vm_compute. repeat split. Qed.

(** ** The availability check of the bulk pop *)

(** What the byte variant checks: with valid pointers and [m > 0],
    [fifo_uint8_pop_mul] returns [-4] exactly when [m] exceeds the occupancy
    [max_size - free_size], and [0] otherwise. *)
Lemma uint8_pop_mul_checks : forall f pop_buffer m ram,
    pop_buffer <> 0 -> 0 < m ->
    let rc := fst (fst (Uint8.fifo_uint8_pop_mul (Some f) pop_buffer m ram)) in
    (rc = -4 <-> occupied_count uint8_api f < m) /\
    (rc = 0 <-> m <= occupied_count uint8_api f).
Proof.
  intros f pop_buffer m ram Hpb Hm. unfold occupied_count. cbn [uint8_api api_max_size api_free_size].
  unfold Uint8.fifo_uint8_pop_mul.
  destruct (Z.eqb_spec pop_buffer 0); [contradiction|].
  destruct (Z.eqb_spec m 0); [lia|].
  destruct (Z.ltb_spec (Uint8.max_size f - Uint8.free_size f) m).
  - cbn. split; split; intros; try lia; try discriminate.
  - cbv zeta. case_guards; cbn [fst]; split; split; intros; try lia; try discriminate.
Qed.

(** What the other variants check: [m] against [max_size], whatever the
    occupancy. *)
Lemma pop_mul_checks_max_size :
  (forall f pop_buffer m ram,
      pop_buffer <> 0 -> m <> 0 ->
      let rc := fst (fst (Uint16.fifo_uint16_pop_mul (Some f) pop_buffer m ram)) in
      (rc = -4 <-> Uint16.max_size f < m) /\ (rc = 0 <-> m <= Uint16.max_size f)) /\
  (forall f pop_buffer m ram,
      pop_buffer <> 0 -> m <> 0 ->
      let rc := fst (fst (Uint32.fifo_uint32_pop_mul (Some f) pop_buffer m ram)) in
      (rc = -4 <-> Uint32.max_size f < m) /\ (rc = 0 <-> m <= Uint32.max_size f)) /\
  (forall f pop_buffer m ram,
      pop_buffer <> 0 -> m <> 0 ->
      let rc := fst (fst (Common.fifo_common_pop_mul (Some f) pop_buffer m ram)) in
      (rc = -4 <-> Common.max_size f < m) /\ (rc = 0 <-> m <= Common.max_size f)).
Proof.
  repeat match goal with |- _ /\ _ => split end;
    intros f pop_buffer m ram Hpb Hm; unfold_bulk;
    (destruct (Z.eqb_spec pop_buffer 0); [contradiction|]);
    (destruct (Z.eqb_spec m 0); [contradiction|]);
    match goal with
    | |- context [?a <? ?b] => destruct (Z.ltb_spec a b)
    end; cbv zeta; case_guards; cbn [fst];
    split; split; intros; try lia; try discriminate.
Qed.

(** C2 (fails on the code).  A freshly initialised [uint16_t] buffer of
    capacity 4 holds no element, yet a bulk pop of one element returns 0
    instead of the insufficient-data status [-4]: [fifo_uint16_pop_mul]
    compares [m] with [max_size], not with the occupancy. *)
Theorem pop_mul_uint16_accepts_unavailable :
  let '(_, f, ram) := fresh16 in
  option_map (occupied_count uint16_api) f = Some 0 /\
  fst (fst (Uint16.fifo_uint16_pop_mul f 300 1 ram)) = 0.
Proof. vm_compute. split; reflexivity. Qed.

(** ** The capacity invariant *)

Lemma uint8_call_keeps_free_size : forall c f ram,
    call_fits c ->
    Uint8.max_size f < 65536 ->
    0 <= Uint8.free_size f <= Uint8.max_size f ->
    exists f',
      snd (fst (run_call uint8_api c (Some f) ram)) = Some f' /\
      Uint8.max_size f' = Uint8.max_size f /\
      0 <= Uint8.free_size f' <= Uint8.max_size f'.
Proof.
  intros c f ram Hc Hmax Hinv.
  destruct c as [| val | pop_buffer m | val | push_buffer m];
    cbn [call_fits] in Hc;
    cbn [run_call uint8_api api_clear api_pop api_pop_mul api_push api_push_mul];
    unfold Uint8.fifo_uint8_clear, Uint8.fifo_uint8_pop, Uint8.fifo_uint8_pop_mul,
           Uint8.fifo_uint8_push, Uint8.fifo_uint8_push_mul;
    cbv zeta; case_guards; zify_guards; cbn [fst snd];
    eexists; (split; [reflexivity|]); cbn; zlia.
Qed.

(** On the byte variant the capacity invariant [0 <= free_size <= max_size]
    holds after every sequence of calls, whatever they return. *)
Lemma uint8_free_size_invariant : forall cs f ram,
    Forall call_fits cs ->
    Uint8.max_size f < 65536 ->
    0 <= Uint8.free_size f <= Uint8.max_size f ->
    exists f',
      snd (fst (run_calls uint8_api cs (Some f) ram)) = Some f' /\
      Uint8.max_size f' = Uint8.max_size f /\
      0 <= Uint8.free_size f' <= Uint8.max_size f'.
Proof.
  induction cs as [|c cs IH]; intros f ram Hcs Hmax Hinv.
  - exists f. cbn. repeat split; lia.
  - inversion Hcs as [|? ? Hc Hcs']; subst.
    cbn [run_calls].
    destruct (uint8_call_keeps_free_size c f ram Hc Hmax Hinv) as (f1 & Hf1 & Hmax1 & Hinv1).
    destruct (run_call uint8_api c (Some f) ram) as [[rc fifo1] ram1].
    cbn [fst snd] in Hf1. subst fifo1.
    destruct (IH f1 ram1 Hcs' ltac:(lia) Hinv1) as (f' & Hf' & Hmax' & Hinv').
    destruct (run_calls uint8_api cs (Some f1) ram1) as [[rcs fifo'] ram'].
    cbn [fst snd] in *. exists f'. repeat split; try assumption; lia.
Qed.

(** C3 (fails on the code).  On a freshly initialised [uint16_t] buffer of
    capacity 4 the invariant holds; one call [pop_mul] with [m = 1] returns 0
    and leaves [free_size = 5] with [max_size = 4].  The same happens in the
    32-bit and the common variant, whose bulk pops check [m] against
    [max_size] only. *)
Theorem pop_mul_uint16_breaks_free_size_range :
  let '(_, f, ram) := fresh16 in
  free_size_in_range uint16_api f /\
  let '(rcs, f', _) := run_calls uint16_api [PopMul 300 1] f ram in
  Forall call_fits [PopMul 300 1] /\
  rcs = [0] /\
  option_map Uint16.free_size f' = Some 5 /\
  option_map Uint16.max_size f' = Some 4 /\
  ~ free_size_in_range uint16_api f'.
Proof.
  cbv beta iota zeta delta [fresh16 Uint16.fifo_uint16_init]. cbn.
  split; [lia|]. split; [repeat constructor; lia|].
  repeat split; try reflexivity. unfold u16. cbn. lia.
Qed.

(** ** Zero-filling *)

(** The byte variant and the common variant clear the whole storage. *)
Lemma clear_zero_fills_bytes_and_common :
  (forall f ram a,
      Uint8.buffer f <= a < Uint8.buffer f + Uint8.max_size f ->
      snd (Uint8.fifo_uint8_clear (Some f) ram) a = 0) /\
  (forall f ram a,
      Common.buffer f <= a < Common.buffer f + Common.max_size f * Common.entry_size f ->
      snd (Common.fifo_common_clear (Some f) ram) a = 0).
Proof.
  split; intros f ram a Ha; cbn [Uint8.fifo_uint8_clear Common.fifo_common_clear snd];
    rewrite memset_in by lia; reflexivity.
Qed.

(** What every [clear] does to the descriptor. *)
Lemma clear_resets_descriptor :
  (forall f ram,
      fst (Uint8.fifo_uint8_clear (Some f) ram) =
      (0, Some (Uint8.mk (Uint8.buffer f) (Uint8.buffer f) (Uint8.buffer f)
                         (Uint8.limit_ptr f) (Uint8.max_size f) (Uint8.max_size f)))) /\
  (forall f ram,
      fst (Uint16.fifo_uint16_clear (Some f) ram) =
      (0, Some (Uint16.mk (Uint16.buffer f) (Uint16.buffer f) (Uint16.buffer f)
                          (Uint16.limit_ptr f) (Uint16.max_size f) (Uint16.max_size f)))) /\
  (forall f ram,
      fst (Uint32.fifo_uint32_clear (Some f) ram) =
      (0, Some (Uint32.mk (Uint32.buffer f) (Uint32.buffer f) (Uint32.buffer f)
                          (Uint32.limit_ptr f) (Uint32.max_size f) (Uint32.max_size f)))) /\
  (forall f ram,
      fst (Common.fifo_common_clear (Some f) ram) =
      (0, Some (Common.mk (Common.buffer f) (Common.buffer f) (Common.buffer f)
                          (Common.limit_ptr f) (Common.entry_size f)
                          (Common.max_size f) (Common.max_size f)))).
Proof. repeat split. Qed.

(** The 16-bit and 32-bit variants pass the element count [max_size] to
    [memset] as the byte count: the bytes from [buffer + max_size] on keep
    their values. *)
Lemma clear_typed_leaves_tail_bytes :
  (forall f ram a,
      Uint16.buffer f + Uint16.max_size f <= a ->
      snd (Uint16.fifo_uint16_clear (Some f) ram) a = ram a) /\
  (forall f ram a,
      Uint32.buffer f + Uint32.max_size f <= a ->
      snd (Uint32.fifo_uint32_clear (Some f) ram) a = ram a).
Proof.
  split; intros f ram a Ha; cbn [Uint16.fifo_uint16_clear Uint32.fifo_uint32_clear snd];
    rewrite memset_out by lia; reflexivity.
Qed.

(** C8 (fails on the code).  A [uint16_t] buffer of capacity 4 (8 bytes of
    storage at 100 .. 107) in a memory filled with [0xAA]: [clear] returns 0
    and resets head, tail and [free_size], but zeroes only the first 4 bytes
    of the storage. *)
Theorem clear_uint16_zeroes_half_the_storage :
  let '(_, f, ram) := Uint16.fifo_uint16_init (Some d16) 100 4 false ram_aa in
  let '(rc, f', ram') := Uint16.fifo_uint16_clear f ram in
  rc = 0 /\
  f' = Some (Uint16.mk 100 100 100 108 4 4) /\
  read_bytes ram' 100 8 = [0; 0; 0; 0; 170; 170; 170; 170].
Proof. vm_compute. repeat split. Qed.

(** ** Initialisation *)

(** The checks of every [init], in the order of the C text, and what a
    successful call assigns: head and tail at the storage start, [free_size]
    and [max_size] equal to the capacity, the limit one past the last slot,
    and the [memset] it runs when the clear flag is set. *)
Lemma init_checks :
  (forall buf size clear_flag ram,
      Uint8.fifo_uint8_init None buf size clear_flag ram = (-1, None, ram)) /\
  (forall d size clear_flag ram,
      Uint8.fifo_uint8_init (Some d) 0 size clear_flag ram = (-2, Some d, ram)) /\
  (forall d buf clear_flag ram,
      buf <> 0 ->
      Uint8.fifo_uint8_init (Some d) buf 0 clear_flag ram = (-3, Some d, ram)) /\
  (forall d buf size clear_flag ram,
      buf <> 0 -> size <> 0 ->
      Uint8.fifo_uint8_init (Some d) buf size clear_flag ram =
      (0, Some (Uint8.mk buf buf buf (buf + size) size size),
       if clear_flag then memset ram buf 0 size else ram)) /\
  (forall buf size clear_flag ram,
      Uint16.fifo_uint16_init None buf size clear_flag ram = (-1, None, ram)) /\
  (forall d size clear_flag ram,
      Uint16.fifo_uint16_init (Some d) 0 size clear_flag ram = (-2, Some d, ram)) /\
  (forall d buf clear_flag ram,
      buf <> 0 ->
      Uint16.fifo_uint16_init (Some d) buf 0 clear_flag ram = (-3, Some d, ram)) /\
  (forall d buf size clear_flag ram,
      buf <> 0 -> size <> 0 ->
      Uint16.fifo_uint16_init (Some d) buf size clear_flag ram =
      (0, Some (Uint16.mk buf buf buf (buf + 2 * size) size size),
       if clear_flag then memset ram buf 0 size else ram)) /\
  (forall buf size clear_flag ram,
      Uint32.fifo_uint32_init None buf size clear_flag ram = (-1, None, ram)) /\
  (forall d size clear_flag ram,
      Uint32.fifo_uint32_init (Some d) 0 size clear_flag ram = (-2, Some d, ram)) /\
  (forall d buf clear_flag ram,
      buf <> 0 ->
      Uint32.fifo_uint32_init (Some d) buf 0 clear_flag ram = (-3, Some d, ram)) /\
  (forall d buf size clear_flag ram,
      buf <> 0 -> size <> 0 ->
      Uint32.fifo_uint32_init (Some d) buf size clear_flag ram =
      (0, Some (Uint32.mk buf buf buf (buf + 4 * size) size size),
       if clear_flag then memset ram buf 0 size else ram)) /\
  (forall buf size entry_size clear_flag ram,
      Common.fifo_common_init None buf size entry_size clear_flag ram = (-1, None, ram)) /\
  (forall d size entry_size clear_flag ram,
      Common.fifo_common_init (Some d) 0 size entry_size clear_flag ram =
      (-2, Some d, ram)) /\
  (forall d buf entry_size clear_flag ram,
      buf <> 0 ->
      Common.fifo_common_init (Some d) buf 0 entry_size clear_flag ram =
      (-3, Some d, ram)) /\
  (forall d buf size clear_flag ram,
      buf <> 0 -> size <> 0 ->
      Common.fifo_common_init (Some d) buf size 0 clear_flag ram = (-4, Some d, ram)) /\
  (forall d buf size entry_size clear_flag ram,
      buf <> 0 -> size <> 0 -> entry_size <> 0 ->
      Common.fifo_common_init (Some d) buf size entry_size clear_flag ram =
      (0, Some (Common.mk buf buf buf (buf + entry_size * size) entry_size size size),
       if clear_flag then memset ram buf 0 (size * entry_size) else ram)).
Proof.
  repeat match goal with |- _ /\ _ => split end;
    intros;
    unfold Uint8.fifo_uint8_init, Uint16.fifo_uint16_init, Uint32.fifo_uint32_init,
           Common.fifo_common_init, Uint16.ptr_add, Uint32.ptr_add;
    repeat match goal with
           | H : ?x <> 0 |- context [?x =? 0] =>
               destruct (Z.eqb_spec x 0); [contradiction|]
           end;
    reflexivity.
Qed.

(** With the clear flag, the byte variant and the common variant zero the
    whole storage. *)
Lemma init_zero_fills_bytes_and_common :
  (forall d buf size ram a,
      buf <> 0 -> size <> 0 -> buf <= a < buf + size ->
      snd (Uint8.fifo_uint8_init (Some d) buf size true ram) a = 0) /\
  (forall d buf size entry_size ram a,
      buf <> 0 -> size <> 0 -> entry_size <> 0 ->
      buf <= a < buf + size * entry_size ->
      snd (Common.fifo_common_init (Some d) buf size entry_size true ram) a = 0).
Proof.
  destruct init_checks as (_ & _ & _ & H8 & _ & _ & _ & _ & _ & _ & _ & _ & _ & _ & _ & _ & Hc).
  split; intros.
  - rewrite H8 by assumption. cbn [snd]. rewrite memset_in by lia. reflexivity.
  - rewrite Hc by assumption. cbn [snd]. rewrite memset_in by lia. reflexivity.
Qed.

(** C9 (fails on the code).  [fifo_uint16_init] with the clear flag, capacity
    4 at address 100, in a memory filled with [0xAA]: the call returns 0 and
    sets head = tail = 100, limit = 108 and [free_size = max_size = 4], but
    only the first 4 of the 8 storage bytes are zeroed: [memset] is given the
    element count as the byte count. *)
Theorem init_uint16_zeroes_half_the_storage :
  let '(rc, f, ram) := Uint16.fifo_uint16_init (Some d16) 100 4 true ram_aa in
  rc = 0 /\
  f = Some (Uint16.mk 100 100 100 108 4 4) /\
  read_bytes ram 100 8 = [0; 0; 0; 0; 170; 170; 170; 170].
Proof. vm_compute. repeat split. Qed.

(** * The buffers as bounded queues *)

Lemma wrap_range : forall cap x, 0 <= x < 2 * cap -> 0 < cap -> 0 <= wrap cap x < cap.
Proof. intros cap x Hx Hcap. unfold wrap. destruct (Z.leb_spec cap x); lia. Qed.

Lemma next_slot : forall w b cap x,
    0 < w -> 0 <= x < cap ->
    (if b + w * cap <=? b + w * x + w then b else b + w * x + w) =
    b + w * wrap cap (x + 1).
Proof.
  intros w b cap x Hw Hx. unfold wrap.
  destruct (Z.leb_spec (b + w * cap) (b + w * x + w));
    destruct (Z.leb_spec cap (x + 1)); nia.
Qed.

Lemma other_slot : forall w b x y a,
    0 < w -> x <> y -> b + w * y <= a < b + w * y + w ->
    a < b + w * x \/ b + w * x + w <= a.
Proof. intros w b x y a Hw Hxy Ha. nia. Qed.

Section Queue.
Context {F A : Type} (api : fifo_api F).
Variable mkF : Z -> Z -> Z -> Z -> Z -> Z -> F.
Variable w : Z.
Variable read : mem -> Z -> A.
Variable put : mem -> Z -> Z -> mem.
Variable out : mem -> Z -> Z -> mem.
Variable elem : mem -> Z -> A.
Variable arg_ok : Z -> Prop.
Variable mem_ok : mem -> Prop.

Hypothesis w_pos : 0 < w.

Hypothesis push_some : forall b h t l mx fr x ram,
    arg_ok x -> 0 < fr < 65536 ->
    api_push api (Some (mkF b h t l mx fr)) x ram =
    (0, Some (mkF b h (if l <=? t + w then b else t + w) l mx (fr - 1)), put ram t x).

Hypothesis pop_some : forall b h t l mx fr val ram,
    val <> 0 -> fr <> mx -> 0 <= fr < 65535 ->
    api_pop api (Some (mkF b h t l mx fr)) val ram =
    (0, Some (mkF b (if l <=? h + w then b else h + w) t l mx (fr + 1)), out ram val h).

Hypothesis put_frame : forall ram t x a,
    a < t \/ t + w <= a -> put ram t x a = ram a.

Hypothesis out_frame : forall ram val h a,
    a < val \/ val + w <= a -> out ram val h a = ram a.

Hypothesis read_ext : forall r1 r2 p,
    (forall a, p <= a < p + w -> r1 a = r2 a) -> read r1 p = read r2 p.

Hypothesis read_put : forall ram t x, read (put ram t x) t = elem ram x.

Hypothesis read_out : forall ram val h,
    mem_ok ram -> read (out ram val h) val = read ram h.

(** A push stores its argument behind the last element. *)
Lemma queue_push : forall b cap hi fr x ram,
    ring_ok cap hi fr -> 0 < fr -> arg_ok x ->
    exists ram',
      api_push api (Some (ring_desc mkF w b cap hi fr)) x ram =
      (0, Some (ring_desc mkF w b cap hi (fr - 1)), ram') /\
      queue read w b cap hi (fr - 1) ram' = queue read w b cap hi fr ram ++ [elem ram x] /\
      forall a, a < b \/ b + w * cap <= a -> ram' a = ram a.
Proof.
  intros b cap hi fr x ram (Hcap & Hhi & Hfr) Hfr' Hx.
  unfold ring_desc. rewrite push_some by (try assumption; lia).
  pose proof (wrap_range cap (hi + (cap - fr)) ltac:(lia) ltac:(lia)) as Ht.
  rewrite next_slot by lia.
  replace (wrap cap (wrap cap (hi + (cap - fr)) + 1)) with (wrap cap (hi + (cap - (fr - 1))))
    by (unfold wrap; repeat match goal with
                            | |- context [?p <=? ?q] => destruct (Z.leb_spec p q)
                            end; lia).
  eexists. split; [reflexivity|]. split.
  - unfold queue, ring.
    replace (Z.to_nat (cap - (fr - 1))) with (S (Z.to_nat (cap - fr))) by lia.
    rewrite seq_S, map_app. cbn [map Nat.add]. f_equal.
    + apply map_ext_in. intros i Hi. apply in_seq in Hi.
      apply read_ext. intros a Ha. apply put_frame.
      apply (other_slot w b _ (wrap cap (hi + Z.of_nat i))); try assumption.
      unfold wrap. repeat match goal with
                          | |- context [?p <=? ?q] => destruct (Z.leb_spec p q)
                          end; lia.
    + rewrite Z2Nat.id by lia. rewrite read_put. reflexivity.
  - intros a Ha. apply put_frame. nia.
Qed.

(** A pop delivers the oldest element and removes it; it writes the
    destination only. *)
Lemma queue_pop : forall b cap hi fr val ram,
    ring_ok cap hi fr -> fr < cap -> val <> 0 -> mem_ok ram ->
    val + w <= b \/ b + w * cap <= val ->
    exists ram',
      api_pop api (Some (ring_desc mkF w b cap hi fr)) val ram =
      (0, Some (ring_desc mkF w b cap (wrap cap (hi + 1)) (fr + 1)), ram') /\
      queue read w b cap hi fr ram =
      read ram' val :: queue read w b cap (wrap cap (hi + 1)) (fr + 1) ram' /\
      forall a, a < val \/ val + w <= a -> ram' a = ram a.
Proof.
  intros b cap hi fr val ram (Hcap & Hhi & Hfr) Hfr' Hval Hmem Hout.
  unfold ring_desc. rewrite pop_some by lia.
  rewrite next_slot by lia.
  replace (wrap cap (hi + (cap - fr)))
    with (wrap cap (wrap cap (hi + 1) + (cap - (fr + 1))))
    by (unfold wrap; repeat match goal with
                            | |- context [?p <=? ?q] => destruct (Z.leb_spec p q)
                            end; lia).
  eexists. split; [reflexivity|]. split.
  - unfold queue, ring.
    replace (Z.to_nat (cap - fr)) with (S (Z.to_nat (cap - (fr + 1)))) by lia.
    cbn [seq map]. f_equal.
    + rewrite read_out by assumption. f_equal.
      unfold wrap. destruct (Z.leb_spec cap (hi + Z.of_nat 0)); lia.
    + rewrite <- seq_shift, map_map. apply map_ext_in. intros i Hi. apply in_seq in Hi.
      replace (wrap cap (hi + Z.of_nat (S i))) with (wrap cap (wrap cap (hi + 1) + Z.of_nat i))
        by (unfold wrap; repeat match goal with
                                | |- context [?p <=? ?q] => destruct (Z.leb_spec p q)
                                end; lia).
      apply read_ext. intros a Ha. symmetry. apply out_frame.
      pose proof (wrap_range cap (wrap cap (hi + 1) + Z.of_nat i)) as Hr.
      pose proof (wrap_range cap (hi + 1) ltac:(lia) ltac:(lia)).
      specialize (Hr ltac:(lia) ltac:(lia)). nia.
  - intros a Ha. apply out_frame. assumption.
Qed.

(** *** One call against the reference *)

Variable clr : mem -> Z -> Z -> mem.
Variable full : Z.
Variable elems : mem -> Z -> nat -> list A.

Hypothesis push_full : forall b h t l mx x ram,
    arg_ok x ->
    api_push api (Some (mkF b h t l mx 0)) x ram = (full, Some (mkF b h t l mx 0), ram).

Hypothesis pop_empty : forall b h t l mx val ram,
    val <> 0 ->
    api_pop api (Some (mkF b h t l mx mx)) val ram = (-3, Some (mkF b h t l mx mx), ram).

Hypothesis pop_null : forall f ram, api_pop api (Some f) 0 ram = (-2, Some f, ram).

Hypothesis clear_some : forall b h t l mx fr ram,
    api_clear api (Some (mkF b h t l mx fr)) ram = (0, Some (mkF b b b l mx mx), clr ram b mx).

Hypothesis put_ok : forall ram t x, mem_ok ram -> mem_ok (put ram t x).
Hypothesis out_ok : forall ram val h, mem_ok ram -> mem_ok (out ram val h).
Hypothesis clr_ok : forall ram b mx, mem_ok ram -> mem_ok (clr ram b mx).

Lemma queue_length : forall b cap hi fr ram,
    0 <= fr <= cap -> Z.of_nat (length (queue read w b cap hi fr ram)) = cap - fr.
Proof.
  intros b cap hi fr ram Hfr. unfold queue, ring. rewrite length_map, length_seq. lia.
Qed.

Lemma queue_empty : forall b cap hi ram, queue read w b cap hi cap ram = [].
Proof. intros. unfold queue. rewrite Z.sub_diag. reflexivity. Qed.

Lemma ring_desc_start : forall b cap,
    0 < cap -> ring_desc mkF w b cap 0 cap = mkF b b b (b + w * cap) cap cap.
Proof.
  intros b cap Hcap. unfold ring_desc, wrap.
  destruct (Z.leb_spec cap (0 + (cap - cap))); [lia|].
  replace (0 + (cap - cap)) with 0 by lia. now rewrite Z.mul_0_r, Z.add_0_r.
Qed.

Lemma refines_single_call : forall b cap c,
    single_call c -> call_valid arg_ok w b cap c ->
    refines_call api mkF w b cap full read elem elems mem_ok c.
Proof.
  intros b cap c Hsingle Hvalid hi fr ram Hok Hmem.
  pose proof Hok as (Hcap & Hhi & Hfr).
  pose proof (queue_length b cap hi fr ram Hfr) as Hlen.
  destruct c as [| val | pop_buffer m | x | push_buffer m]; try contradiction;
    cbn [run_call queue_call call_valid delivered] in *.
  - (* Clear *)
    unfold ring_desc at 1. rewrite clear_some.
    split; [reflexivity|]. split; [reflexivity|]. split; [apply clr_ok; assumption|].
    exists 0, cap. split; [unfold ring_ok; lia|]. split.
    + rewrite ring_desc_start by lia. reflexivity.
    + apply queue_empty.
  - (* Pop *)
    destruct (Z.eqb_spec val 0) as [-> | Hval].
    + rewrite pop_null. split; [reflexivity|]. split; [discriminate|].
      split; [assumption|]. exists hi, fr. auto.
    + destruct (Z.eq_dec fr cap) as [-> | Hne].
      * rewrite queue_empty.
        unfold ring_desc at 1. rewrite pop_empty by assumption.
        split; [reflexivity|]. split; [discriminate|]. split; [assumption|].
        exists hi, cap. split; [assumption|]. split; [reflexivity|].
        apply queue_empty.
      * destruct (queue_pop b cap hi fr val ram Hok ltac:(lia) Hval Hmem ltac:(lia))
          as (ram' & Hrun & Hq & Hframe).
        rewrite Hrun, Hq.
        split; [reflexivity|]. split; [reflexivity|]. split.
        { unfold ring_desc in Hrun. rewrite pop_some in Hrun by lia.
          inversion Hrun. apply out_ok. assumption. }
        exists (wrap cap (hi + 1)), (fr + 1).
        split; [|split; reflexivity].
        pose proof (wrap_range cap (hi + 1) ltac:(lia) ltac:(lia)).
        unfold ring_ok. lia.
  - (* Push *)
    destruct (Z.eqb_spec (Z.of_nat (length (queue read w b cap hi fr ram))) cap) as [He | Hne].
    + assert (fr = 0) by lia. subst fr.
      unfold ring_desc at 1. rewrite push_full by assumption.
      split; [reflexivity|]. split; [reflexivity|]. split; [assumption|].
      exists hi, 0. auto.
    + destruct (queue_push b cap hi fr x ram Hok ltac:(lia) Hvalid)
        as (ram' & Hrun & Hq & Hframe).
      rewrite Hrun.
      split; [reflexivity|]. split; [reflexivity|]. split.
      { unfold ring_desc in Hrun. rewrite push_some in Hrun by (try assumption; lia).
        inversion Hrun. apply put_ok. assumption. }
      exists hi, (fr - 1). split; [unfold ring_ok; lia|]. split; [reflexivity|].
      exact Hq.
Qed.
End Queue.

(** Calls that each agree with the reference agree with it in sequence. *)
Lemma refines_sequence :
  forall {F A : Type} (api : fifo_api F) mkF w b cap full (read : mem -> Z -> A)
         elem elems mem_ok cs,
    Forall (refines_call api mkF w b cap full read elem elems mem_ok) cs ->
    forall hi fr ram,
      ring_ok cap hi fr -> mem_ok ram ->
      refines api cap full read elem elems cs
              (Some (ring_desc mkF w b cap hi fr)) ram (queue read w b cap hi fr ram).
Proof.
  intros F A api mkF w b cap full read elem elems mem_ok cs Hcs.
  induction Hcs as [|c cs Hc Hcs IH]; intros hi fr ram Hok Hmem; [exact I|].
  cbn [refines]. specialize (Hc hi fr ram Hok Hmem).
  destruct (run_call api c (Some (ring_desc mkF w b cap hi fr)) ram) as [[rc fifo'] ram'].
  destruct (queue_call cap full elem elems c (queue read w b cap hi fr ram) ram)
    as [[rc_q q'] outs].
  destruct Hc as (Hrc & Hout & Hmem' & hi' & fr' & Hok' & -> & <-).
  split; [assumption|]. split; [assumption|].
  apply IH; assumption.
Qed.

Lemma load_le_range : forall w ram p,
    byte_mem ram -> 0 <= load_le w ram p < 256 ^ Z.of_nat w.
Proof.
  induction w as [|w IH]; intros ram p Hb.
  - cbn. lia.
  - cbn [load_le]. rewrite Nat2Z.inj_succ, Z.pow_succ_r by lia.
    specialize (IH ram (p + 1) Hb). specialize (Hb p). nia.
Qed.

Lemma store_le_byte_mem : forall w ram p v,
    byte_mem ram -> byte_mem (store_le w ram p v).
Proof.
  induction w as [|w IH]; intros ram p v Hb; [exact Hb|].
  cbn [store_le]. apply IH. intros a.
  destruct (Z.eqb_spec a p); [apply Z.mod_pos_bound; lia | apply Hb].
Qed.

Lemma memcpy_byte_mem : forall ram dst src n,
    byte_mem ram -> byte_mem (memcpy ram dst src n).
Proof.
  intros ram dst src n Hb a. unfold memcpy.
  destruct ((dst <=? a) && (a <? dst + n)); apply Hb.
Qed.

Lemma memset_byte_mem : forall ram dst c n,
    byte_mem ram -> byte_mem (memset ram dst c n).
Proof.
  intros ram dst c n Hb a. unfold memset.
  destruct ((dst <=? a) && (a <? dst + n)); [apply Z.mod_pos_bound; lia | apply Hb].
Qed.

Lemma typed_read_out : forall w ram val h,
    byte_mem ram ->
    load_le w (store_le w ram val (load_le w ram h)) val = load_le w ram h.
Proof.
  intros w ram val h Hb. rewrite load_store_le.
  apply Z.mod_small. apply load_le_range. assumption.
Qed.

Lemma entry_ext : forall s r1 r2 p,
    (forall a, p <= a < p + s -> r1 a = r2 a) -> read_entry s r1 p = read_entry s r2 p.
Proof.
  intros s r1 r2 p H. unfold read_entry. apply read_bytes_ext.
  intros k Hk. apply H. lia.
Qed.

Lemma entry_memcpy : forall s ram dst src,
    read_entry s (memcpy ram dst src s) dst = read_entry s ram src.
Proof.
  intros s ram dst src. unfold read_entry. apply read_bytes_ext.
  intros k Hk. rewrite memcpy_in by lia. f_equal. lia.
Qed.

Lemma common_mk_push_some : forall s b h t l mx fr x ram,
    x <> 0 -> 0 < fr < 65536 ->
    api_push common_api (Some (common_mk s b h t l mx fr)) x ram =
    (0, Some (common_mk s b h (if l <=? t + s then b else t + s) l mx (fr - 1)),
     memcpy ram t x s).
Proof. intros. apply common_push_some; assumption. Qed.

Lemma common_mk_pop_some : forall s b h t l mx fr val ram,
    val <> 0 -> fr <> mx -> 0 <= fr < 65535 ->
    api_pop common_api (Some (common_mk s b h t l mx fr)) val ram =
    (0, Some (common_mk s b (if l <=? h + s then b else h + s) t l mx (fr + 1)),
     memcpy ram val h s).
Proof. intros. apply common_pop_some; assumption. Qed.

(** X1. From a well-formed descriptor with a free slot, a single push
    returns 0, leaves the head where it was, takes one free slot, and the
    queue the buffer holds afterwards is the old queue followed by the pushed
    element (the value reduced to the element width; for the common variant
    the entry found at [val_buffer], a source that lies outside the storage,
    so that the copy does not overlap).  No byte outside the storage changes.
    Proved for the four variants. *)
Theorem push_appends :
  (forall b cap hi fr val ram,
      ring_ok cap hi fr -> 0 < fr ->
      exists ram',
        Uint8.fifo_uint8_push (Some (ring_desc Uint8.mk 1 b cap hi fr)) val ram =
        (0, Some (ring_desc Uint8.mk 1 b cap hi (fr - 1)), ram') /\
        queue (load_le 1) 1 b cap hi (fr - 1) ram' =
        queue (load_le 1) 1 b cap hi fr ram ++ [val mod 256] /\
        forall a, a < b \/ b + 1 * cap <= a -> ram' a = ram a) /\
  (forall b cap hi fr val ram,
      ring_ok cap hi fr -> 0 < fr ->
      exists ram',
        Uint16.fifo_uint16_push (Some (ring_desc Uint16.mk 2 b cap hi fr)) val ram =
        (0, Some (ring_desc Uint16.mk 2 b cap hi (fr - 1)), ram') /\
        queue (load_le 2) 2 b cap hi (fr - 1) ram' =
        queue (load_le 2) 2 b cap hi fr ram ++ [val mod 65536] /\
        forall a, a < b \/ b + 2 * cap <= a -> ram' a = ram a) /\
  (forall b cap hi fr val ram,
      ring_ok cap hi fr -> 0 < fr ->
      exists ram',
        Uint32.fifo_uint32_push (Some (ring_desc Uint32.mk 4 b cap hi fr)) val ram =
        (0, Some (ring_desc Uint32.mk 4 b cap hi (fr - 1)), ram') /\
        queue (load_le 4) 4 b cap hi (fr - 1) ram' =
        queue (load_le 4) 4 b cap hi fr ram ++ [val mod 4294967296] /\
        forall a, a < b \/ b + 4 * cap <= a -> ram' a = ram a) /\
  (forall s b cap hi fr val_buffer ram,
      0 < s -> ring_ok cap hi fr -> 0 < fr -> val_buffer <> 0 ->
      val_buffer + s <= b \/ b + s * cap <= val_buffer ->
      exists ram',
        Common.fifo_common_push (Some (ring_desc (common_mk s) s b cap hi fr)) val_buffer ram =
        (0, Some (ring_desc (common_mk s) s b cap hi (fr - 1)), ram') /\
        queue (read_entry s) s b cap hi (fr - 1) ram' =
        queue (read_entry s) s b cap hi fr ram ++ [read_entry s ram val_buffer] /\
        forall a, a < b \/ b + s * cap <= a -> ram' a = ram a).
Proof.
  split; [|split; [|split]].
  - intros b cap hi fr val ram Hok Hfr.
    apply (queue_push uint8_api Uint8.mk 1 (load_le 1) (store_le 1)
             (fun _ x => x mod 256) (fun _ => True)); try assumption; try lia; try exact I.
    + intros. apply uint8_push_some. assumption.
    + intros. apply store_le_out. lia.
    + intros. apply load_le_ext. assumption.
    + intros. apply (load_store_le 1).
  - intros b cap hi fr val ram Hok Hfr.
    apply (queue_push uint16_api Uint16.mk 2 (load_le 2) (store_le 2)
             (fun _ x => x mod 65536) (fun _ => True)); try assumption; try lia; try exact I.
    + intros. apply uint16_push_some. assumption.
    + intros. apply store_le_out. lia.
    + intros. apply load_le_ext. assumption.
    + intros. apply (load_store_le 2).
  - intros b cap hi fr val ram Hok Hfr.
    apply (queue_push uint32_api Uint32.mk 4 (load_le 4) (store_le 4)
             (fun _ x => x mod 4294967296) (fun _ => True)); try assumption; try lia;
      try exact I.
    + intros. apply uint32_push_some. assumption.
    + intros. apply store_le_out. lia.
    + intros. apply load_le_ext. assumption.
    + intros. apply (load_store_le 4).
  - intros s b cap hi fr val_buffer ram Hs Hok Hfr Hval Hsrc.
    apply (queue_push common_api (common_mk s) s (read_entry s)
             (fun ram t x => memcpy ram t x s)
             (fun ram x => read_entry s ram x) (fun x => x <> 0)); try assumption.
    + intros. apply common_mk_push_some; assumption.
    + intros. apply memcpy_out. assumption.
    + intros. apply entry_ext. assumption.
    + intros. apply entry_memcpy.
Qed.

(** X2. From a well-formed descriptor holding at least one element, a single
    pop into a destination outside the storage returns 0, moves the head to
    the next slot (wrapping at the storage end), gives one slot back, and
    splits the queue: the value found at the destination afterwards is the
    oldest element and the buffer holds the remaining ones.  Only the
    destination bytes change.  Proved for the four variants (the typed ones in
    a memory of bytes). *)
Theorem pop_takes_oldest :
  (forall b cap hi fr val ram,
      ring_ok cap hi fr -> fr < cap -> val <> 0 -> byte_mem ram ->
      val + 1 <= b \/ b + 1 * cap <= val ->
      exists ram',
        Uint8.fifo_uint8_pop (Some (ring_desc Uint8.mk 1 b cap hi fr)) val ram =
        (0, Some (ring_desc Uint8.mk 1 b cap (wrap cap (hi + 1)) (fr + 1)), ram') /\
        queue (load_le 1) 1 b cap hi fr ram =
        load_le 1 ram' val :: queue (load_le 1) 1 b cap (wrap cap (hi + 1)) (fr + 1) ram' /\
        forall a, a < val \/ val + 1 <= a -> ram' a = ram a) /\
  (forall b cap hi fr val ram,
      ring_ok cap hi fr -> fr < cap -> val <> 0 -> byte_mem ram ->
      val + 2 <= b \/ b + 2 * cap <= val ->
      exists ram',
        Uint16.fifo_uint16_pop (Some (ring_desc Uint16.mk 2 b cap hi fr)) val ram =
        (0, Some (ring_desc Uint16.mk 2 b cap (wrap cap (hi + 1)) (fr + 1)), ram') /\
        queue (load_le 2) 2 b cap hi fr ram =
        load_le 2 ram' val :: queue (load_le 2) 2 b cap (wrap cap (hi + 1)) (fr + 1) ram' /\
        forall a, a < val \/ val + 2 <= a -> ram' a = ram a) /\
  (forall b cap hi fr val ram,
      ring_ok cap hi fr -> fr < cap -> val <> 0 -> byte_mem ram ->
      val + 4 <= b \/ b + 4 * cap <= val ->
      exists ram',
        Uint32.fifo_uint32_pop (Some (ring_desc Uint32.mk 4 b cap hi fr)) val ram =
        (0, Some (ring_desc Uint32.mk 4 b cap (wrap cap (hi + 1)) (fr + 1)), ram') /\
        queue (load_le 4) 4 b cap hi fr ram =
        load_le 4 ram' val :: queue (load_le 4) 4 b cap (wrap cap (hi + 1)) (fr + 1) ram' /\
        forall a, a < val \/ val + 4 <= a -> ram' a = ram a) /\
  (forall s b cap hi fr val_buffer ram,
      0 < s -> ring_ok cap hi fr -> fr < cap -> val_buffer <> 0 ->
      val_buffer + s <= b \/ b + s * cap <= val_buffer ->
      exists ram',
        Common.fifo_common_pop (Some (ring_desc (common_mk s) s b cap hi fr)) val_buffer ram =
        (0, Some (ring_desc (common_mk s) s b cap (wrap cap (hi + 1)) (fr + 1)), ram') /\
        queue (read_entry s) s b cap hi fr ram =
        read_entry s ram' val_buffer ::
          queue (read_entry s) s b cap (wrap cap (hi + 1)) (fr + 1) ram' /\
        forall a, a < val_buffer \/ val_buffer + s <= a -> ram' a = ram a).
Proof.
  split; [|split; [|split]].
  - intros b cap hi fr val ram Hok Hfr Hval Hmem Hout.
    apply (queue_pop uint8_api Uint8.mk 1 (load_le 1)
             (fun ram val h => store_le 1 ram val (load_le 1 ram h)) byte_mem);
      try assumption; try lia.
    + intros. apply uint8_pop_some; assumption.
    + intros. apply store_le_out. lia.
    + intros. apply load_le_ext. assumption.
    + intros. apply typed_read_out. assumption.
  - intros b cap hi fr val ram Hok Hfr Hval Hmem Hout.
    apply (queue_pop uint16_api Uint16.mk 2 (load_le 2)
             (fun ram val h => store_le 2 ram val (load_le 2 ram h)) byte_mem);
      try assumption; try lia.
    + intros. apply uint16_pop_some; assumption.
    + intros. apply store_le_out. lia.
    + intros. apply load_le_ext. assumption.
    + intros. apply typed_read_out. assumption.
  - intros b cap hi fr val ram Hok Hfr Hval Hmem Hout.
    apply (queue_pop uint32_api Uint32.mk 4 (load_le 4)
             (fun ram val h => store_le 4 ram val (load_le 4 ram h)) byte_mem);
      try assumption; try lia.
    + intros. apply uint32_pop_some; assumption.
    + intros. apply store_le_out. lia.
    + intros. apply load_le_ext. assumption.
    + intros. apply typed_read_out. assumption.
  - intros s b cap hi fr val_buffer ram Hs Hok Hfr Hval Hout.
    apply (queue_pop common_api (common_mk s) s (read_entry s)
             (fun ram val h => memcpy ram val h s) (fun _ => True));
      try assumption; try exact I.
    + intros. apply common_mk_pop_some; assumption.
    + intros. apply memcpy_out. assumption.
    + intros. apply entry_ext. assumption.
    + intros. apply entry_memcpy.
Qed.

Lemma push_appends_witness :
  (exists ram',
      Uint16.fifo_uint16_push (Some (ring_desc Uint16.mk 2 100 4 3 2)) 0x1234 ram_aa =
      (0, Some (ring_desc Uint16.mk 2 100 4 3 1), ram') /\
      queue (load_le 2) 2 100 4 3 1 ram' =
      queue (load_le 2) 2 100 4 3 2 ram_aa ++ [0x1234 mod 65536] /\
      forall a, a < 100 \/ 100 + 2 * 4 <= a -> ram' a = ram_aa a) /\
  (exists ram',
      Common.fifo_common_push (Some (ring_desc (common_mk 3) 3 100 4 3 2)) 300 ram_aa =
      (0, Some (ring_desc (common_mk 3) 3 100 4 3 (2 - 1)), ram') /\
      queue (read_entry 3) 3 100 4 3 (2 - 1) ram' =
      queue (read_entry 3) 3 100 4 3 2 ram_aa ++ [read_entry 3 ram_aa 300] /\
      forall a, a < 100 \/ 100 + 3 * 4 <= a -> ram' a = ram_aa a).
Proof.
  destruct push_appends as (_ & H & _ & Hc).
  split.
  - apply H; [unfold ring_ok; lia | lia].
  - apply (Hc 3 100 4 3 2 300 ram_aa); [lia | unfold ring_ok; lia | lia | lia | lia].
Defined.

Lemma ram_aa_bytes : byte_mem ram_aa.
Proof. intros a. unfold ram_aa. lia. Qed.

Lemma pop_takes_oldest_witness :
  exists ram',
    Uint16.fifo_uint16_pop (Some (ring_desc Uint16.mk 2 100 4 3 2)) 200 ram_aa =
    (0, Some (ring_desc Uint16.mk 2 100 4 (wrap 4 (3 + 1)) (2 + 1)), ram') /\
    queue (load_le 2) 2 100 4 3 2 ram_aa =
    load_le 2 ram' 200 :: queue (load_le 2) 2 100 4 (wrap 4 (3 + 1)) (2 + 1) ram' /\
    forall a, a < 200 \/ 200 + 2 <= a -> ram' a = ram_aa a.
Proof.
  destruct pop_takes_oldest as (_ & H & _).
  apply H; [unfold ring_ok; lia | lia | lia | exact ram_aa_bytes | lia].
Defined.

(** ** Sequences of single calls *)

Lemma uint8_refines_single : forall elems b cap c,
    single_call c -> call_valid (fun _ => True) 1 b cap c ->
    refines_call uint8_api Uint8.mk 1 b cap (-2) (load_le 1) (fun _ x => x mod 256)
                 elems byte_mem c.
Proof.
  intros elems b cap c Hs Hv.
  apply (refines_single_call uint8_api Uint8.mk 1 (load_le 1) (store_le 1)
           (fun ram val h => store_le 1 ram val (load_le 1 ram h))
           (fun _ x => x mod 256) (fun _ => True) byte_mem ltac:(lia))
    with (clr := fun ram b mx => memset ram b 0 mx); try assumption.
  - intros. apply uint8_push_some. assumption.
  - intros. apply uint8_pop_some; assumption.
  - intros. apply store_le_out. lia.
  - intros. apply store_le_out. lia.
  - intros. apply load_le_ext. assumption.
  - intros. apply (load_store_le 1).
  - intros. apply typed_read_out. assumption.
  - intros. reflexivity.
  - intros b0 h t l mx val ram Hval. cbn [uint8_api api_pop].
    unfold Uint8.fifo_uint8_pop. cbn [Uint8.free_size Uint8.max_size].
    destruct (Z.eqb_spec val 0); [contradiction|]. now rewrite Z.eqb_refl.
  - intros. reflexivity.
  - intros. reflexivity.
  - intros. apply store_le_byte_mem. assumption.
  - intros. apply store_le_byte_mem. assumption.
  - intros. apply memset_byte_mem. assumption.
Qed.

Lemma uint16_refines_single : forall elems b cap c,
    single_call c -> call_valid (fun _ => True) 2 b cap c ->
    refines_call uint16_api Uint16.mk 2 b cap (-2) (load_le 2) (fun _ x => x mod 65536)
                 elems byte_mem c.
Proof.
  intros elems b cap c Hs Hv.
  apply (refines_single_call uint16_api Uint16.mk 2 (load_le 2) (store_le 2)
           (fun ram val h => store_le 2 ram val (load_le 2 ram h))
           (fun _ x => x mod 65536) (fun _ => True) byte_mem ltac:(lia))
    with (clr := fun ram b mx => memset ram b 0 mx); try assumption.
  - intros. apply uint16_push_some. assumption.
  - intros. apply uint16_pop_some; assumption.
  - intros. apply store_le_out. lia.
  - intros. apply store_le_out. lia.
  - intros. apply load_le_ext. assumption.
  - intros. apply (load_store_le 2).
  - intros. apply typed_read_out. assumption.
  - intros. reflexivity.
  - intros b0 h t l mx val ram Hval. cbn [uint16_api api_pop].
    unfold Uint16.fifo_uint16_pop. cbn [Uint16.free_size Uint16.max_size].
    destruct (Z.eqb_spec val 0); [contradiction|]. now rewrite Z.eqb_refl.
  - intros. reflexivity.
  - intros. reflexivity.
  - intros. apply store_le_byte_mem. assumption.
  - intros. apply store_le_byte_mem. assumption.
  - intros. apply memset_byte_mem. assumption.
Qed.

Lemma uint32_refines_single : forall elems b cap c,
    single_call c -> call_valid (fun _ => True) 4 b cap c ->
    refines_call uint32_api Uint32.mk 4 b cap (-2) (load_le 4) (fun _ x => x mod 4294967296)
                 elems byte_mem c.
Proof.
  intros elems b cap c Hs Hv.
  apply (refines_single_call uint32_api Uint32.mk 4 (load_le 4) (store_le 4)
           (fun ram val h => store_le 4 ram val (load_le 4 ram h))
           (fun _ x => x mod 4294967296) (fun _ => True) byte_mem ltac:(lia))
    with (clr := fun ram b mx => memset ram b 0 mx); try assumption.
  - intros. apply uint32_push_some. assumption.
  - intros. apply uint32_pop_some; assumption.
  - intros. apply store_le_out. lia.
  - intros. apply store_le_out. lia.
  - intros. apply load_le_ext. assumption.
  - intros. apply (load_store_le 4).
  - intros. apply typed_read_out. assumption.
  - intros. reflexivity.
  - intros b0 h t l mx val ram Hval. cbn [uint32_api api_pop].
    unfold Uint32.fifo_uint32_pop. cbn [Uint32.free_size Uint32.max_size].
    destruct (Z.eqb_spec val 0); [contradiction|]. now rewrite Z.eqb_refl.
  - intros. reflexivity.
  - intros. reflexivity.
  - intros. apply store_le_byte_mem. assumption.
  - intros. apply store_le_byte_mem. assumption.
  - intros. apply memset_byte_mem. assumption.
Qed.

Lemma common_refines_single : forall s elems b cap c,
    0 < s -> single_call c -> call_valid (fun x => x <> 0) s b cap c ->
    refines_call common_api (common_mk s) s b cap (-3) (read_entry s)
                 (fun ram x => read_entry s ram x) elems (fun _ => True) c.
Proof.
  intros s elems b cap c Hpos Hs Hv.
  apply (refines_single_call common_api (common_mk s) s (read_entry s)
           (fun ram t x => memcpy ram t x s) (fun ram val h => memcpy ram val h s)
           (fun ram x => read_entry s ram x) (fun x => x <> 0) (fun _ => True) Hpos)
    with (clr := fun ram b mx => memset ram b 0 (mx * s)); try assumption; try (intros; exact I).
  - intros. apply common_mk_push_some; assumption.
  - intros. apply common_mk_pop_some; assumption.
  - intros. apply memcpy_out. assumption.
  - intros. apply memcpy_out. assumption.
  - intros. apply entry_ext. assumption.
  - intros. apply entry_memcpy.
  - intros. apply entry_memcpy.
  - intros b0 h t l mx x ram Hx. cbn [common_api api_push].
    unfold Common.fifo_common_push, common_mk. cbn [Common.free_size].
    destruct (Z.eqb_spec x 0); [contradiction|]. reflexivity.
  - intros b0 h t l mx val ram Hval. cbn [common_api api_pop].
    unfold Common.fifo_common_pop, common_mk. cbn [Common.free_size Common.max_size].
    destruct (Z.eqb_spec val 0); [contradiction|]. now rewrite Z.eqb_refl.
  - intros. reflexivity.
  - intros. reflexivity.
Qed.

Lemma call_valid_impl : forall (P Q : Z -> Prop) w b cap c,
    (forall x, P x -> Q x) -> call_valid P w b cap c -> call_valid Q w b cap c.
Proof. intros P Q w b cap [| | | |] HPQ H; cbn in *; auto. Qed.

Lemma Forall_call_valid_source : forall s b cap cs,
    Forall (call_valid (fun x => x <> 0 /\ (x + s <= b \/ b + s * cap <= x)) s b cap) cs ->
    Forall (call_valid (fun x => x <> 0) s b cap) cs.
Proof.
  intros s b cap cs H. eapply Forall_impl; [|exact H].
  intros c Hc. eapply call_valid_impl; [|exact Hc]. cbn beta. tauto.
Qed.

Lemma Forall_refines_single :
  forall (arg_ok : Z -> Prop) (w b cap : Z) (P : call -> Prop) cs,
    (forall c, single_call c -> call_valid arg_ok w b cap c -> P c) ->
    Forall single_call cs -> Forall (call_valid arg_ok w b cap) cs -> Forall P cs.
Proof.
  intros arg_ok w b cap P cs HP Hs Hv. rewrite Forall_forall in *.
  intros c Hc. apply HP; auto.
Qed.

(** X3. After a successful initialisation, any sequence of [clear], single
    [push] and single [pop] calls behaves as the same calls on a bounded
    queue of capacity [cap] that starts empty: call by call the statuses are
    equal (0; the full status for a push on a full queue; [-2] for a pop with
    a null destination and [-3] for a pop on an empty queue), and every
    successful pop delivers the oldest element.  The pop destinations lie
    outside the storage.  For the common variant the push sources lie outside
    the storage as well, the entry size is below 65536 and the storage size in
    bytes [s * cap] is below 2^31, the range in which the product that the
    initialisation and [clear] compute in [int] is defined.  Proved for the
    four variants, in particular for the 16-bit, 32-bit and common variants as
    long as no bulk call is made. *)
Theorem single_calls_refine_queue :
  (forall d buf cap clear_flag ram cs,
      buf <> 0 -> 0 < cap < 65536 -> byte_mem ram ->
      Forall single_call cs -> Forall (call_valid (fun _ => True) 1 buf cap) cs ->
      let '(r0, f0, ram0) := Uint8.fifo_uint8_init (Some d) buf cap clear_flag ram in
      r0 = 0 /\
      refines uint8_api cap (-2) (load_le 1) (fun _ x => x mod 256)
              (fun ram p n => read_objs 1 ram p n) cs f0 ram0 []) /\
  (forall d buf cap clear_flag ram cs,
      buf <> 0 -> 0 < cap < 65536 -> byte_mem ram ->
      Forall single_call cs -> Forall (call_valid (fun _ => True) 2 buf cap) cs ->
      let '(r0, f0, ram0) := Uint16.fifo_uint16_init (Some d) buf cap clear_flag ram in
      r0 = 0 /\
      refines uint16_api cap (-2) (load_le 2) (fun _ x => x mod 65536)
              (fun ram p n => read_objs 2 ram p n) cs f0 ram0 []) /\
  (forall d buf cap clear_flag ram cs,
      buf <> 0 -> 0 < cap < 65536 -> byte_mem ram ->
      Forall single_call cs -> Forall (call_valid (fun _ => True) 4 buf cap) cs ->
      let '(r0, f0, ram0) := Uint32.fifo_uint32_init (Some d) buf cap clear_flag ram in
      r0 = 0 /\
      refines uint32_api cap (-2) (load_le 4) (fun _ x => x mod 4294967296)
              (fun ram p n => read_objs 4 ram p n) cs f0 ram0 []) /\
  (forall d buf cap s clear_flag ram cs,
      buf <> 0 -> 0 < cap < 65536 -> 0 < s < 65536 -> s * cap < 2147483648 ->
      Forall single_call cs ->
      Forall (call_valid (fun x => x <> 0 /\ (x + s <= buf \/ buf + s * cap <= x))
                s buf cap) cs ->
      let '(r0, f0, ram0) := Common.fifo_common_init (Some d) buf cap s clear_flag ram in
      r0 = 0 /\
      refines common_api cap (-3) (read_entry s) (fun ram x => read_entry s ram x)
              (fun _ _ _ => []) cs f0 ram0 []).
Proof.
  split; [|split; [|split]].
  - intros d buf cap clear_flag ram cs Hbuf Hcap Hmem Hs Hv.
    unfold Uint8.fifo_uint8_init.
    destruct (Z.eqb_spec buf 0); [contradiction|].
    destruct (Z.eqb_spec cap 0); [lia|].
    split; [reflexivity|].
    pose proof (refines_sequence uint8_api Uint8.mk 1 buf cap (-2) (load_le 1)
                  (fun _ x => x mod 256) (fun ram p n => read_objs 1 ram p n) byte_mem cs
                  (Forall_refines_single _ _ _ _ _ cs
                     (uint8_refines_single _ buf cap) Hs Hv)
                  0 cap (if clear_flag then memset ram buf 0 cap else ram)
                  ltac:(unfold ring_ok; lia)
                  ltac:(destruct clear_flag; [apply memset_byte_mem|]; assumption)) as H.
    rewrite ring_desc_start, queue_empty in H by lia.
    rewrite Z.mul_1_l in H. exact H.
  - intros d buf cap clear_flag ram cs Hbuf Hcap Hmem Hs Hv.
    unfold Uint16.fifo_uint16_init.
    destruct (Z.eqb_spec buf 0); [contradiction|].
    destruct (Z.eqb_spec cap 0); [lia|].
    split; [reflexivity|].
    pose proof (refines_sequence uint16_api Uint16.mk 2 buf cap (-2) (load_le 2)
                  (fun _ x => x mod 65536) (fun ram p n => read_objs 2 ram p n) byte_mem cs
                  (Forall_refines_single _ _ _ _ _ cs
                     (uint16_refines_single _ buf cap) Hs Hv)
                  0 cap (if clear_flag then memset ram buf 0 cap else ram)
                  ltac:(unfold ring_ok; lia)
                  ltac:(destruct clear_flag; [apply memset_byte_mem|]; assumption)) as H.
    rewrite ring_desc_start, queue_empty in H by lia.
    exact H.
  - intros d buf cap clear_flag ram cs Hbuf Hcap Hmem Hs Hv.
    unfold Uint32.fifo_uint32_init.
    destruct (Z.eqb_spec buf 0); [contradiction|].
    destruct (Z.eqb_spec cap 0); [lia|].
    split; [reflexivity|].
    pose proof (refines_sequence uint32_api Uint32.mk 4 buf cap (-2) (load_le 4)
                  (fun _ x => x mod 4294967296) (fun ram p n => read_objs 4 ram p n) byte_mem cs
                  (Forall_refines_single _ _ _ _ _ cs
                     (uint32_refines_single _ buf cap) Hs Hv)
                  0 cap (if clear_flag then memset ram buf 0 cap else ram)
                  ltac:(unfold ring_ok; lia)
                  ltac:(destruct clear_flag; [apply memset_byte_mem|]; assumption)) as H.
    rewrite ring_desc_start, queue_empty in H by lia.
    exact H.
  - intros d buf cap s clear_flag ram cs Hbuf Hcap [Hpos Hs16] Hint Hs Hv.
    apply Forall_call_valid_source in Hv.
    unfold Common.fifo_common_init.
    destruct (Z.eqb_spec buf 0); [contradiction|].
    destruct (Z.eqb_spec cap 0); [lia|].
    destruct (Z.eqb_spec s 0); [lia|].
    split; [reflexivity|].
    pose proof (refines_sequence common_api (common_mk s) s buf cap (-3) (read_entry s)
                  (fun ram x => read_entry s ram x) (fun _ _ _ => []) (fun _ => True) cs
                  (Forall_refines_single _ _ _ _ _ cs
                     (fun c => common_refines_single s _ buf cap c Hpos) Hs Hv)
                  0 cap (if clear_flag then memset ram buf 0 (cap * s) else ram)
                  ltac:(unfold ring_ok; lia) I) as H.
    rewrite ring_desc_start, queue_empty in H by lia.
    exact H.
Qed.

(** ** Bulk calls of the byte variant *)

Lemma map_seq_from : forall {A : Type} (f : nat -> A) a n,
    map f (seq a n) = map (fun i => f (a + i)%nat) (seq 0 n).
Proof.
  intros A f a n. revert a. induction n as [|n IH]; intros a; [reflexivity|].
  cbn [seq map]. rewrite Nat.add_0_r. f_equal.
  rewrite IH. rewrite <- seq_shift, map_map.
  apply map_ext. intros i. f_equal. lia.
Qed.

Lemma read_objs_map : forall w n ram p,
    read_objs w ram p n =
    map (fun i => load_le w ram (p + Z.of_nat w * Z.of_nat i)) (seq 0 n).
Proof.
  induction n as [|n IH]; intros ram p; [reflexivity|].
  cbn [read_objs seq map]. f_equal.
  - f_equal. lia.
  - rewrite IH. rewrite <- seq_shift, map_map.
    apply map_ext. intros i. f_equal. lia.
Qed.

Lemma wrap_spec : forall cap x,
    wrap cap x = x - cap /\ cap <= x \/ wrap cap x = x /\ x < cap.
Proof. intros cap x. unfold wrap. destruct (Z.leb_spec cap x); lia. Qed.

Ltac split_wrap c x :=
  let k := fresh "k" in
  pose proof (wrap_spec c x);
  set (k := wrap c x) in *; clearbody k;
  match goal with
  | H : k = _ /\ _ \/ k = _ /\ _ |- _ => destruct H as [[-> ?] | [-> ?]]
  end.

Ltac wrap_cases :=
  repeat match goal with
         | |- context [wrap ?c ?x] => split_wrap c x
         | H : context [wrap ?c ?x] |- _ => split_wrap c x
         end.

Ltac crush_wrap :=
  wrap_cases;
  unfold memcpy;
  repeat match goal with
         | |- context [?p <=? ?q] => destruct (Z.leb_spec p q)
         | |- context [?p <? ?q] => destruct (Z.ltb_spec p q)
         end;
  cbn [andb]; try lia; try (f_equal; lia).

(** A bulk push of the byte variant on the queue the descriptor denotes. *)
Lemma uint8_queue_push_mul : forall b cap hi fr push_buffer m ram,
    ring_ok cap hi fr -> 0 < m <= fr -> push_buffer <> 0 ->
    push_buffer + m <= b \/ b + cap <= push_buffer ->
    exists ram',
      Uint8.fifo_uint8_push_mul (Some (ring_desc Uint8.mk 1 b cap hi fr)) push_buffer m ram =
      (0, Some (ring_desc Uint8.mk 1 b cap hi (fr - m)), ram') /\
      queue (load_le 1) 1 b cap hi (fr - m) ram' =
      queue (load_le 1) 1 b cap hi fr ram ++ read_objs 1 ram push_buffer (Z.to_nat m) /\
      (forall a, a < b \/ b + cap <= a -> ram' a = ram a) /\
      (byte_mem ram -> byte_mem ram').
Proof.
  intros b cap hi fr pb m ram (Hcap & Hhi & Hfr) Hm Hpb Hsrc.
  pose proof (wrap_range cap (hi + (cap - fr)) ltac:(lia) ltac:(lia)) as Ht.
  unfold ring_desc. rewrite uint8_push_mul_some by lia.
  eexists. split; [|split; [|split]].
  - f_equal. f_equal. f_equal. crush_wrap.
  - unfold queue, ring.
    replace (Z.to_nat (cap - (fr - m))) with (Z.to_nat (cap - fr) + Z.to_nat m)%nat by lia.
    rewrite seq_app, map_app. f_equal.
    + apply map_ext_in. intros i Hi. apply in_seq in Hi. cbn [load_le]. f_equal.
      crush_wrap.
    + rewrite map_seq_from, read_objs_map.
      apply map_ext_in. intros i Hi. apply in_seq in Hi. cbn [load_le]. f_equal.
      crush_wrap.
  - intros a Ha. crush_wrap.
  - intros Hb.
    destruct (Z.leb_spec (b + 1 * cap) (b + 1 * wrap cap (hi + (cap - fr)) + m));
      repeat apply memcpy_byte_mem; assumption.
Qed.

Lemma firstn_seq_le : forall m a n, (m <= n)%nat -> firstn m (seq a n) = seq a m.
Proof.
  induction m as [|m IH]; intros a n Hmn; [reflexivity|].
  destruct n as [|n]; [lia|]. cbn [seq firstn]. f_equal. apply IH. lia.
Qed.

Lemma skipn_seq_le : forall m a n,
    (m <= n)%nat -> skipn m (seq a n) = seq (a + m) (n - m).
Proof.
  induction m as [|m IH]; intros a n Hmn.
  - cbn [skipn]. now rewrite Nat.add_0_r, Nat.sub_0_r.
  - destruct n as [|n]; [lia|]. cbn [seq skipn]. rewrite IH by lia.
    f_equal. lia.
Qed.

(** A bulk pop of the byte variant on the queue the descriptor denotes. *)
Lemma uint8_queue_pop_mul : forall b cap hi fr pop_buffer m ram,
    ring_ok cap hi fr -> 0 < m <= cap - fr -> pop_buffer <> 0 ->
    pop_buffer + m <= b \/ b + cap <= pop_buffer ->
    exists ram',
      Uint8.fifo_uint8_pop_mul (Some (ring_desc Uint8.mk 1 b cap hi fr)) pop_buffer m ram =
      (0, Some (ring_desc Uint8.mk 1 b cap (wrap cap (hi + m)) (fr + m)), ram') /\
      read_objs 1 ram' pop_buffer (Z.to_nat m) =
      firstn (Z.to_nat m) (queue (load_le 1) 1 b cap hi fr ram) /\
      queue (load_le 1) 1 b cap (wrap cap (hi + m)) (fr + m) ram' =
      skipn (Z.to_nat m) (queue (load_le 1) 1 b cap hi fr ram) /\
      (forall a, a < pop_buffer \/ pop_buffer + m <= a -> ram' a = ram a) /\
      (byte_mem ram -> byte_mem ram').
Proof.
  intros b cap hi fr pb m ram (Hcap & Hhi & Hfr) Hm Hpb Hdst.
  unfold ring_desc. rewrite uint8_pop_mul_some by lia.
  eexists. split; [|split; [|split; [|split]]].
  - apply f_equal2; [|reflexivity]. do 2 apply f_equal. f_equal; crush_wrap.
  - unfold queue, ring. rewrite firstn_map, firstn_seq_le by lia.
    rewrite read_objs_map.
    apply map_ext_in. intros i Hi. apply in_seq in Hi. cbn [load_le]. f_equal.
    crush_wrap.
  - unfold queue, ring. rewrite skipn_map, skipn_seq_le by lia.
    replace (Z.to_nat (cap - fr) - Z.to_nat m)%nat with (Z.to_nat (cap - (fr + m))) by lia.
    rewrite (map_seq_from _ (0 + Z.to_nat m)).
    apply map_ext_in. intros i Hi. apply in_seq in Hi. cbn [load_le]. f_equal.
    replace (Z.of_nat (0 + Z.to_nat m + i)) with (m + Z.of_nat i) by lia.
    crush_wrap.
  - intros a Ha. crush_wrap.
  - intros Hb.
    destruct (Z.leb_spec (b + 1 * cap) (b + 1 * hi + m));
      repeat apply memcpy_byte_mem; assumption.
Qed.

Lemma uint8_refines_push_mul : forall b cap push_buffer m,
    call_valid (fun _ => True) 1 b cap (PushMul push_buffer m) ->
    refines_call uint8_api Uint8.mk 1 b cap (-2) (load_le 1) (fun _ x => x mod 256)
                 (fun ram p n => read_objs 1 ram p n) byte_mem (PushMul push_buffer m).
Proof.
  intros b cap pb m (Hm & Hp) hi fr ram Hok Hmem.
  pose proof Hok as (Hcap & Hhi & Hfr).
  pose proof (queue_length 1 (load_le 1) b cap hi fr ram Hfr) as Hlen.
  cbn [run_call queue_call delivered uint8_api api_push_mul].
  rewrite Hlen.
  destruct (Z.eqb_spec pb 0) as [-> | Hpb].
  { cbn. split; [reflexivity|]. split; [discriminate|]. split; [assumption|].
    exists hi, fr. auto. }
  destruct (Z.eqb_spec m 0) as [-> | Hm0].
  { unfold Uint8.fifo_uint8_push_mul.
    destruct (Z.eqb_spec pb 0); [contradiction|]. cbn [Z.eqb].
    split; [reflexivity|]. split; [discriminate|]. split; [assumption|].
    exists hi, fr. auto. }
  destruct (Z.ltb_spec (cap - (cap - fr)) m) as [Hlt | Hge].
  { unfold Uint8.fifo_uint8_push_mul.
    destruct (Z.eqb_spec pb 0); [contradiction|].
    destruct (Z.eqb_spec m 0); [contradiction|].
    unfold ring_desc. cbn [Uint8.free_size].
    destruct (Z.ltb_spec fr m); [|lia].
    split; [reflexivity|]. split; [discriminate|]. split; [assumption|].
    exists hi, fr. split; [assumption|]. split; reflexivity. }
  destruct (uint8_queue_push_mul b cap hi fr pb m ram Hok ltac:(lia) Hpb ltac:(lia))
    as (ram' & Hrun & Hq & Hframe & Hbytes).
  rewrite Hrun.
  split; [reflexivity|]. split; [reflexivity|]. split; [auto|].
  exists hi, (fr - m). split; [unfold ring_ok; lia|]. split; [reflexivity|]. exact Hq.
Qed.

Lemma uint8_refines_pop_mul : forall b cap pop_buffer m,
    call_valid (fun _ => True) 1 b cap (PopMul pop_buffer m) ->
    refines_call uint8_api Uint8.mk 1 b cap (-2) (load_le 1) (fun _ x => x mod 256)
                 (fun ram p n => read_objs 1 ram p n) byte_mem (PopMul pop_buffer m).
Proof.
  intros b cap pb m (Hm & Hp) hi fr ram Hok Hmem.
  pose proof Hok as (Hcap & Hhi & Hfr).
  pose proof (queue_length 1 (load_le 1) b cap hi fr ram Hfr) as Hlen.
  cbn [run_call queue_call delivered uint8_api api_pop_mul].
  rewrite Hlen.
  destruct (Z.eqb_spec pb 0) as [-> | Hpb].
  { cbn. split; [reflexivity|]. split; [discriminate|]. split; [assumption|].
    exists hi, fr. auto. }
  destruct (Z.eqb_spec m 0) as [-> | Hm0].
  { unfold Uint8.fifo_uint8_pop_mul.
    destruct (Z.eqb_spec pb 0); [contradiction|]. cbn [Z.eqb].
    split; [reflexivity|]. split; [discriminate|]. split; [assumption|].
    exists hi, fr. auto. }
  destruct (Z.ltb_spec (cap - fr) m) as [Hlt | Hge].
  { unfold Uint8.fifo_uint8_pop_mul.
    destruct (Z.eqb_spec pb 0); [contradiction|].
    destruct (Z.eqb_spec m 0); [contradiction|].
    unfold ring_desc. cbn [Uint8.free_size Uint8.max_size].
    destruct (Z.ltb_spec (cap - fr) m); [|lia].
    split; [reflexivity|]. split; [discriminate|]. split; [assumption|].
    exists hi, fr. split; [assumption|]. split; reflexivity. }
  destruct (uint8_queue_pop_mul b cap hi fr pb m ram Hok ltac:(lia) Hpb ltac:(lia))
    as (ram' & Hrun & Hout & Hq & Hframe & Hbytes).
  rewrite Hrun.
  split; [reflexivity|]. split; [intros _; exact Hout|]. split; [auto|].
  exists (wrap cap (hi + m)), (fr + m).
  pose proof (wrap_range cap (hi + m) ltac:(lia) ltac:(lia)).
  split; [unfold ring_ok; lia|]. split; [reflexivity|]. exact Hq.
Qed.

Lemma uint8_refines_any : forall b cap c,
    call_valid (fun _ => True) 1 b cap c ->
    refines_call uint8_api Uint8.mk 1 b cap (-2) (load_le 1) (fun _ x => x mod 256)
                 (fun ram p n => read_objs 1 ram p n) byte_mem c.
Proof.
  intros b cap c Hv.
  destruct c as [| val | pop_buffer m | x | push_buffer m].
  - apply uint8_refines_single; [exact I | exact Hv].
  - apply uint8_refines_single; [exact I | exact Hv].
  - apply uint8_refines_pop_mul. exact Hv.
  - apply uint8_refines_single; [exact I | exact Hv].
  - apply uint8_refines_push_mul. exact Hv.
Qed.

(** X4. Bulk push of the byte variant.  From a well-formed descriptor with
    at least [m > 0] free slots, [fifo_uint8_push_mul] of the [m] bytes at
    [push_buffer] (outside the storage) returns 0, takes [m] free slots, and
    the buffer then holds the old queue followed by these [m] bytes in
    order, whether or not the copy crosses the storage end.  No byte outside
    the storage changes. *)
Theorem uint8_push_mul_appends :
  forall b cap hi fr push_buffer m ram,
    ring_ok cap hi fr -> 0 < m <= fr -> push_buffer <> 0 ->
    push_buffer + m <= b \/ b + cap <= push_buffer ->
    exists ram',
      Uint8.fifo_uint8_push_mul (Some (ring_desc Uint8.mk 1 b cap hi fr)) push_buffer m ram =
      (0, Some (ring_desc Uint8.mk 1 b cap hi (fr - m)), ram') /\
      queue (load_le 1) 1 b cap hi (fr - m) ram' =
      queue (load_le 1) 1 b cap hi fr ram ++ read_objs 1 ram push_buffer (Z.to_nat m) /\
      forall a, a < b \/ b + cap <= a -> ram' a = ram a.
Proof.
  intros b cap hi fr push_buffer m ram Hok Hm Hpb Hsrc.
  destruct (uint8_queue_push_mul b cap hi fr push_buffer m ram Hok Hm Hpb Hsrc)
    as (ram' & Hrun & Hq & Hframe & _).
  exists ram'. auto.
Qed.

Lemma uint8_push_mul_appends_witness :
  exists ram',
    Uint8.fifo_uint8_push_mul (Some (ring_desc Uint8.mk 1 100 4 3 3)) 300 3 ram_aa =
    (0, Some (ring_desc Uint8.mk 1 100 4 3 (3 - 3)), ram') /\
    queue (load_le 1) 1 100 4 3 (3 - 3) ram' =
    queue (load_le 1) 1 100 4 3 3 ram_aa ++ read_objs 1 ram_aa 300 (Z.to_nat 3) /\
    forall a, a < 100 \/ 100 + 4 <= a -> ram' a = ram_aa a.
Proof.
  apply uint8_push_mul_appends; [unfold ring_ok; lia | lia | lia | lia].
Defined.

(** X5. Bulk pop of the byte variant.  From a well-formed descriptor holding
    at least [m > 0] elements, [fifo_uint8_pop_mul] into [pop_buffer]
    (outside the storage) returns 0, advances the head by [m] slots
    (wrapping), gives [m] slots back, fills the destination with the [m]
    oldest elements in order and leaves the remaining ones in the buffer.
    Only the [m] destination bytes change. *)
Theorem uint8_pop_mul_takes_oldest :
  forall b cap hi fr pop_buffer m ram,
    ring_ok cap hi fr -> 0 < m <= cap - fr -> pop_buffer <> 0 ->
    pop_buffer + m <= b \/ b + cap <= pop_buffer ->
    exists ram',
      Uint8.fifo_uint8_pop_mul (Some (ring_desc Uint8.mk 1 b cap hi fr)) pop_buffer m ram =
      (0, Some (ring_desc Uint8.mk 1 b cap (wrap cap (hi + m)) (fr + m)), ram') /\
      read_objs 1 ram' pop_buffer (Z.to_nat m) =
      firstn (Z.to_nat m) (queue (load_le 1) 1 b cap hi fr ram) /\
      queue (load_le 1) 1 b cap (wrap cap (hi + m)) (fr + m) ram' =
      skipn (Z.to_nat m) (queue (load_le 1) 1 b cap hi fr ram) /\
      forall a, a < pop_buffer \/ pop_buffer + m <= a -> ram' a = ram a.
Proof.
  intros b cap hi fr pop_buffer m ram Hok Hm Hpb Hdst.
  destruct (uint8_queue_pop_mul b cap hi fr pop_buffer m ram Hok Hm Hpb Hdst)
    as (ram' & Hrun & Hout & Hq & Hframe & _).
  exists ram'. auto.
Qed.

Lemma uint8_pop_mul_takes_oldest_witness :
  exists ram',
    Uint8.fifo_uint8_pop_mul (Some (ring_desc Uint8.mk 1 100 4 3 1)) 300 3 ram_aa =
    (0, Some (ring_desc Uint8.mk 1 100 4 (wrap 4 (3 + 3)) (1 + 3)), ram') /\
    read_objs 1 ram' 300 (Z.to_nat 3) =
    firstn (Z.to_nat 3) (queue (load_le 1) 1 100 4 3 1 ram_aa) /\
    queue (load_le 1) 1 100 4 (wrap 4 (3 + 3)) (1 + 3) ram' =
    skipn (Z.to_nat 3) (queue (load_le 1) 1 100 4 3 1 ram_aa) /\
    forall a, a < 300 \/ 300 + 3 <= a -> ram' a = ram_aa a.
Proof.
  apply uint8_pop_mul_takes_oldest; [unfold ring_ok; lia | lia | lia | lia].
Defined.

(** X6. The byte variant as a bounded queue.  After a successful
    initialisation in a memory of bytes, any sequence of [clear], [push],
    [pop], [push_mul] and [pop_mul] calls, whatever they return, behaves as
    the same calls on a queue of at most [cap] bytes that starts empty: call
    by call the statuses are equal ([-2] for a null pointer argument, [-3]
    for a zero count or a pop on an empty queue, [-2] for a push on a full
    queue, [-4] when a bulk count exceeds the free space or the number of
    queued bytes), and every successful pop delivers the oldest bytes in
    order.  Pointer arguments are null or outside the storage. *)
Theorem uint8_calls_refine_queue :
  forall d buf cap clear_flag ram cs,
    buf <> 0 -> 0 < cap < 65536 -> byte_mem ram ->
    Forall (call_valid (fun _ => True) 1 buf cap) cs ->
    let '(r0, f0, ram0) := Uint8.fifo_uint8_init (Some d) buf cap clear_flag ram in
    r0 = 0 /\
    refines uint8_api cap (-2) (load_le 1) (fun _ x => x mod 256)
            (fun ram p n => read_objs 1 ram p n) cs f0 ram0 [].
Proof.
  intros d buf cap clear_flag ram cs Hbuf Hcap Hmem Hv.
  unfold Uint8.fifo_uint8_init.
  destruct (Z.eqb_spec buf 0); [contradiction|].
  destruct (Z.eqb_spec cap 0); [lia|].
  split; [reflexivity|].
  assert (Hcs : Forall (refines_call uint8_api Uint8.mk 1 buf cap (-2) (load_le 1)
                          (fun _ x => x mod 256) (fun ram p n => read_objs 1 ram p n)
                          byte_mem) cs).
  { rewrite Forall_forall in *. intros c Hc. apply uint8_refines_any. auto. }
  pose proof (refines_sequence uint8_api Uint8.mk 1 buf cap (-2) (load_le 1)
                (fun _ x => x mod 256) (fun ram p n => read_objs 1 ram p n) byte_mem cs Hcs
                0 cap (if clear_flag then memset ram buf 0 cap else ram)
                ltac:(unfold ring_ok; lia)
                ltac:(destruct clear_flag; [apply memset_byte_mem|]; assumption)) as H.
  rewrite ring_desc_start, queue_empty in H by lia.
  rewrite Z.mul_1_l in H. exact H.
Qed.

Lemma uint8_calls_refine_queue_witness :
  let '(r0, f0, ram0) := Uint8.fifo_uint8_init (Some d8) 100 4 true ram_aa in
  r0 = 0 /\
  refines uint8_api 4 (-2) (load_le 1) (fun _ x => x mod 256)
          (fun ram p n => read_objs 1 ram p n)
          [Push 1; PushMul 300 2; PopMul 400 2; PushMul 300 3; Pop 200; PopMul 400 4;
           Clear; Pop 200]
          f0 ram0 [].
Proof.
  apply uint8_calls_refine_queue; try lia; [exact ram_aa_bytes|].
  repeat (apply Forall_cons; [cbn; try lia; exact I|]). apply Forall_nil.
Defined.

Lemma single_calls_refine_queue_witness :
  (let '(r0, f0, ram0) := Uint32.fifo_uint32_init (Some (Uint32.mk 0 0 0 0 0 0)) 100 2 false
                            ram_aa in
   r0 = 0 /\
   refines uint32_api 2 (-2) (load_le 4) (fun _ x => x mod 4294967296)
           (fun ram p n => read_objs 4 ram p n)
           [Push 7; Push 8; Push 9; Pop 200; Pop 0; Pop 200; Pop 200; Clear; Pop 200]
           f0 ram0 []) /\
  (let '(r0, f0, ram0) := Common.fifo_common_init (Some d_common) 100 2 3 false ram_aa in
   r0 = 0 /\
   refines common_api 2 (-3) (read_entry 3) (fun ram x => read_entry 3 ram x)
           (fun _ _ _ => [])
           [Push 300; Push 303; Push 306; Pop 200; Pop 200; Pop 200]
           f0 ram0 []).
Proof.
  destruct single_calls_refine_queue as (_ & _ & H32 & Hc).
  split.
  - apply H32; try lia; [exact ram_aa_bytes| |];
      repeat (apply Forall_cons; [cbn; try lia; exact I|]); apply Forall_nil.
  - apply Hc; try lia;
      repeat (apply Forall_cons; [cbn; try lia; exact I|]); apply Forall_nil.
Defined.

(** X7. Round trip of the bulk calls of the byte variant.  On an empty
    buffer, wherever its head is, a bulk push of [m <= cap] bytes followed by
    a bulk pop of [m] bytes returns 0 twice, leaves the buffer empty, and the
    destination holds the pushed bytes in order, also when both copies cross
    the storage end. *)
Theorem uint8_bulk_round_trip :
  forall b cap hi push_buffer pop_buffer m ram,
    0 < cap < 65536 -> 0 <= hi < cap -> 0 < m <= cap ->
    push_buffer <> 0 -> push_buffer + m <= b \/ b + cap <= push_buffer ->
    pop_buffer <> 0 -> pop_buffer + m <= b \/ b + cap <= pop_buffer ->
    let '(rc1, f1, ram1) :=
      Uint8.fifo_uint8_push_mul (Some (ring_desc Uint8.mk 1 b cap hi cap)) push_buffer m ram in
    let '(rc2, f2, ram2) := Uint8.fifo_uint8_pop_mul f1 pop_buffer m ram1 in
    rc1 = 0 /\ rc2 = 0 /\
    option_map Uint8.free_size f2 = Some cap /\
    read_objs 1 ram2 pop_buffer (Z.to_nat m) = read_objs 1 ram push_buffer (Z.to_nat m).
Proof.
  intros b cap hi pb1 pb2 m ram Hcap Hhi Hm Hpb1 Hsrc Hpb2 Hdst.
  destruct (uint8_queue_push_mul b cap hi cap pb1 m ram ltac:(unfold ring_ok; lia)
              ltac:(lia) Hpb1 Hsrc) as (ram1 & Hrun1 & Hq1 & _ & _).
  rewrite Hrun1.
  destruct (uint8_queue_pop_mul b cap hi (cap - m) pb2 m ram1 ltac:(unfold ring_ok; lia)
              ltac:(lia) Hpb2 Hdst) as (ram2 & Hrun2 & Hout & _ & _ & _).
  rewrite Hrun2. split; [reflexivity|]. split; [reflexivity|]. split.
  - cbn. f_equal. lia.
  - rewrite Hout, Hq1.
    rewrite (queue_empty 1 (load_le 1)). cbn [app].
    apply firstn_all2. rewrite read_objs_map, length_map, length_seq. lia.
Qed.

Lemma uint8_bulk_round_trip_witness :
  let '(rc1, f1, ram1) :=
    Uint8.fifo_uint8_push_mul (Some (ring_desc Uint8.mk 1 100 4 3 4)) 300 4 ram_aa in
  let '(rc2, f2, ram2) := Uint8.fifo_uint8_pop_mul f1 400 4 ram1 in
  rc1 = 0 /\ rc2 = 0 /\
  option_map Uint8.free_size f2 = Some 4 /\
  read_objs 1 ram2 400 (Z.to_nat 4) = read_objs 1 ram_aa 300 (Z.to_nat 4).
Proof.
  apply (uint8_bulk_round_trip 100 4 3 300 400 4 ram_aa); lia.
Defined.

(** ** The descriptor stays well-formed *)

Lemma keeps_ring :
  forall {F A : Type} (api : fifo_api F) mkF w b cap full (read : mem -> Z -> A)
         elem elems mem_ok cs,
    Forall (refines_call api mkF w b cap full read elem elems mem_ok) cs ->
    forall hi fr ram,
      ring_ok cap hi fr -> mem_ok ram ->
      exists hi' fr',
        ring_ok cap hi' fr' /\
        snd (fst (run_calls api cs (Some (ring_desc mkF w b cap hi fr)) ram)) =
        Some (ring_desc mkF w b cap hi' fr').
Proof.
  intros F A api mkF w b cap full read elem elems mem_ok cs Hcs.
  induction Hcs as [|c cs Hc Hcs IH]; intros hi fr ram Hok Hmem.
  - exists hi, fr. split; [assumption | reflexivity].
  - cbn [run_calls]. specialize (Hc hi fr ram Hok Hmem).
    destruct (run_call api c (Some (ring_desc mkF w b cap hi fr)) ram) as [[rc fifo'] ram'].
    destruct (queue_call cap full elem elems c (queue read w b cap hi fr ram) ram)
      as [[rc_q q'] outs].
    destruct Hc as (_ & _ & Hmem' & hi1 & fr1 & Hok1 & -> & _).
    destruct (IH hi1 fr1 ram' Hok1 Hmem') as (hi' & fr' & Hok' & Hrun).
    destruct (run_calls api cs (Some (ring_desc mkF w b cap hi1 fr1)) ram')
      as [[rcs fifo2] ram2].
    exists hi', fr'. split; [assumption | exact Hrun].
Qed.

(** X8. The descriptor stays well-formed.  After a successful
    initialisation and any sequence of calls (all five kinds for the byte
    variant; [clear], [push] and [pop] for the other variants), [buffer],
    [limit_ptr] and [max_size] are what [init] set, head and tail point at
    slots inside the storage, [0 <= free_size <= max_size], and the tail is
    [max_size - free_size] slots after the head, modulo the capacity.  For the
    common variant the entry size is below 65536, the storage size in bytes
    [s * cap] is below 2^31 (the range in which the product that the
    initialisation and [clear] compute in [int] is defined) and the push
    sources lie outside the storage. *)
Theorem calls_keep_descriptor_well_formed :
  (forall d buf cap clear_flag ram cs,
      buf <> 0 -> 0 < cap < 65536 -> byte_mem ram ->
      Forall (call_valid (fun _ => True) 1 buf cap) cs ->
      let '(_, f0, ram0) := Uint8.fifo_uint8_init (Some d) buf cap clear_flag ram in
      exists hi fr,
        ring_ok cap hi fr /\
        snd (fst (run_calls uint8_api cs f0 ram0)) =
        Some (Uint8.mk buf (buf + 1 * hi) (buf + 1 * wrap cap (hi + (cap - fr)))
                     (buf + 1 * cap) cap fr)) /\
  (forall d buf cap clear_flag ram cs,
      buf <> 0 -> 0 < cap < 65536 -> byte_mem ram ->
      Forall single_call cs ->
      Forall (call_valid (fun _ => True) 2 buf cap) cs ->
      let '(_, f0, ram0) := Uint16.fifo_uint16_init (Some d) buf cap clear_flag ram in
      exists hi fr,
        ring_ok cap hi fr /\
        snd (fst (run_calls uint16_api cs f0 ram0)) =
        Some (Uint16.mk buf (buf + 2 * hi) (buf + 2 * wrap cap (hi + (cap - fr)))
                     (buf + 2 * cap) cap fr)) /\
  (forall d buf cap clear_flag ram cs,
      buf <> 0 -> 0 < cap < 65536 -> byte_mem ram ->
      Forall single_call cs ->
      Forall (call_valid (fun _ => True) 4 buf cap) cs ->
      let '(_, f0, ram0) := Uint32.fifo_uint32_init (Some d) buf cap clear_flag ram in
      exists hi fr,
        ring_ok cap hi fr /\
        snd (fst (run_calls uint32_api cs f0 ram0)) =
        Some (Uint32.mk buf (buf + 4 * hi) (buf + 4 * wrap cap (hi + (cap - fr)))
                     (buf + 4 * cap) cap fr)) /\
  (forall d buf cap s clear_flag ram cs,
      buf <> 0 -> 0 < cap < 65536 -> 0 < s < 65536 -> s * cap < 2147483648 ->
      Forall single_call cs ->
      Forall (call_valid (fun x => x <> 0 /\ (x + s <= buf \/ buf + s * cap <= x))
                s buf cap) cs ->
      let '(_, f0, ram0) := Common.fifo_common_init (Some d) buf cap s clear_flag ram in
      exists hi fr,
        ring_ok cap hi fr /\
        snd (fst (run_calls common_api cs f0 ram0)) =
        Some (Common.mk buf (buf + s * hi) (buf + s * wrap cap (hi + (cap - fr)))
                        (buf + s * cap) s cap fr)).
Proof.
  split; [|split; [|split]].
  - intros d buf cap clear_flag ram cs Hbuf Hcap Hmem Hv.
    unfold Uint8.fifo_uint8_init.
    destruct (Z.eqb_spec buf 0); [contradiction|].
    destruct (Z.eqb_spec cap 0); [lia|].
    pose proof (keeps_ring uint8_api Uint8.mk 1 buf cap (-2) (load_le 1)
                  (fun _ x => x mod 256) (fun ram p n => read_objs 1 ram p n) byte_mem cs
                  (proj2 (Forall_forall _ cs)
                     (fun c Hc => uint8_refines_any buf cap c
                                    (proj1 (Forall_forall _ cs) Hv c Hc)))
                  0 cap (if clear_flag then memset ram buf 0 cap else ram)
                  ltac:(unfold ring_ok; lia)
                  ltac:(destruct clear_flag; [apply memset_byte_mem|]; assumption)) as H.
    rewrite ring_desc_start in H by lia.
    rewrite Z.mul_1_l in H. exact H.
  - intros d buf cap clear_flag ram cs Hbuf Hcap Hmem Hs Hv.
    unfold Uint16.fifo_uint16_init, Uint16.ptr_add.
    destruct (Z.eqb_spec buf 0); [contradiction|].
    destruct (Z.eqb_spec cap 0); [lia|].
    pose proof (keeps_ring uint16_api Uint16.mk 2 buf cap (-2) (load_le 2)
                  (fun _ x => x mod 65536) (fun ram p n => read_objs 2 ram p n) byte_mem cs
                  (Forall_refines_single _ _ _ _ _ cs
                     (uint16_refines_single (fun ram p n => read_objs 2 ram p n) buf cap)
                     Hs Hv)
                  0 cap (if clear_flag then memset ram buf 0 cap else ram)
                  ltac:(unfold ring_ok; lia)
                  ltac:(destruct clear_flag; [apply memset_byte_mem|]; assumption)) as H.
    rewrite ring_desc_start in H by lia.
    exact H.
  - intros d buf cap clear_flag ram cs Hbuf Hcap Hmem Hs Hv.
    unfold Uint32.fifo_uint32_init, Uint32.ptr_add.
    destruct (Z.eqb_spec buf 0); [contradiction|].
    destruct (Z.eqb_spec cap 0); [lia|].
    pose proof (keeps_ring uint32_api Uint32.mk 4 buf cap (-2) (load_le 4)
                  (fun _ x => x mod 4294967296) (fun ram p n => read_objs 4 ram p n) byte_mem cs
                  (Forall_refines_single _ _ _ _ _ cs
                     (uint32_refines_single (fun ram p n => read_objs 4 ram p n) buf cap)
                     Hs Hv)
                  0 cap (if clear_flag then memset ram buf 0 cap else ram)
                  ltac:(unfold ring_ok; lia)
                  ltac:(destruct clear_flag; [apply memset_byte_mem|]; assumption)) as H.
    rewrite ring_desc_start in H by lia.
    exact H.
  - intros d buf cap s clear_flag ram cs Hbuf Hcap [Hpos Hs16] Hint Hs Hv.
    apply Forall_call_valid_source in Hv.
    unfold Common.fifo_common_init.
    destruct (Z.eqb_spec buf 0); [contradiction|].
    destruct (Z.eqb_spec cap 0); [lia|].
    destruct (Z.eqb_spec s 0); [lia|].
    pose proof (keeps_ring common_api (common_mk s) s buf cap (-3) (read_entry s)
                  (fun ram x => read_entry s ram x) (fun _ _ _ => []) (fun _ => True) cs
                  (Forall_refines_single _ _ _ _ _ cs
                     (fun c => common_refines_single s _ buf cap c Hpos) Hs Hv)
                  0 cap (if clear_flag then memset ram buf 0 (cap * s) else ram)
                  ltac:(unfold ring_ok; lia) I) as H.
    rewrite ring_desc_start in H by lia.
    exact H.
Qed.

Lemma calls_keep_descriptor_well_formed_witness :
  (let '(_, f0, ram0) := Uint8.fifo_uint8_init (Some d8) 100 4 true ram_aa in
   exists hi fr,
     ring_ok 4 hi fr /\
     snd (fst (run_calls uint8_api [Push 1; PushMul 300 3; PopMul 400 2; PushMul 300 2]
                         f0 ram0)) =
     Some (Uint8.mk 100 (100 + 1 * hi) (100 + 1 * wrap 4 (hi + (4 - fr))) (100 + 1 * 4) 4 fr)) /\
  (let '(_, f0, ram0) := Common.fifo_common_init (Some d_common) 100 4 3 true ram_aa in
   exists hi fr,
     ring_ok 4 hi fr /\
     snd (fst (run_calls common_api [Push 300; Push 303; Pop 200; Clear; Push 306]
                         f0 ram0)) =
     Some (Common.mk 100 (100 + 3 * hi) (100 + 3 * wrap 4 (hi + (4 - fr))) (100 + 3 * 4)
                     3 4 fr)).
Proof.
  destruct calls_keep_descriptor_well_formed as (H & _ & _ & Hc).
  split.
  - apply (H d8 100 4 true ram_aa [Push 1; PushMul 300 3; PopMul 400 2; PushMul 300 2]);
      try lia; [exact ram_aa_bytes|].
    repeat (apply Forall_cons; [cbn; try lia; exact I|]). apply Forall_nil.
  - apply (Hc d_common 100 4 3 true ram_aa [Push 300; Push 303; Pop 200; Clear; Push 306]);
      try lia;
      repeat (apply Forall_cons; [cbn; try lia; exact I|]); apply Forall_nil.
Defined.

(** * Clearing and argument checks *)

(** X9. [clear] is a re-initialisation: on a descriptor whose limit is one
    past the last slot of its storage, [clear] returns exactly what [init]
    returns for the same storage and capacity with the clear flag set: the
    same status 0, the same descriptor and the same memory.  Proved for the
    four variants (from any descriptor contents [d] for [init]); for the
    common variant with an entry size and a capacity that are 16-bit values
    and a storage size in bytes below 2^31, the range in which the products
    that [clear] and [init] compute in [int] are defined. *)
Theorem clear_is_init_with_clear_flag :
  (forall f d ram,
      Uint8.buffer f <> 0 -> Uint8.max_size f <> 0 ->
      Uint8.limit_ptr f = Uint8.buffer f + 1 * Uint8.max_size f ->
      Uint8.fifo_uint8_clear (Some f) ram =
      Uint8.fifo_uint8_init (Some d) (Uint8.buffer f) (Uint8.max_size f) true ram) /\
  (forall f d ram,
      Uint16.buffer f <> 0 -> Uint16.max_size f <> 0 ->
      Uint16.limit_ptr f = Uint16.buffer f + 2 * Uint16.max_size f ->
      Uint16.fifo_uint16_clear (Some f) ram =
      Uint16.fifo_uint16_init (Some d) (Uint16.buffer f) (Uint16.max_size f) true ram) /\
  (forall f d ram,
      Uint32.buffer f <> 0 -> Uint32.max_size f <> 0 ->
      Uint32.limit_ptr f = Uint32.buffer f + 4 * Uint32.max_size f ->
      Uint32.fifo_uint32_clear (Some f) ram =
      Uint32.fifo_uint32_init (Some d) (Uint32.buffer f) (Uint32.max_size f) true ram) /\
  (forall f d ram,
      Common.buffer f <> 0 ->
      0 < Common.max_size f < 65536 -> 0 < Common.entry_size f < 65536 ->
      Common.entry_size f * Common.max_size f < 2147483648 ->
      Common.limit_ptr f = Common.buffer f + Common.entry_size f * Common.max_size f ->
      Common.fifo_common_clear (Some f) ram =
      Common.fifo_common_init (Some d) (Common.buffer f) (Common.max_size f)
                              (Common.entry_size f) true ram).
Proof.
  repeat match goal with |- _ /\ _ => split end;
    intros f d ram;
    unfold Uint8.fifo_uint8_clear, Uint8.fifo_uint8_init,
           Uint16.fifo_uint16_clear, Uint16.fifo_uint16_init, Uint16.ptr_add,
           Uint32.fifo_uint32_clear, Uint32.fifo_uint32_init, Uint32.ptr_add,
           Common.fifo_common_clear, Common.fifo_common_init;
    destruct f; unfold Uint8.set_head_ptr, Uint8.set_tail_ptr, Uint8.set_free_size, Uint16.set_head_ptr, Uint16.set_tail_ptr, Uint16.set_free_size, Uint32.set_head_ptr, Uint32.set_tail_ptr, Uint32.set_free_size, Common.set_head_ptr, Common.set_tail_ptr, Common.set_free_size;
    cbn [Uint8.buffer Uint8.head_ptr Uint8.tail_ptr Uint8.limit_ptr Uint8.max_size Uint8.free_size Uint16.buffer Uint16.head_ptr Uint16.tail_ptr Uint16.limit_ptr Uint16.max_size Uint16.free_size Uint32.buffer Uint32.head_ptr Uint32.tail_ptr Uint32.limit_ptr Uint32.max_size Uint32.free_size Common.buffer Common.head_ptr Common.tail_ptr Common.limit_ptr Common.max_size Common.free_size Common.entry_size]; intros;
    repeat match goal with
           | H : ?x <> 0 |- context [?x =? 0] =>
               destruct (Z.eqb_spec x 0); [contradiction|]
           | H : 0 < ?x < _ |- context [?x =? 0] =>
               destruct (Z.eqb_spec x 0); [lia|]
           end;
    subst; rewrite ?Z.mul_1_l; reflexivity.
Qed.

Lemma clear_is_init_with_clear_flag_witness :
  Uint16.fifo_uint16_clear (Some empty16) ram_aa =
  Uint16.fifo_uint16_init (Some d16) (Uint16.buffer empty16) (Uint16.max_size empty16) true
                          ram_aa /\
  Common.fifo_common_clear (Some empty_common) ram_aa =
  Common.fifo_common_init (Some d_common) (Common.buffer empty_common)
                          (Common.max_size empty_common) (Common.entry_size empty_common)
                          true ram_aa.
Proof.
  destruct clear_is_init_with_clear_flag as (_ & H & _ & Hc).
  split; [apply H | apply Hc]; cbn; lia.
Defined.

(** X10. [clear] is idempotent: a second [clear] right after a first one
    returns 0 again and leaves the descriptor and every byte of the memory
    as the first one left them.  Proved for the four variants. *)
Theorem clear_idempotent :
  (forall f ram,
      let '(rc1, f1, ram1) := Uint8.fifo_uint8_clear (Some f) ram in
      let '(rc2, f2, ram2) := Uint8.fifo_uint8_clear f1 ram1 in
      rc1 = 0 /\ rc2 = 0 /\ f2 = f1 /\ forall a, ram2 a = ram1 a) /\
  (forall f ram,
      let '(rc1, f1, ram1) := Uint16.fifo_uint16_clear (Some f) ram in
      let '(rc2, f2, ram2) := Uint16.fifo_uint16_clear f1 ram1 in
      rc1 = 0 /\ rc2 = 0 /\ f2 = f1 /\ forall a, ram2 a = ram1 a) /\
  (forall f ram,
      let '(rc1, f1, ram1) := Uint32.fifo_uint32_clear (Some f) ram in
      let '(rc2, f2, ram2) := Uint32.fifo_uint32_clear f1 ram1 in
      rc1 = 0 /\ rc2 = 0 /\ f2 = f1 /\ forall a, ram2 a = ram1 a) /\
  (forall f ram,
      let '(rc1, f1, ram1) := Common.fifo_common_clear (Some f) ram in
      let '(rc2, f2, ram2) := Common.fifo_common_clear f1 ram1 in
      rc1 = 0 /\ rc2 = 0 /\ f2 = f1 /\ forall a, ram2 a = ram1 a).
Proof.
  repeat match goal with |- _ /\ _ => split end;
    intros f ram; cbn;
    (split; [reflexivity|]); (split; [reflexivity|]); (split; [reflexivity|]);
    intros a; unfold memset;
    destruct (_ <=? a); destruct (a <? _); reflexivity.
Qed.

Ltac pop_mul_checks_tac :=
  intros; unfold_bulk; case_guards;
  match goal with
  | H : _ = (_, _, _) |- _ => inversion H; subst; clear H
  end;
  zify_guards;
  repeat split; intros; try lia; try discriminate;
  eexists; (split; [reflexivity|]); cbn; unfold u16;
  first [reflexivity | rewrite Z.mod_small; lia].

(** X11. The argument checks of [pop_mul]: [-1] for a null descriptor, [-2]
    for a null destination; with both non-null, [-3] exactly when [m = 0] and
    [-4] exactly when [m] exceeds a bound, which is the number of queued
    elements [max_size - free_size] in [fifo_uint8_pop_mul] but the capacity
    [max_size] in the 16-bit, 32-bit and common variants; 0 in all remaining
    cases, and then [free_size] has grown by [m] (modulo 2^16 in the
    variants that do not bound [m] by the number of queued elements). *)
Theorem pop_mul_checks :
  (forall pop_buffer m ram,
      Uint8.fifo_uint8_pop_mul None pop_buffer m ram = (-1, None, ram)) /\
  (forall f m ram,
      Uint8.fifo_uint8_pop_mul (Some f) 0 m ram = (-2, Some f, ram)) /\
  (forall f pop_buffer m ram rc fifo' ram',
      pop_buffer <> 0 -> 0 <= m < 65536 -> 0 <= Uint8.free_size f <= Uint8.max_size f -> Uint8.max_size f < 65536 ->
      Uint8.fifo_uint8_pop_mul (Some f) pop_buffer m ram = (rc, fifo', ram') ->
      (rc = -3 <-> m = 0) /\
      (rc = -4 <-> Uint8.max_size f - Uint8.free_size f < m) /\
      (rc = 0 <-> 0 < m <= Uint8.max_size f - Uint8.free_size f) /\
      (rc = 0 ->
       exists f', fifo' = Some f' /\ Uint8.free_size f' = Uint8.free_size f + m)) /\
  (forall pop_buffer m ram,
      Uint16.fifo_uint16_pop_mul None pop_buffer m ram = (-1, None, ram)) /\
  (forall f m ram,
      Uint16.fifo_uint16_pop_mul (Some f) 0 m ram = (-2, Some f, ram)) /\
  (forall f pop_buffer m ram rc fifo' ram',
      pop_buffer <> 0 -> 0 <= m < 65536 -> 0 <= Uint16.max_size f ->
      Uint16.fifo_uint16_pop_mul (Some f) pop_buffer m ram = (rc, fifo', ram') ->
      (rc = -3 <-> m = 0) /\
      (rc = -4 <-> Uint16.max_size f < m) /\
      (rc = 0 <-> 0 < m <= Uint16.max_size f) /\
      (rc = 0 ->
       exists f', fifo' = Some f' /\ Uint16.free_size f' = (Uint16.free_size f + m) mod 65536)) /\
  (forall pop_buffer m ram,
      Uint32.fifo_uint32_pop_mul None pop_buffer m ram = (-1, None, ram)) /\
  (forall f m ram,
      Uint32.fifo_uint32_pop_mul (Some f) 0 m ram = (-2, Some f, ram)) /\
  (forall f pop_buffer m ram rc fifo' ram',
      pop_buffer <> 0 -> 0 <= m < 65536 -> 0 <= Uint32.max_size f ->
      Uint32.fifo_uint32_pop_mul (Some f) pop_buffer m ram = (rc, fifo', ram') ->
      (rc = -3 <-> m = 0) /\
      (rc = -4 <-> Uint32.max_size f < m) /\
      (rc = 0 <-> 0 < m <= Uint32.max_size f) /\
      (rc = 0 ->
       exists f', fifo' = Some f' /\ Uint32.free_size f' = (Uint32.free_size f + m) mod 65536)) /\
  (forall pop_buffer m ram,
      Common.fifo_common_pop_mul None pop_buffer m ram = (-1, None, ram)) /\
  (forall f m ram,
      Common.fifo_common_pop_mul (Some f) 0 m ram = (-2, Some f, ram)) /\
  (forall f pop_buffer m ram rc fifo' ram',
      pop_buffer <> 0 -> 0 <= m < 65536 -> 0 <= Common.max_size f ->
      Common.fifo_common_pop_mul (Some f) pop_buffer m ram = (rc, fifo', ram') ->
      (rc = -3 <-> m = 0) /\
      (rc = -4 <-> Common.max_size f < m) /\
      (rc = 0 <-> 0 < m <= Common.max_size f) /\
      (rc = 0 ->
       exists f', fifo' = Some f' /\ Common.free_size f' = (Common.free_size f + m) mod 65536)).
Proof.
  repeat match goal with |- _ /\ _ => split end;
    try (intros; reflexivity); pop_mul_checks_tac.
Qed.

Lemma pop_mul_checks_witness :
  exists f', snd (fst (Uint16.fifo_uint16_pop_mul (Some empty16) 300 3 ram_aa)) = Some f' /\
             Uint16.free_size f' = (4 + 3) mod 65536.
Proof.
  destruct pop_mul_checks as (_ & _ & _ & _ & _ & H & _).
  destruct (Uint16.fifo_uint16_pop_mul (Some empty16) 300 3 ram_aa)
    as [[rc fifo'] ram'] eqn:E.
  assert (Hrc : rc = 0) by (vm_compute in E; inversion E; reflexivity).
  destruct (H empty16 300 3 ram_aa rc fifo' ram') as (_ & _ & _ & Hf); try assumption.
  - discriminate.
  - lia.
  - cbn. lia.
  - destruct (Hf Hrc) as (f' & Hf' & Hfree). exists f'. split; assumption.
Defined.

(** * Bulk calls that stay before the storage end *)

Ltac unfold_fields :=
  cbv beta iota zeta delta
    [Uint16.set_head_ptr Uint16.set_tail_ptr Uint16.set_free_size
     Uint16.buffer Uint16.head_ptr Uint16.tail_ptr Uint16.limit_ptr
     Uint16.max_size Uint16.free_size Uint16.ptr_add Uint16.ptr_diff
     Uint32.set_head_ptr Uint32.set_tail_ptr Uint32.set_free_size
     Uint32.buffer Uint32.head_ptr Uint32.tail_ptr Uint32.limit_ptr
     Uint32.max_size Uint32.free_size Uint32.ptr_add Uint32.ptr_diff
     Common.set_head_ptr Common.set_tail_ptr Common.set_free_size
     Common.buffer Common.head_ptr Common.tail_ptr Common.limit_ptr
     Common.entry_size Common.max_size Common.free_size common_mk].

Ltac bulk_fit_tac :=
  intros; unfold_bulk; cbn [api_push_mul api_pop_mul uint16_api uint32_api common_api];
  unfold_bulk; unfold_fields;
  repeat match goal with
         | |- context [?a =? ?b] => destruct (Z.eqb_spec a b); [exfalso; lia|]
         | |- context [?a <? ?b] => destruct (Z.ltb_spec a b); [exfalso; lia|]
         end;
  match goal with
  | |- context [?a <=? ?b] => destruct (Z.leb_spec a b); [exfalso; lia|]
  end;
  unfold u16; rewrite Z.mod_small by lia; reflexivity.

Lemma uint16_push_mul_fit : forall b h t l mx fr push_buffer m ram,
    push_buffer <> 0 -> 0 < m <= fr -> fr < 65536 -> t + 2 * m < l ->
    api_push_mul uint16_api (Some (Uint16.mk b h t l mx fr)) push_buffer m ram =
    (0, Some (Uint16.mk b h (t + 2 * m) l mx (fr - m)), memcpy ram t push_buffer (m * 2)).
Proof. bulk_fit_tac. Qed.

Lemma uint16_pop_mul_fit : forall b h t l mx fr pop_buffer m ram,
    pop_buffer <> 0 -> 0 < m <= mx -> 0 <= fr -> fr + m < 65536 -> h + 2 * m < l ->
    api_pop_mul uint16_api (Some (Uint16.mk b h t l mx fr)) pop_buffer m ram =
    (0, Some (Uint16.mk b (h + 2 * m) t l mx (fr + m)), memcpy ram pop_buffer h (m * 2)).
Proof. bulk_fit_tac. Qed.

Lemma uint32_push_mul_fit : forall b h t l mx fr push_buffer m ram,
    push_buffer <> 0 -> 0 < m <= fr -> fr < 65536 -> t + 4 * m < l ->
    api_push_mul uint32_api (Some (Uint32.mk b h t l mx fr)) push_buffer m ram =
    (0, Some (Uint32.mk b h (t + 4 * m) l mx (fr - m)), memcpy ram t push_buffer (m * 4)).
Proof. bulk_fit_tac. Qed.

Lemma uint32_pop_mul_fit : forall b h t l mx fr pop_buffer m ram,
    pop_buffer <> 0 -> 0 < m <= mx -> 0 <= fr -> fr + m < 65536 -> h + 4 * m < l ->
    api_pop_mul uint32_api (Some (Uint32.mk b h t l mx fr)) pop_buffer m ram =
    (0, Some (Uint32.mk b (h + 4 * m) t l mx (fr + m)), memcpy ram pop_buffer h (m * 4)).
Proof. bulk_fit_tac. Qed.

Lemma common_push_mul_fit : forall s b h t l mx fr push_buffer m ram,
    push_buffer <> 0 -> 0 < m <= fr -> fr < 65536 -> t + s * m < l ->
    api_push_mul common_api (Some (common_mk s b h t l mx fr)) push_buffer m ram =
    (0, Some (common_mk s b h (t + s * m) l mx (fr - m)), memcpy ram t push_buffer (m * s)).
Proof.
  intros. replace (t + s * m) with (t + m * s) in * by lia. bulk_fit_tac.
Qed.

Lemma common_pop_mul_fit : forall s b h t l mx fr pop_buffer m ram,
    pop_buffer <> 0 -> 0 < m <= mx -> 0 <= fr -> fr + m < 65536 -> h + s * m < l ->
    api_pop_mul common_api (Some (common_mk s b h t l mx fr)) pop_buffer m ram =
    (0, Some (common_mk s b (h + s * m) t l mx (fr + m)), memcpy ram pop_buffer h (m * s)).
Proof.
  intros. replace (h + s * m) with (h + m * s) in * by lia. bulk_fit_tac.
Qed.

Lemma load_le_shift : forall w r1 r2 p q,
    (forall k, 0 <= k < Z.of_nat w -> r1 (p + k) = r2 (q + k)) ->
    load_le w r1 p = load_le w r2 q.
Proof.
  induction w as [|w IH]; intros r1 r2 p q H; [reflexivity|].
  cbn [load_le]. f_equal.
  - specialize (H 0 ltac:(lia)). now rewrite !Z.add_0_r in H.
  - f_equal. apply IH. intros k Hk. specialize (H (1 + k) ltac:(lia)).
    now rewrite !Z.add_assoc in H.
Qed.

Lemma entry_shift : forall s r1 r2 p q,
    (forall k, 0 <= k < s -> r1 (p + k) = r2 (q + k)) ->
    read_entry s r1 p = read_entry s r2 q.
Proof.
  intros s r1 r2 p q H. unfold read_entry. apply read_bytes_ext.
  intros k Hk. apply H. lia.
Qed.

Section BulkFit.
Context {F A : Type} (api : fifo_api F).
Variable mkF : Z -> Z -> Z -> Z -> Z -> Z -> F.
Variable w : Z.
Variable read : mem -> Z -> A.

Hypothesis w_pos : 0 < w.

Hypothesis push_mul_fit : forall b h t l mx fr push_buffer m ram,
    push_buffer <> 0 -> 0 < m <= fr -> fr < 65536 -> t + w * m < l ->
    api_push_mul api (Some (mkF b h t l mx fr)) push_buffer m ram =
    (0, Some (mkF b h (t + w * m) l mx (fr - m)), memcpy ram t push_buffer (m * w)).

Hypothesis pop_mul_fit : forall b h t l mx fr pop_buffer m ram,
    pop_buffer <> 0 -> 0 < m <= mx -> 0 <= fr -> fr + m < 65536 -> h + w * m < l ->
    api_pop_mul api (Some (mkF b h t l mx fr)) pop_buffer m ram =
    (0, Some (mkF b (h + w * m) t l mx (fr + m)), memcpy ram pop_buffer h (m * w)).

Hypothesis read_shift : forall r1 r2 p q,
    (forall k, 0 <= k < w -> r1 (p + k) = r2 (q + k)) -> read r1 p = read r2 q.

Lemma queue_push_mul_fit : forall b cap hi fr push_buffer m ram,
    ring_ok cap hi fr -> 0 < m <= fr -> push_buffer <> 0 ->
    wrap cap (hi + (cap - fr)) + m < cap ->
    exists ram',
      api_push_mul api (Some (ring_desc mkF w b cap hi fr)) push_buffer m ram =
      (0, Some (ring_desc mkF w b cap hi (fr - m)), ram') /\
      queue read w b cap hi (fr - m) ram' =
      queue read w b cap hi fr ram ++
      map (fun i => read ram (push_buffer + w * Z.of_nat i)) (seq 0 (Z.to_nat m)) /\
      forall a, a < b \/ b + w * cap <= a -> ram' a = ram a.
Proof.
  intros b cap hi fr pb m ram (Hcap & Hhi & Hfr) Hm Hpb Hfit.
  pose proof (wrap_range cap (hi + (cap - fr)) ltac:(lia) ltac:(lia)) as Ht.
  unfold ring_desc. rewrite push_mul_fit by (try lia; nia).
  replace (b + w * wrap cap (hi + (cap - fr)) + w * m)
    with (b + w * wrap cap (hi + (cap - (fr - m))))
    by (wrap_cases; nia).
  eexists. split; [reflexivity|]. split.
  - unfold queue, ring.
    replace (Z.to_nat (cap - (fr - m))) with (Z.to_nat (cap - fr) + Z.to_nat m)%nat by lia.
    rewrite seq_app, map_app. f_equal.
    + apply map_ext_in. intros i Hi. apply in_seq in Hi.
      apply read_shift. intros k Hk. apply memcpy_out.
      wrap_cases; nia.
    + rewrite map_seq_from.
      apply map_ext_in. intros i Hi. apply in_seq in Hi.
      apply read_shift. intros k Hk.
      replace (wrap cap (hi + Z.of_nat (0 + Z.to_nat (cap - fr) + i)))
        with (wrap cap (hi + (cap - fr)) + Z.of_nat i)
        by (wrap_cases; lia).
      rewrite memcpy_in by nia. f_equal. lia.
  - intros a Ha. apply memcpy_out. nia.
Qed.

Lemma queue_pop_mul_fit : forall b cap hi fr pop_buffer m ram,
    ring_ok cap hi fr -> 0 < m <= cap - fr -> pop_buffer <> 0 ->
    hi + m < cap ->
    pop_buffer + w * m <= b \/ b + w * cap <= pop_buffer ->
    exists ram',
      api_pop_mul api (Some (ring_desc mkF w b cap hi fr)) pop_buffer m ram =
      (0, Some (ring_desc mkF w b cap (hi + m) (fr + m)), ram') /\
      map (fun i => read ram' (pop_buffer + w * Z.of_nat i)) (seq 0 (Z.to_nat m)) =
      firstn (Z.to_nat m) (queue read w b cap hi fr ram) /\
      queue read w b cap (hi + m) (fr + m) ram' =
      skipn (Z.to_nat m) (queue read w b cap hi fr ram) /\
      forall a, a < pop_buffer \/ pop_buffer + w * m <= a -> ram' a = ram a.
Proof.
  intros b cap hi fr pb m ram (Hcap & Hhi & Hfr) Hm Hpb Hfit Hdst.
  unfold ring_desc. rewrite pop_mul_fit by (try lia; nia).
  replace (b + w * hi + w * m) with (b + w * (hi + m)) by lia.
  replace (hi + m + (cap - (fr + m))) with (hi + (cap - fr)) by lia.
  eexists. split; [reflexivity|]. split; [|split].
  - unfold queue, ring. rewrite firstn_map, firstn_seq_le by lia.
    apply map_ext_in. intros i Hi. apply in_seq in Hi.
    apply read_shift. intros k Hk.
    replace (wrap cap (hi + Z.of_nat i)) with (hi + Z.of_nat i) by (wrap_cases; lia).
    rewrite memcpy_in by nia. f_equal. lia.
  - unfold queue, ring. rewrite skipn_map, skipn_seq_le by lia.
    replace (Z.to_nat (cap - fr) - Z.to_nat m)%nat with (Z.to_nat (cap - (fr + m))) by lia.
    rewrite (map_seq_from _ (0 + Z.to_nat m)).
    apply map_ext_in. intros i Hi. apply in_seq in Hi.
    replace (Z.of_nat (0 + Z.to_nat m + i)) with (m + Z.of_nat i) by lia.
    replace (hi + m + Z.of_nat i) with (hi + (m + Z.of_nat i)) by lia.
    apply read_shift. intros k Hk. apply memcpy_out.
    pose proof (wrap_range cap (hi + (m + Z.of_nat i)) ltac:(lia) ltac:(lia)). nia.
  - intros a Ha. apply memcpy_out. lia.
Qed.
End BulkFit.

(** X12. Bulk push of the 16-bit, 32-bit and common variants when the run
    ends before the storage end.  From a well-formed descriptor with at least
    [m > 0] free slots whose tail slot plus [m] stays below the capacity,
    [push_mul] returns 0, takes [m] free slots, and the buffer then holds the
    old queue followed by the [m] source elements in order; no byte outside
    the storage changes.  (When the run reaches the storage end these
    variants take their other branch.)  For the common variant the entry size
    is below 65536 and the storage size in bytes [s * cap] is below 2^31, the
    range in which the products that the call computes in [int] are
    defined. *)
Theorem push_mul_appends_before_storage_end :
  (forall b cap hi fr push_buffer m ram,
      ring_ok cap hi fr -> 0 < m <= fr -> push_buffer <> 0 ->
      push_buffer + 2 * m <= b \/ b + 2 * cap <= push_buffer ->
      wrap cap (hi + (cap - fr)) + m < cap ->
      exists ram',
        Uint16.fifo_uint16_push_mul (Some (ring_desc Uint16.mk 2 b cap hi fr)) push_buffer m ram =
        (0, Some (ring_desc Uint16.mk 2 b cap hi (fr - m)), ram') /\
        queue (load_le 2) 2 b cap hi (fr - m) ram' =
        queue (load_le 2) 2 b cap hi fr ram ++ read_objs 2 ram push_buffer (Z.to_nat m) /\
        forall a, a < b \/ b + 2 * cap <= a -> ram' a = ram a) /\
  (forall b cap hi fr push_buffer m ram,
      ring_ok cap hi fr -> 0 < m <= fr -> push_buffer <> 0 ->
      push_buffer + 4 * m <= b \/ b + 4 * cap <= push_buffer ->
      wrap cap (hi + (cap - fr)) + m < cap ->
      exists ram',
        Uint32.fifo_uint32_push_mul (Some (ring_desc Uint32.mk 4 b cap hi fr)) push_buffer m ram =
        (0, Some (ring_desc Uint32.mk 4 b cap hi (fr - m)), ram') /\
        queue (load_le 4) 4 b cap hi (fr - m) ram' =
        queue (load_le 4) 4 b cap hi fr ram ++ read_objs 4 ram push_buffer (Z.to_nat m) /\
        forall a, a < b \/ b + 4 * cap <= a -> ram' a = ram a) /\
  (forall s b cap hi fr push_buffer m ram,
      0 < s < 65536 -> s * cap < 2147483648 ->
      ring_ok cap hi fr -> 0 < m <= fr -> push_buffer <> 0 ->
      push_buffer + s * m <= b \/ b + s * cap <= push_buffer ->
      wrap cap (hi + (cap - fr)) + m < cap ->
      exists ram',
        Common.fifo_common_push_mul (Some (ring_desc (common_mk s) s b cap hi fr))
                                    push_buffer m ram =
        (0, Some (ring_desc (common_mk s) s b cap hi (fr - m)), ram') /\
        queue (read_entry s) s b cap hi (fr - m) ram' =
        queue (read_entry s) s b cap hi fr ram ++
        map (fun i => read_entry s ram (push_buffer + s * Z.of_nat i)) (seq 0 (Z.to_nat m)) /\
        forall a, a < b \/ b + s * cap <= a -> ram' a = ram a).
Proof.
  split; [|split].
  - intros b cap hi fr push_buffer m ram Hok Hm Hpb Hsrc Hfit.
    destruct (queue_push_mul_fit uint16_api Uint16.mk 2 (load_le 2) ltac:(lia)
                uint16_push_mul_fit (load_le_shift 2) b cap hi fr push_buffer m ram
                Hok Hm Hpb Hfit) as (ram' & Hrun & Hq & Hframe).
    exists ram'. rewrite read_objs_map. auto.
  - intros b cap hi fr push_buffer m ram Hok Hm Hpb Hsrc Hfit.
    destruct (queue_push_mul_fit uint32_api Uint32.mk 4 (load_le 4) ltac:(lia)
                uint32_push_mul_fit (load_le_shift 4) b cap hi fr push_buffer m ram
                Hok Hm Hpb Hfit) as (ram' & Hrun & Hq & Hframe).
    exists ram'. rewrite read_objs_map. auto.
  - intros s b cap hi fr push_buffer m ram [Hs Hs16] Hint Hok Hm Hpb Hsrc Hfit.
    apply (queue_push_mul_fit common_api (common_mk s) s (read_entry s) Hs
             (common_push_mul_fit s) (entry_shift s)); assumption.
Qed.

Lemma push_mul_appends_before_storage_end_witness :
  (exists ram',
      Uint16.fifo_uint16_push_mul (Some (ring_desc Uint16.mk 2 100 4 3 3)) 300 3 ram_aa =
      (0, Some (ring_desc Uint16.mk 2 100 4 3 (3 - 3)), ram') /\
      queue (load_le 2) 2 100 4 3 (3 - 3) ram' =
      queue (load_le 2) 2 100 4 3 3 ram_aa ++ read_objs 2 ram_aa 300 (Z.to_nat 3) /\
      forall a, a < 100 \/ 100 + 2 * 4 <= a -> ram' a = ram_aa a) /\
  (exists ram',
      Common.fifo_common_push_mul (Some (ring_desc (common_mk 3) 3 100 4 3 3)) 300 3 ram_aa =
      (0, Some (ring_desc (common_mk 3) 3 100 4 3 (3 - 3)), ram') /\
      queue (read_entry 3) 3 100 4 3 (3 - 3) ram' =
      queue (read_entry 3) 3 100 4 3 3 ram_aa ++
      map (fun i => read_entry 3 ram_aa (300 + 3 * Z.of_nat i)) (seq 0 (Z.to_nat 3)) /\
      forall a, a < 100 \/ 100 + 3 * 4 <= a -> ram' a = ram_aa a).
Proof.
  destruct push_mul_appends_before_storage_end as (H & _ & Hc).
  split.
  - apply H; [unfold ring_ok; lia | lia | lia | lia | cbn; lia].
  - apply (Hc 3 100 4 3 3 300 3 ram_aa);
      [lia | lia | unfold ring_ok; lia | lia | lia | lia | cbn; lia].
Defined.

(** X13. Bulk pop of the 16-bit, 32-bit and common variants when the run
    ends before the storage end and [m] does not exceed the number of queued
    elements (which these variants do not check themselves).  From a
    well-formed descriptor with head slot [hi] and [hi + m] below the
    capacity, [pop_mul] into a destination outside the storage returns 0,
    moves the head [m] slots on, gives [m] slots back, fills the destination
    with the [m] oldest elements in order and leaves the remaining ones in
    the buffer; only the destination bytes change.  For the common variant
    the entry size is below 65536 and the storage size in bytes [s * cap] is
    below 2^31, the range in which the products that the call computes in
    [int] are defined. *)
Theorem pop_mul_takes_oldest_before_storage_end :
  (forall b cap hi fr pop_buffer m ram,
      ring_ok cap hi fr -> 0 < m <= cap - fr -> pop_buffer <> 0 ->
      pop_buffer + 2 * m <= b \/ b + 2 * cap <= pop_buffer ->
      hi + m < cap ->
      exists ram',
        Uint16.fifo_uint16_pop_mul (Some (ring_desc Uint16.mk 2 b cap hi fr)) pop_buffer m ram =
        (0, Some (ring_desc Uint16.mk 2 b cap (hi + m) (fr + m)), ram') /\
        read_objs 2 ram' pop_buffer (Z.to_nat m) =
        firstn (Z.to_nat m) (queue (load_le 2) 2 b cap hi fr ram) /\
        queue (load_le 2) 2 b cap (hi + m) (fr + m) ram' =
        skipn (Z.to_nat m) (queue (load_le 2) 2 b cap hi fr ram) /\
        forall a, a < pop_buffer \/ pop_buffer + 2 * m <= a -> ram' a = ram a) /\
  (forall b cap hi fr pop_buffer m ram,
      ring_ok cap hi fr -> 0 < m <= cap - fr -> pop_buffer <> 0 ->
      pop_buffer + 4 * m <= b \/ b + 4 * cap <= pop_buffer ->
      hi + m < cap ->
      exists ram',
        Uint32.fifo_uint32_pop_mul (Some (ring_desc Uint32.mk 4 b cap hi fr)) pop_buffer m ram =
        (0, Some (ring_desc Uint32.mk 4 b cap (hi + m) (fr + m)), ram') /\
        read_objs 4 ram' pop_buffer (Z.to_nat m) =
        firstn (Z.to_nat m) (queue (load_le 4) 4 b cap hi fr ram) /\
        queue (load_le 4) 4 b cap (hi + m) (fr + m) ram' =
        skipn (Z.to_nat m) (queue (load_le 4) 4 b cap hi fr ram) /\
        forall a, a < pop_buffer \/ pop_buffer + 4 * m <= a -> ram' a = ram a) /\
  (forall s b cap hi fr pop_buffer m ram,
      0 < s < 65536 -> s * cap < 2147483648 ->
      ring_ok cap hi fr -> 0 < m <= cap - fr -> pop_buffer <> 0 ->
      pop_buffer + s * m <= b \/ b + s * cap <= pop_buffer ->
      hi + m < cap ->
      exists ram',
        Common.fifo_common_pop_mul (Some (ring_desc (common_mk s) s b cap hi fr))
                                   pop_buffer m ram =
        (0, Some (ring_desc (common_mk s) s b cap (hi + m) (fr + m)), ram') /\
        map (fun i => read_entry s ram' (pop_buffer + s * Z.of_nat i)) (seq 0 (Z.to_nat m)) =
        firstn (Z.to_nat m) (queue (read_entry s) s b cap hi fr ram) /\
        queue (read_entry s) s b cap (hi + m) (fr + m) ram' =
        skipn (Z.to_nat m) (queue (read_entry s) s b cap hi fr ram) /\
        forall a, a < pop_buffer \/ pop_buffer + s * m <= a -> ram' a = ram a).
Proof.
  split; [|split].
  - intros b cap hi fr pop_buffer m ram Hok Hm Hpb Hdst Hfit.
    destruct (queue_pop_mul_fit uint16_api Uint16.mk 2 (load_le 2) ltac:(lia)
                uint16_pop_mul_fit (load_le_shift 2) b cap hi fr pop_buffer m ram
                Hok Hm Hpb Hfit Hdst) as (ram' & Hrun & Hout & Hq & Hframe).
    exists ram'. rewrite read_objs_map. auto.
  - intros b cap hi fr pop_buffer m ram Hok Hm Hpb Hdst Hfit.
    destruct (queue_pop_mul_fit uint32_api Uint32.mk 4 (load_le 4) ltac:(lia)
                uint32_pop_mul_fit (load_le_shift 4) b cap hi fr pop_buffer m ram
                Hok Hm Hpb Hfit Hdst) as (ram' & Hrun & Hout & Hq & Hframe).
    exists ram'. rewrite read_objs_map. auto.
  - intros s b cap hi fr pop_buffer m ram [Hs Hs16] Hint Hok Hm Hpb Hdst Hfit.
    apply (queue_pop_mul_fit common_api (common_mk s) s (read_entry s) Hs
             (common_pop_mul_fit s) (entry_shift s)); assumption.
Qed.

Lemma pop_mul_takes_oldest_before_storage_end_witness :
  (exists ram',
      Uint32.fifo_uint32_pop_mul (Some (ring_desc Uint32.mk 4 100 4 1 1)) 300 2 ram_aa =
      (0, Some (ring_desc Uint32.mk 4 100 4 (1 + 2) (1 + 2)), ram') /\
      read_objs 4 ram' 300 (Z.to_nat 2) =
      firstn (Z.to_nat 2) (queue (load_le 4) 4 100 4 1 1 ram_aa) /\
      queue (load_le 4) 4 100 4 (1 + 2) (1 + 2) ram' =
      skipn (Z.to_nat 2) (queue (load_le 4) 4 100 4 1 1 ram_aa) /\
      forall a, a < 300 \/ 300 + 4 * 2 <= a -> ram' a = ram_aa a) /\
  (exists ram',
      Common.fifo_common_pop_mul (Some (ring_desc (common_mk 3) 3 100 4 1 1)) 300 2 ram_aa =
      (0, Some (ring_desc (common_mk 3) 3 100 4 (1 + 2) (1 + 2)), ram') /\
      map (fun i => read_entry 3 ram' (300 + 3 * Z.of_nat i)) (seq 0 (Z.to_nat 2)) =
      firstn (Z.to_nat 2) (queue (read_entry 3) 3 100 4 1 1 ram_aa) /\
      queue (read_entry 3) 3 100 4 (1 + 2) (1 + 2) ram' =
      skipn (Z.to_nat 2) (queue (read_entry 3) 3 100 4 1 1 ram_aa) /\
      forall a, a < 300 \/ 300 + 3 * 2 <= a -> ram' a = ram_aa a).
Proof.
  destruct pop_mul_takes_oldest_before_storage_end as (_ & H & Hc).
  split.
  - apply H; [unfold ring_ok; lia | lia | lia | lia | lia].
  - apply (Hc 3 100 4 1 1 300 2 ram_aa);
      [lia | lia | unfold ring_ok; lia | lia | lia | lia | lia].
Defined.

(** * What the bulk calls of the 16-bit and 32-bit variants never touch *)

Ltac bulk_frame_tac :=
  intros b cap hi fr p m ram a (Hcap & Hhi & Hfr) Hm Ha;
  pose proof (wrap_range cap (hi + (cap - fr)) ltac:(lia) ltac:(lia));
  unfold_bulk; unfold ring_desc; unfold_fields;
  repeat match goal with
         | |- context [?x =? ?y] => destruct (Z.eqb_spec x y); [reflexivity|]
         | |- context [?x <? ?y] => destruct (Z.ltb_spec x y); [reflexivity|]
         end;
  match goal with
  | |- context [?x <=? ?y] => destruct (Z.leb_spec x y)
  end;
  cbn [snd]; unfold memcpy;
  repeat match goal with
         | |- context [?x <=? ?y] => destruct (Z.leb_spec x y)
         | |- context [?x <? ?y] => destruct (Z.ltb_spec x y)
         end;
  cbn [andb]; try reflexivity; exfalso; zlia.

(** X14. The bulk calls of the 16-bit and 32-bit variants stay within their
    arrays on every path, also when the run reaches the storage end: from a
    well-formed descriptor, [push_mul] changes no byte outside the storage,
    and [pop_mul] changes no byte outside the [m] elements of the
    destination array. *)
Theorem typed_bulk_calls_stay_in_bounds :
  (forall b cap hi fr push_buffer m ram a,
      ring_ok cap hi fr -> 0 <= m < 65536 ->
      a < b \/ b + 2 * cap <= a ->
      snd (Uint16.fifo_uint16_push_mul (Some (ring_desc Uint16.mk 2 b cap hi fr)) push_buffer m ram) a =
      ram a) /\
  (forall b cap hi fr pop_buffer m ram a,
      ring_ok cap hi fr -> 0 <= m < 65536 ->
      a < pop_buffer \/ pop_buffer + 2 * m <= a ->
      snd (Uint16.fifo_uint16_pop_mul (Some (ring_desc Uint16.mk 2 b cap hi fr)) pop_buffer m ram) a =
      ram a) /\
  (forall b cap hi fr push_buffer m ram a,
      ring_ok cap hi fr -> 0 <= m < 65536 ->
      a < b \/ b + 4 * cap <= a ->
      snd (Uint32.fifo_uint32_push_mul (Some (ring_desc Uint32.mk 4 b cap hi fr)) push_buffer m ram) a =
      ram a) /\
  (forall b cap hi fr pop_buffer m ram a,
      ring_ok cap hi fr -> 0 <= m < 65536 ->
      a < pop_buffer \/ pop_buffer + 4 * m <= a ->
      snd (Uint32.fifo_uint32_pop_mul (Some (ring_desc Uint32.mk 4 b cap hi fr)) pop_buffer m ram) a =
      ram a).
Proof.
  split; [|split; [|split]]; bulk_frame_tac.
Qed.

Lemma typed_bulk_calls_stay_in_bounds_witness :
  snd (Uint16.fifo_uint16_push_mul (Some (ring_desc Uint16.mk 2 100 4 3 4)) 300 4 ram_aa) 108 =
  ram_aa 108 /\
  snd (Uint32.fifo_uint32_pop_mul (Some (ring_desc Uint32.mk 4 100 4 3 0)) 300 4 ram_aa) 316 =
  ram_aa 316.
Proof.
  destruct typed_bulk_calls_stay_in_bounds as (H1 & _ & _ & H4).
  split.
  - apply H1; [unfold ring_ok; lia | lia | lia].
  - apply H4; [unfold ring_ok; lia | lia | lia].
Defined.

(** * Bulk push of the byte variant, byte for byte *)

(** X15. For the byte variant a bulk push is the same as single pushes.
    From a well-formed descriptor, [fifo_uint8_push_mul] of [m <= free_size]
    bytes found at [push_buffer] (outside the storage, in a memory of bytes)
    returns 0 and yields the descriptor that [m] single pushes of these bytes
    yield, each returning 0, and a memory that agrees with theirs at every
    address, also when the run crosses the storage end. *)
Theorem uint8_bulk_push_is_single_pushes :
  forall b cap hi fr push_buffer m ram,
    ring_ok cap hi fr -> 0 < m <= fr -> push_buffer <> 0 ->
    push_buffer + m <= b \/ b + cap <= push_buffer ->
    byte_mem ram ->
    let f := Some (ring_desc Uint8.mk 1 b cap hi fr) in
    let '(rc, f_bulk, ram_bulk) := Uint8.fifo_uint8_push_mul f push_buffer m ram in
    let '(rcs, f_single, ram_single) :=
      push_each uint8_api (read_bytes ram push_buffer (Z.to_nat m)) f ram in
    rc = 0 /\ Forall (eq 0) rcs /\ f_bulk = f_single /\
    forall a, ram_bulk a = ram_single a.
Proof.
  intros b cap hi fr push_buffer m ram (Hcap & Hhi & Hfr) Hm Hpb Hsrc Hbytes.
  pose proof (wrap_range cap (hi + (cap - fr)) ltac:(lia) ltac:(lia)) as Ht.
  pose proof (uint8_push_mul_as_single_pushes b (b + 1 * hi) cap
                (wrap cap (hi + (cap - fr))) fr push_buffer m ram
                Hcap Ht Hm ltac:(lia) Hpb Hsrc Hbytes) as H.
  unfold ring_desc. rewrite !Z.mul_1_l in *. exact H.
Qed.

Lemma uint8_bulk_push_is_single_pushes_witness :
  let f := Some (ring_desc Uint8.mk 1 100 4 3 3) in
  let '(rc, f_bulk, ram_bulk) := Uint8.fifo_uint8_push_mul f 300 3 ram_aa in
  let '(rcs, f_single, ram_single) :=
    push_each uint8_api (read_bytes ram_aa 300 (Z.to_nat 3)) f ram_aa in
  rc = 0 /\ Forall (eq 0) rcs /\ f_bulk = f_single /\
  forall a, ram_bulk a = ram_single a.
Proof.
  apply (uint8_bulk_push_is_single_pushes 100 4 3 3 300 3 ram_aa);
    [unfold ring_ok; lia | lia | lia | lia | exact ram_aa_bytes].
Defined.

(** * The common variant with one-byte entries *)

Lemma common1_push_mul_some : forall b h t l mx fr push_buffer m ram,
    push_buffer <> 0 -> 0 < m <= fr -> fr < 65536 -> t < l ->
    Common.fifo_common_push_mul (Some (common_mk 1 b h t l mx fr)) push_buffer m ram =
    (0,
     Some (common_mk 1 b h (if l <=? t + m then b + (m - (l - t)) else t + m) l mx (fr - m)),
     if l <=? t + m
     then memcpy (memcpy ram t push_buffer (l - t)) b (push_buffer + (l - t)) (m - (l - t))
     else memcpy ram t push_buffer m).
Proof.
  intros b h t l mx fr push_buffer m ram Hpb Hm Hfr Htl.
  unfold Common.fifo_common_push_mul. unfold_fields.
  destruct (Z.eqb_spec push_buffer 0); [contradiction|].
  destruct (Z.eqb_spec m 0); [lia|].
  destruct (Z.ltb_spec fr m); [lia|].
  rewrite !Z.mul_1_r, Z.quot_1_r.
  replace (u16 (fr - m)) with (fr - m) by zlia.
  destruct (Z.leb_spec l (t + m)); cbv beta iota zeta.
  - replace (u16 (m - (l - t))) with (m - (l - t)) by zlia.
    rewrite ?Z.mul_1_r. reflexivity.
  - rewrite ?Z.mul_1_r. reflexivity.
Qed.

Lemma common1_pop_mul_some : forall b h t l mx fr pop_buffer m ram,
    pop_buffer <> 0 -> 0 < m <= mx -> 0 <= fr -> fr + m < 65536 -> h < l ->
    Common.fifo_common_pop_mul (Some (common_mk 1 b h t l mx fr)) pop_buffer m ram =
    (0,
     Some (common_mk 1 b (if l <=? h + m then b + (m - (l - h)) else h + m) t l mx (fr + m)),
     if l <=? h + m
     then memcpy (memcpy ram pop_buffer h (l - h)) (pop_buffer + (l - h)) b (m - (l - h))
     else memcpy ram pop_buffer h m).
Proof.
  intros b h t l mx fr pop_buffer m ram Hpb Hm Hfr Hfr' Hhl.
  unfold Common.fifo_common_pop_mul. unfold_fields.
  destruct (Z.eqb_spec pop_buffer 0); [contradiction|].
  destruct (Z.eqb_spec m 0); [lia|].
  destruct (Z.ltb_spec mx m); [lia|].
  rewrite !Z.mul_1_r.
  replace (u16 (fr + m)) with (fr + m) by zlia.
  destruct (Z.leb_spec l (h + m)); cbv beta iota zeta.
  - replace (u16 (m - (l - h))) with (m - (l - h)) by zlia.
    rewrite ?Z.mul_1_r. reflexivity.
  - rewrite ?Z.mul_1_r. reflexivity.
Qed.

(** X16. The common variant with one-byte entries.  With [entry_size = 1]
    the bulk calls of the common variant are right on every path: from a
    well-formed descriptor, [fifo_common_push_mul] of [m <= free_size]
    entries appends them to the queue, and [fifo_common_pop_mul] of [m]
    entries, [m] not exceeding the number of queued entries, delivers the [m]
    oldest entries in order and leaves the remaining ones, also when the run
    crosses the storage end.  Source and destination lie outside the
    storage. *)
Theorem common_bulk_calls_with_byte_entries :
  (forall b cap hi fr push_buffer m ram,
      ring_ok cap hi fr -> 0 < m <= fr -> push_buffer <> 0 ->
      push_buffer + m <= b \/ b + cap <= push_buffer ->
      exists ram',
        Common.fifo_common_push_mul (Some (ring_desc (common_mk 1) 1 b cap hi fr))
                                    push_buffer m ram =
        (0, Some (ring_desc (common_mk 1) 1 b cap hi (fr - m)), ram') /\
        queue (read_entry 1) 1 b cap hi (fr - m) ram' =
        queue (read_entry 1) 1 b cap hi fr ram ++
        map (fun i => read_entry 1 ram (push_buffer + 1 * Z.of_nat i)) (seq 0 (Z.to_nat m)) /\
        forall a, a < b \/ b + cap <= a -> ram' a = ram a) /\
  (forall b cap hi fr pop_buffer m ram,
      ring_ok cap hi fr -> 0 < m <= cap - fr -> pop_buffer <> 0 ->
      pop_buffer + m <= b \/ b + cap <= pop_buffer ->
      exists ram',
        Common.fifo_common_pop_mul (Some (ring_desc (common_mk 1) 1 b cap hi fr))
                                   pop_buffer m ram =
        (0, Some (ring_desc (common_mk 1) 1 b cap (wrap cap (hi + m)) (fr + m)), ram') /\
        map (fun i => read_entry 1 ram' (pop_buffer + 1 * Z.of_nat i)) (seq 0 (Z.to_nat m)) =
        firstn (Z.to_nat m) (queue (read_entry 1) 1 b cap hi fr ram) /\
        queue (read_entry 1) 1 b cap (wrap cap (hi + m)) (fr + m) ram' =
        skipn (Z.to_nat m) (queue (read_entry 1) 1 b cap hi fr ram) /\
        forall a, a < pop_buffer \/ pop_buffer + m <= a -> ram' a = ram a).
Proof.
  split.
  - intros b cap hi fr pb m ram (Hcap & Hhi & Hfr) Hm Hpb Hsrc.
    pose proof (wrap_range cap (hi + (cap - fr)) ltac:(lia) ltac:(lia)) as Ht.
    unfold ring_desc. rewrite common1_push_mul_some by lia.
    eexists. split; [|split].
    + f_equal. f_equal. f_equal. unfold common_mk. f_equal. crush_wrap.
    + unfold queue, ring.
      replace (Z.to_nat (cap - (fr - m))) with (Z.to_nat (cap - fr) + Z.to_nat m)%nat by lia.
      rewrite seq_app, map_app. f_equal.
      * apply map_ext_in. intros i Hi. apply in_seq in Hi.
        unfold read_entry. change (Z.to_nat 1) with 1%nat. cbn [read_bytes]. f_equal.
        crush_wrap.
      * rewrite map_seq_from.
        apply map_ext_in. intros i Hi. apply in_seq in Hi.
        unfold read_entry. change (Z.to_nat 1) with 1%nat. cbn [read_bytes]. f_equal.
        crush_wrap.
    + intros a Ha. crush_wrap.
  - intros b cap hi fr pb m ram (Hcap & Hhi & Hfr) Hm Hpb Hdst.
    unfold ring_desc. rewrite common1_pop_mul_some by lia.
    eexists. split; [|split; [|split]].
    + apply f_equal2; [|reflexivity]. do 2 apply f_equal. unfold common_mk.
      f_equal; crush_wrap.
    + unfold queue, ring. rewrite firstn_map, firstn_seq_le by lia.
      apply map_ext_in. intros i Hi. apply in_seq in Hi.
      unfold read_entry. change (Z.to_nat 1) with 1%nat. cbn [read_bytes]. f_equal.
      crush_wrap.
    + unfold queue, ring. rewrite skipn_map, skipn_seq_le by lia.
      replace (Z.to_nat (cap - fr) - Z.to_nat m)%nat with (Z.to_nat (cap - (fr + m))) by lia.
      rewrite (map_seq_from _ (0 + Z.to_nat m)).
      apply map_ext_in. intros i Hi. apply in_seq in Hi.
      unfold read_entry. change (Z.to_nat 1) with 1%nat. cbn [read_bytes]. f_equal.
      replace (Z.of_nat (0 + Z.to_nat m + i)) with (m + Z.of_nat i) by lia.
      crush_wrap.
    + intros a Ha. crush_wrap.
Qed.

Lemma common_bulk_calls_with_byte_entries_witness :
  exists ram',
    Common.fifo_common_push_mul (Some (ring_desc (common_mk 1) 1 100 4 3 3)) 300 3 ram_aa =
    (0, Some (ring_desc (common_mk 1) 1 100 4 3 (3 - 3)), ram') /\
    queue (read_entry 1) 1 100 4 3 (3 - 3) ram' =
    queue (read_entry 1) 1 100 4 3 3 ram_aa ++
    map (fun i => read_entry 1 ram_aa (300 + 1 * Z.of_nat i)) (seq 0 (Z.to_nat 3)) /\
    forall a, a < 100 \/ 100 + 4 <= a -> ram' a = ram_aa a.
Proof.
  destruct common_bulk_calls_with_byte_entries as (H & _).
  apply H; [unfold ring_ok; lia | lia | lia | lia].
Defined.
